(** * CDCL SAT solver: a shallow embedding and its checked properties

    The development follows two source files of the repository:

    - [cdcl/algorithm_backbone.py], class [CDCLSolver]: the solver state and
      its operations (activity bookkeeping, Luby restarts, unit propagation,
      conflict analysis, backtracking, decisions);
    - [cdcl/tester.py], class [SATSolver]: the DIMACS reader
      [parse_cnf_file] and the driver loop [solve].

    Conventions of the embedding.

    - Python integers are [Z]; a literal is a [Z], its variable is [Z.abs].
    - Python floats are IEEE binary64, modelled by Rocq's primitive [float].
    - A [dict] is a [gmap]; [d[k]] on a missing key raises [KeyError] and
      [l[i]] out of range raises [IndexError]: an operation that can raise
      returns an [option], [None] standing for the raised exception.
    - The wall clock of [solve] is replaced by the number of times its loop
      condition [time.perf_counter() - start_time < time_limit] holds.
    - The order in which [list(set(l))] enumerates a set is left open by
      Python; it is a section variable [list_set].
    - [print] calls, the [debug] branches and the dictionary [level_counts]
      (which is only printed) have no effect on the state or on the returned
      values and are left out.
    - In [tester.py] the docstring of [solve] is indented deeper than the
      statements after it; these statements are read as the body of the
      method. *)

From Stdlib Require Import PrimFloat.
From Stdlib Require Import ZArith Lia Ascii String.
From stdpp Require Import gmap list fin_maps sorting.

Local Open Scope Z_scope.

Set Warnings "-inexact-float".

(** ** Literals and clauses *)

Abbreviation clause := (list Z).

(** [(lit > 0 and val) or (lit < 0 and not val)] *)
Definition lit_holds (lit : Z) (val : bool) : bool :=
  (0 <? lit) && val || (lit <? 0) && negb val.

(** A literal is true under an assignment when its variable is assigned the
    value of its sign, false when its variable is assigned and the literal is
    not true. *)
Definition lit_true (a : gmap Z bool) (lit : Z) : Prop :=
  ∃ val, a !! Z.abs lit = Some val ∧ lit_holds lit val = true.

Definition lit_false (a : gmap Z bool) (lit : Z) : Prop :=
  ∃ val, a !! Z.abs lit = Some val ∧ lit_holds lit val = false.

Definition lit_unassigned (a : gmap Z bool) (lit : Z) : Prop :=
  a !! Z.abs lit = None.

Definition clause_satisfied (a : gmap Z bool) (c : clause) : Prop :=
  Exists (lit_true a) c.

(** [len(l)] *)
Definition len {A} (l : list A) : Z := Z.of_nat (length l).

(** [l[i]] with Python's negative indices; [None] is [IndexError]. *)
Definition py_index {A} (l : list A) (i : Z) : option A :=
  if 0 <=? i then l !! Z.to_nat i
  else if 0 <=? len l + i then l !! Z.to_nat (len l + i)
  else None.

(** [max(l, key=key)] on a non-empty list [x :: l]: the first element whose
    key is not exceeded by a later one. *)
Definition py_max_by (key : Z → float) (x : Z) (l : list Z) : Z :=
  foldl (λ best v, if PrimFloat.ltb (key best) (key v) then v else best) x l.

(** [sorted(l, key=key, reverse=True)]: descending keys, elements of equal
    key in their original order. *)
Fixpoint insert_desc {A} (key : A → float) (x : A) (l : list A) : list A :=
  match l with
  | [] => [x]
  | y :: l' =>
      if PrimFloat.ltb (key y) (key x) then x :: l
      else y :: insert_desc key x l'
  end.

Definition sorted_desc {A} (key : A → float) (l : list A) : list A :=
  foldl (λ acc x, insert_desc key x acc) [] l.

(** ** The solver state: the attributes of [CDCLSolver] *)

Record CDCLSolver : Type := mkCDCLSolver {
  assignment : gmap Z bool;
  learned_clauses : list clause;
  decision_level : Z;
  level : gmap Z Z;
  antecedent : gmap Z clause;
  trail : list Z;
  max_var : Z;
  activity : gmap Z float;
  decay_factor : float;
  bump_value : float;
  restarts : Z;
  conflicts : Z;
  restart_threshold : Z;
  restart_multiplier : float;
  luby_sequence : list Z;
  luby_base : Z;
  clause_deletion_threshold : Z;
  clause_activity : gmap Z float;
  clause_decay : float;
  saved_phases : gmap Z bool
}.

Definition set_assignment (x : gmap Z bool) (s : CDCLSolver) : CDCLSolver :=
  {| assignment := x; learned_clauses := learned_clauses s;
     decision_level := decision_level s; level := level s;
     antecedent := antecedent s; trail := trail s; max_var := max_var s;
     activity := activity s; decay_factor := decay_factor s;
     bump_value := bump_value s; restarts := restarts s;
     conflicts := conflicts s; restart_threshold := restart_threshold s;
     restart_multiplier := restart_multiplier s;
     luby_sequence := luby_sequence s; luby_base := luby_base s;
     clause_deletion_threshold := clause_deletion_threshold s;
     clause_activity := clause_activity s; clause_decay := clause_decay s;
     saved_phases := saved_phases s |}.

Definition set_learned_clauses (x : list clause) (s : CDCLSolver) : CDCLSolver :=
  {| assignment := assignment s; learned_clauses := x;
     decision_level := decision_level s; level := level s;
     antecedent := antecedent s; trail := trail s; max_var := max_var s;
     activity := activity s; decay_factor := decay_factor s;
     bump_value := bump_value s; restarts := restarts s;
     conflicts := conflicts s; restart_threshold := restart_threshold s;
     restart_multiplier := restart_multiplier s;
     luby_sequence := luby_sequence s; luby_base := luby_base s;
     clause_deletion_threshold := clause_deletion_threshold s;
     clause_activity := clause_activity s; clause_decay := clause_decay s;
     saved_phases := saved_phases s |}.

Definition set_decision_level (x : Z) (s : CDCLSolver) : CDCLSolver :=
  {| assignment := assignment s; learned_clauses := learned_clauses s;
     decision_level := x; level := level s; antecedent := antecedent s;
     trail := trail s; max_var := max_var s; activity := activity s;
     decay_factor := decay_factor s; bump_value := bump_value s;
     restarts := restarts s; conflicts := conflicts s;
     restart_threshold := restart_threshold s;
     restart_multiplier := restart_multiplier s;
     luby_sequence := luby_sequence s; luby_base := luby_base s;
     clause_deletion_threshold := clause_deletion_threshold s;
     clause_activity := clause_activity s; clause_decay := clause_decay s;
     saved_phases := saved_phases s |}.

Definition set_level (x : gmap Z Z) (s : CDCLSolver) : CDCLSolver :=
  {| assignment := assignment s; learned_clauses := learned_clauses s;
     decision_level := decision_level s; level := x;
     antecedent := antecedent s; trail := trail s; max_var := max_var s;
     activity := activity s; decay_factor := decay_factor s;
     bump_value := bump_value s; restarts := restarts s;
     conflicts := conflicts s; restart_threshold := restart_threshold s;
     restart_multiplier := restart_multiplier s;
     luby_sequence := luby_sequence s; luby_base := luby_base s;
     clause_deletion_threshold := clause_deletion_threshold s;
     clause_activity := clause_activity s; clause_decay := clause_decay s;
     saved_phases := saved_phases s |}.

Definition set_antecedent (x : gmap Z clause) (s : CDCLSolver) : CDCLSolver :=
  {| assignment := assignment s; learned_clauses := learned_clauses s;
     decision_level := decision_level s; level := level s; antecedent := x;
     trail := trail s; max_var := max_var s; activity := activity s;
     decay_factor := decay_factor s; bump_value := bump_value s;
     restarts := restarts s; conflicts := conflicts s;
     restart_threshold := restart_threshold s;
     restart_multiplier := restart_multiplier s;
     luby_sequence := luby_sequence s; luby_base := luby_base s;
     clause_deletion_threshold := clause_deletion_threshold s;
     clause_activity := clause_activity s; clause_decay := clause_decay s;
     saved_phases := saved_phases s |}.

Definition set_trail (x : list Z) (s : CDCLSolver) : CDCLSolver :=
  {| assignment := assignment s; learned_clauses := learned_clauses s;
     decision_level := decision_level s; level := level s;
     antecedent := antecedent s; trail := x; max_var := max_var s;
     activity := activity s; decay_factor := decay_factor s;
     bump_value := bump_value s; restarts := restarts s;
     conflicts := conflicts s; restart_threshold := restart_threshold s;
     restart_multiplier := restart_multiplier s;
     luby_sequence := luby_sequence s; luby_base := luby_base s;
     clause_deletion_threshold := clause_deletion_threshold s;
     clause_activity := clause_activity s; clause_decay := clause_decay s;
     saved_phases := saved_phases s |}.

Definition set_max_var (x : Z) (s : CDCLSolver) : CDCLSolver :=
  {| assignment := assignment s; learned_clauses := learned_clauses s;
     decision_level := decision_level s; level := level s;
     antecedent := antecedent s; trail := trail s; max_var := x;
     activity := activity s; decay_factor := decay_factor s;
     bump_value := bump_value s; restarts := restarts s;
     conflicts := conflicts s; restart_threshold := restart_threshold s;
     restart_multiplier := restart_multiplier s;
     luby_sequence := luby_sequence s; luby_base := luby_base s;
     clause_deletion_threshold := clause_deletion_threshold s;
     clause_activity := clause_activity s; clause_decay := clause_decay s;
     saved_phases := saved_phases s |}.

Definition set_activity (x : gmap Z float) (s : CDCLSolver) : CDCLSolver :=
  {| assignment := assignment s; learned_clauses := learned_clauses s;
     decision_level := decision_level s; level := level s;
     antecedent := antecedent s; trail := trail s; max_var := max_var s;
     activity := x; decay_factor := decay_factor s;
     bump_value := bump_value s; restarts := restarts s;
     conflicts := conflicts s; restart_threshold := restart_threshold s;
     restart_multiplier := restart_multiplier s;
     luby_sequence := luby_sequence s; luby_base := luby_base s;
     clause_deletion_threshold := clause_deletion_threshold s;
     clause_activity := clause_activity s; clause_decay := clause_decay s;
     saved_phases := saved_phases s |}.

Definition set_bump_value (x : float) (s : CDCLSolver) : CDCLSolver :=
  {| assignment := assignment s; learned_clauses := learned_clauses s;
     decision_level := decision_level s; level := level s;
     antecedent := antecedent s; trail := trail s; max_var := max_var s;
     activity := activity s; decay_factor := decay_factor s; bump_value := x;
     restarts := restarts s; conflicts := conflicts s;
     restart_threshold := restart_threshold s;
     restart_multiplier := restart_multiplier s;
     luby_sequence := luby_sequence s; luby_base := luby_base s;
     clause_deletion_threshold := clause_deletion_threshold s;
     clause_activity := clause_activity s; clause_decay := clause_decay s;
     saved_phases := saved_phases s |}.

Definition set_restarts (x : Z) (s : CDCLSolver) : CDCLSolver :=
  {| assignment := assignment s; learned_clauses := learned_clauses s;
     decision_level := decision_level s; level := level s;
     antecedent := antecedent s; trail := trail s; max_var := max_var s;
     activity := activity s; decay_factor := decay_factor s;
     bump_value := bump_value s; restarts := x; conflicts := conflicts s;
     restart_threshold := restart_threshold s;
     restart_multiplier := restart_multiplier s;
     luby_sequence := luby_sequence s; luby_base := luby_base s;
     clause_deletion_threshold := clause_deletion_threshold s;
     clause_activity := clause_activity s; clause_decay := clause_decay s;
     saved_phases := saved_phases s |}.

Definition set_conflicts (x : Z) (s : CDCLSolver) : CDCLSolver :=
  {| assignment := assignment s; learned_clauses := learned_clauses s;
     decision_level := decision_level s; level := level s;
     antecedent := antecedent s; trail := trail s; max_var := max_var s;
     activity := activity s; decay_factor := decay_factor s;
     bump_value := bump_value s; restarts := restarts s; conflicts := x;
     restart_threshold := restart_threshold s;
     restart_multiplier := restart_multiplier s;
     luby_sequence := luby_sequence s; luby_base := luby_base s;
     clause_deletion_threshold := clause_deletion_threshold s;
     clause_activity := clause_activity s; clause_decay := clause_decay s;
     saved_phases := saved_phases s |}.

Definition set_luby_sequence (x : list Z) (s : CDCLSolver) : CDCLSolver :=
  {| assignment := assignment s; learned_clauses := learned_clauses s;
     decision_level := decision_level s; level := level s;
     antecedent := antecedent s; trail := trail s; max_var := max_var s;
     activity := activity s; decay_factor := decay_factor s;
     bump_value := bump_value s; restarts := restarts s;
     conflicts := conflicts s; restart_threshold := restart_threshold s;
     restart_multiplier := restart_multiplier s; luby_sequence := x;
     luby_base := luby_base s;
     clause_deletion_threshold := clause_deletion_threshold s;
     clause_activity := clause_activity s; clause_decay := clause_decay s;
     saved_phases := saved_phases s |}.

Definition set_clause_activity (x : gmap Z float) (s : CDCLSolver) : CDCLSolver :=
  {| assignment := assignment s; learned_clauses := learned_clauses s;
     decision_level := decision_level s; level := level s;
     antecedent := antecedent s; trail := trail s; max_var := max_var s;
     activity := activity s; decay_factor := decay_factor s;
     bump_value := bump_value s; restarts := restarts s;
     conflicts := conflicts s; restart_threshold := restart_threshold s;
     restart_multiplier := restart_multiplier s;
     luby_sequence := luby_sequence s; luby_base := luby_base s;
     clause_deletion_threshold := clause_deletion_threshold s;
     clause_activity := x; clause_decay := clause_decay s;
     saved_phases := saved_phases s |}.

Definition set_saved_phases (x : gmap Z bool) (s : CDCLSolver) : CDCLSolver :=
  {| assignment := assignment s; learned_clauses := learned_clauses s;
     decision_level := decision_level s; level := level s;
     antecedent := antecedent s; trail := trail s; max_var := max_var s;
     activity := activity s; decay_factor := decay_factor s;
     bump_value := bump_value s; restarts := restarts s;
     conflicts := conflicts s; restart_threshold := restart_threshold s;
     restart_multiplier := restart_multiplier s;
     luby_sequence := luby_sequence s; luby_base := luby_base s;
     clause_deletion_threshold := clause_deletion_threshold s;
     clause_activity := clause_activity s; clause_decay := clause_decay s;
     saved_phases := x |}.

(** [CDCLSolver.__init__] *)
Definition CDCLSolver_init : CDCLSolver :=
  {| assignment := ∅; learned_clauses := []; decision_level := 0;
     level := ∅; antecedent := ∅; trail := []; max_var := 0;
     activity := ∅; decay_factor := 0.85%float; bump_value := 1.0%float;
     restarts := 0; conflicts := 0; restart_threshold := 50;
     restart_multiplier := 1.1%float;
     luby_sequence := [1]; luby_base := 100;
     clause_deletion_threshold := 200;
     clause_activity := ∅; clause_decay := 0.999%float;
     saved_phases := ∅ |}.

(** ** Activity bookkeeping *)

(** [initialize_activity]: [for var in range(1, self.max_var + 1)]. *)
Definition initialize_activity (s : CDCLSolver) : CDCLSolver :=
  let vars := seqZ 1 (max_var s) in
  set_saved_phases (foldl (λ m var, <[var := false]> m) (saved_phases s) vars)
    (set_activity (foldl (λ m var, <[var := 0%float]> m) (activity s) vars) s).

(** [bump_variable_activity] *)
Definition bump_variable_activity (var : Z) (s : CDCLSolver) : CDCLSolver :=
  let act := default 0%float (activity s !! var) in
  let act' := PrimFloat.add act (bump_value s) in
  let s1 := set_activity (<[var := act']> (activity s)) s in
  if PrimFloat.ltb 1e100%float act' then
    set_bump_value (PrimFloat.mul (bump_value s1) 1e-100%float)
      (set_activity ((λ x, PrimFloat.mul x 1e-100%float) <$> activity s1) s1)
  else s1.

(** [decay_variable_activity] *)
Definition decay_variable_activity (s : CDCLSolver) : CDCLSolver :=
  set_activity ((λ x, PrimFloat.mul x (decay_factor s)) <$> activity s) s.

(** [bump_clause_activity] *)
Definition bump_clause_activity (clause_idx : Z) (s : CDCLSolver) : CDCLSolver :=
  let act := default 0%float (clause_activity s !! clause_idx) in
  set_clause_activity
    (<[clause_idx := PrimFloat.add act 1.0%float]> (clause_activity s)) s.

(** [decay_clause_activity] *)
Definition decay_clause_activity (s : CDCLSolver) : CDCLSolver :=
  set_clause_activity
    ((λ x, PrimFloat.mul x (clause_decay s)) <$> clause_activity s) s.

(** [clean_learned_clauses]: the learned clauses are paired with their
    indices, sorted by the activity of the index, and the first [keep_count]
    are kept and renumbered from 0. *)
Definition clean_learned_clauses (s : CDCLSolver) : CDCLSolver :=
  if len (learned_clauses s) <=? clause_deletion_threshold s then s
  else
    let get_act (i : Z) := default 0%float (clause_activity s !! i) in
    let indexed := imap (λ i c, (Z.of_nat i, c)) (learned_clauses s) in
    let sorted_clauses := sorted_desc (λ ic, get_act ic.1) indexed in
    let keep_count := Z.max (len (learned_clauses s) `div` 3) 50 in
    let to_keep := take (Z.to_nat keep_count) sorted_clauses in
    let new_learned := snd <$> to_keep in
    let new_activity : gmap Z float :=
      list_to_map (imap (λ i ic, (Z.of_nat i, get_act ic.1)) to_keep) in
    set_clause_activity new_activity (set_learned_clauses new_learned s).

(** ** Luby restarts *)

(** The loop [k = 1; while size & k == 0: k <<= 1] of [next_luby]; [fuel]
    bounds the number of shifts. *)
Fixpoint luby_shift (fuel : nat) (size k : Z) : Z :=
  match fuel with
  | O => k
  | S fuel' =>
      if Z.land size k =? 0 then luby_shift fuel' size (Z.shiftl k 1) else k
  end.

(** [next_luby] on the list [self.luby_sequence]: the extended list. The
    shift loop stops within [size] steps whenever [size] is positive, which
    it is in the [else] branch. *)
Definition next_luby_seq (luby : list Z) : option (list Z) :=
  let size := len luby in
  if Z.land size (size + 1) =? 0 then Some (luby ++ [1])
  else
    let k := luby_shift (Z.to_nat size) size 1 in
    x ← py_index luby (size - k);
    Some (luby ++ [x]).

(** [next_luby]: the appended value is returned, the state keeps the list. *)
Definition next_luby (s : CDCLSolver) : option (Z * CDCLSolver) :=
  luby ← next_luby_seq (luby_sequence s);
  x ← py_index luby (-1);
  Some (x, set_luby_sequence luby s).

(** [should_restart] *)
Definition should_restart (s : CDCLSolver) : option bool :=
  x ← py_index (luby_sequence s) (-1);
  Some (luby_base s * x <=? conflicts s).

(** ** Unit propagation *)

(** The inner loop [for lit in clause] of [unit_propagate]: [None] when a
    true literal is met ([is_satisfied], the [break]), otherwise the list
    [unassigned_lits]; [all_false] holds exactly when that list is empty. *)
Fixpoint scan_clause (a : gmap Z bool) (c : clause) : option (list Z) :=
  match c with
  | [] => Some []
  | lit :: c' =>
      match a !! Z.abs lit with
      | Some val => if lit_holds lit val then None else scan_clause a c'
      | None => cons lit <$> scan_clause a c'
      end
  end.

(** One pass of [for clause_idx, clause in enumerate(clauses)]: it ends at
    the first conflicting clause, at the first unit clause, or at the end of
    the list. *)
Inductive sweep_result : Type :=
  | SweepConflict (clause_idx : Z) (c : clause)
  | SweepUnit (lit : Z) (c : clause)
  | SweepDone.

Fixpoint sweep (a : gmap Z bool) (clause_idx : Z) (clauses : list clause)
  : sweep_result :=
  match clauses with
  | [] => SweepDone
  | c :: rest =>
      match scan_clause a c with
      | None => sweep a (clause_idx + 1) rest
      | Some [] => SweepConflict clause_idx c
      | Some [lit] => SweepUnit lit c
      | Some _ => sweep a (clause_idx + 1) rest
      end
  end.

(** The conflict branch: count the conflict, bump the variables of the
    clause, bump the clause when it is a learned one, decay. *)
Definition conflict_found (n_clauses clause_idx : Z) (c : clause)
    (s : CDCLSolver) : CDCLSolver :=
  let s1 := set_conflicts (conflicts s + 1) s in
  let s2 := foldl (λ st lit, bump_variable_activity (Z.abs lit) st) s1 c in
  let first_learned := n_clauses - len (learned_clauses s2) in
  let s3 := if first_learned <=? clause_idx
            then bump_clause_activity (clause_idx - first_learned) s2
            else s2 in
  decay_clause_activity (decay_variable_activity s3).

(** The unit branch: the sole unassigned literal is made true at the current
    decision level, with the clause as its antecedent. *)
Definition assign_unit (lit : Z) (c : clause) (s : CDCLSolver) : CDCLSolver :=
  let var := Z.abs lit in
  let value := 0 <? lit in
  let s1 := set_assignment (<[var := value]> (assignment s)) s in
  let s2 := set_saved_phases (<[var := value]> (saved_phases s1)) s1 in
  let s3 := set_level (<[var := decision_level s2]> (level s2)) s2 in
  let s4 := set_antecedent (<[var := c]> (antecedent s3)) s3 in
  let s5 := set_trail (trail s4 ++ [var]) s4 in
  bump_variable_activity var s5.

(** The loop [while propagation_occurred]. Each round after a unit assignment
    costs one unit of [fuel]; [None] means the fuel ran out. *)
Fixpoint unit_propagate_loop (fuel : nat) (clauses : list clause)
    (s : CDCLSolver) : option (option clause * CDCLSolver) :=
  match sweep (assignment s) 0 clauses with
  | SweepConflict clause_idx c =>
      Some (Some c, conflict_found (len clauses) clause_idx c s)
  | SweepDone => Some (None, s)
  | SweepUnit lit c =>
      match fuel with
      | O => None
      | S fuel' => unit_propagate_loop fuel' clauses (assign_unit lit c s)
      end
  end.

(** [unit_propagate]: the returned clause is the conflict, [None] inside the
    result is Python's [None]. Every unit step assigns the variable of a
    literal of [clauses] that was unassigned, so the number of literal
    occurrences is enough fuel ([unit_propagate_total] below). *)
Definition unit_propagate (clauses : list clause) (s : CDCLSolver)
  : option (option clause * CDCLSolver) :=
  unit_propagate_loop (length (concat clauses)) clauses s.

(** ** Backtracking *)

(** The loop [while self.trail and self.level[self.trail[-1]] > level] of
    [backtrack], on the trail read from its end ([rtrail] is the reversed
    trail). The remaining reversed trail is returned with the state. *)
Fixpoint backtrack_pop (lvl : Z) (rtrail : list Z) (s : CDCLSolver)
  : option (list Z * CDCLSolver) :=
  match rtrail with
  | [] => Some ([], s)
  | var :: rest =>
      l ← level s !! var;
      if lvl <? l then
        _ ← assignment s !! var;
        let s1 := set_assignment (delete var (assignment s)) s in
        let s2 := set_antecedent (delete var (antecedent s1)) s1 in
        let s3 := set_level (delete var (level s2)) s2 in
        backtrack_pop lvl rest s3
      else Some (rtrail, s)
  end.

(** [backtrack] *)
Definition backtrack (lvl : Z) (s : CDCLSolver) : option CDCLSolver :=
  let s1 := set_saved_phases (assignment s ∪ saved_phases s) s in
  '(rtrail, s2) ← backtrack_pop lvl (reverse (trail s1)) s1;
  Some (set_decision_level lvl (set_trail (reverse rtrail) s2)).

(** [perform_restart] *)
Definition perform_restart (s : CDCLSolver) : option CDCLSolver :=
  s1 ← backtrack 0 s;
  let s2 := set_restarts (restarts s1 + 1) s1 in
  '(_, s3) ← next_luby s2;
  Some (set_conflicts 0 s3).

(** ** Decisions *)

(** [make_decision]: the returned boolean is Python's return value. *)
Definition make_decision (s : CDCLSolver) : bool * CDCLSolver :=
  let unassigned_vars :=
    filter (λ var, assignment s !! var = None) (seqZ 1 (max_var s)) in
  match unassigned_vars with
  | [] => (false, s)
  | v :: vs =>
      let best_var :=
        py_max_by (λ v, default 0%float (activity s !! v)) v vs in
      let saved_phase := default true (saved_phases s !! best_var) in
      let s1 := set_assignment (<[best_var := saved_phase]> (assignment s)) s in
      let s2 := set_level (<[best_var := decision_level s1 + 1]> (level s1)) s1 in
      let s3 := set_trail (trail s2 ++ [best_var]) s2 in
      (true, set_decision_level (decision_level s3 + 1) s3)
  end.

(** [all_vars_assigned] *)
Definition all_vars_assigned (s : CDCLSolver) : bool :=
  forallb (λ var, bool_decide (is_Some (assignment s !! var)))
    (seqZ 1 (max_var s)).

(** ** Conflict analysis and the driver *)

(** The local variables of [analyze_conflict] during resolution, with the
    solver state (activities are bumped on the way). *)
Record analysis : Type := mkAnalysis {
  seen : gset Z;
  current_level_literals : list Z;
  learned : list Z;
  solver : CDCLSolver
}.

(** [self.trail[::-1].index(var)]; [None] is the [ValueError] that the source
    catches. *)
Definition rindex (tr : list Z) (var : Z) : option Z :=
  (λ p, Z.of_nat p.1) <$> list_find (λ x, x = var) (reverse tr).

(** The search for [recent_var]: the literal of [cur] with the largest
    position in the reversed trail, the first one among equals. *)
Definition recent_step (tr : list Z) (acc : option Z * Z) (lit : Z)
  : option Z * Z :=
  match rindex tr (Z.abs lit) with
  | Some pos => if acc.2 <? pos then (Some lit, pos) else acc
  | None => acc
  end.

Definition find_recent (tr : list Z) (cur : list Z) : option Z :=
  (foldl (recent_step tr) (None, -1) cur).1.

(** [l.remove(x)]: the first occurrence goes. The source removes a literal it
    has just taken from the list, so the [ValueError] case does not arise. *)
Fixpoint list_remove_first (x : Z) (l : list Z) : list Z :=
  match l with
  | [] => []
  | y :: l' => if decide (y = x) then l' else y :: list_remove_first x l'
  end.

(** The first loop of [analyze_conflict], over the conflict clause. *)
Fixpoint initial_scan (lits : list Z) (st : analysis) : option analysis :=
  match lits with
  | [] => Some st
  | lit :: rest =>
      let var := Z.abs lit in
      let s := solver st in
      match assignment s !! var with
      | Some _ =>
          let seen' := {[var]} ∪ seen st in
          l ← level s !! var;
          if l =? decision_level s then
            initial_scan rest
              (mkAnalysis seen' (current_level_literals st ++ [lit])
                 (learned st) (bump_variable_activity var s))
          else
            initial_scan rest
              (mkAnalysis seen' (current_level_literals st) (learned st) s)
      | None => initial_scan rest st
      end
  end.

(** [for ant_lit in antecedent], resolving on [var]. *)
Fixpoint resolve_antecedent (var : Z) (ante : list Z) (st : analysis)
  : option analysis :=
  match ante with
  | [] => Some st
  | ant_lit :: rest =>
      let ant_var := Z.abs ant_lit in
      if decide (ant_var ≠ var ∧ ant_var ∉ seen st) then
        let seen' := {[ant_var]} ∪ seen st in
        let s := bump_variable_activity ant_var (solver st) in
        l ← level s !! ant_var;
        if l =? decision_level s then
          resolve_antecedent var rest
            (mkAnalysis seen' (current_level_literals st ++ [ant_lit])
               (learned st) s)
        else if 0 <? l then
          resolve_antecedent var rest
            (mkAnalysis seen' (current_level_literals st)
               (learned st ++ [ant_lit]) s)
        else
          resolve_antecedent var rest
            (mkAnalysis seen' (current_level_literals st) (learned st) s)
      else resolve_antecedent var rest st
  end.

(** The loop [while len(current_level_literals) > 1 and iteration <
    max_iterations]; [remaining] is [max_iterations - iteration], and the
    value left of it is returned with the state. *)
Fixpoint resolution_loop (remaining : nat) (st : analysis)
  : option (nat * analysis) :=
  match remaining with
  | O => Some (O, st)
  | S remaining' =>
      let cur := current_level_literals st in
      if 1 <? len cur then
        lit ← match find_recent (trail (solver st)) cur with
              | Some recent_var => Some recent_var
              | None => py_index cur (-1)
              end;
        let st1 := mkAnalysis (seen st) (list_remove_first lit cur)
                     (learned st) (solver st) in
        let var := Z.abs lit in
        st2 ← match antecedent (solver st) !! var with
              | Some ante => resolve_antecedent var ante st1
              | None => Some st1
              end;
        resolution_loop remaining' st2
      else Some (remaining, st)
  end.

(** The computation of [back_level] and [second_highest]. *)
Definition back_level_step (lev : gmap Z Z) (dl : Z) (acc : Z * Z) (lit : Z)
  : Z * Z :=
  let '(back_level, second_highest) := acc in
  match lev !! Z.abs lit with
  | Some l =>
      if (second_highest <? l) && (l <? dl) then
        if back_level <? l then (l, back_level) else (back_level, l)
      else acc
  | None => acc
  end.

Definition compute_back_level (lev : gmap Z Z) (dl : Z) (lits : list Z) : Z :=
  (foldl (back_level_step lev dl) (0, 0) lits).1.

(** The filter that builds [final_learned]. *)
Definition keep_literal (lev : gmap Z Z) (dl back_level : Z) (lit : Z) : bool :=
  match lev !! Z.abs lit with
  | None => true
  | Some l => (l <=? back_level) || (l =? dl)
  end.

(** [minimize_clause] copies its argument literal by literal. *)
Definition minimize_clause (c : clause) : clause :=
  foldl (λ result lit, result ++ [lit]) [] c.

Definition max_iterations : nat := 20.

Section Driver.

(** [list(set(l))]: some enumeration of the distinct elements of [l]. *)
Variable list_set : list Z → list Z.

(** [analyze_conflict]: the pair [(back_level, final_learned)] and the state. *)
Definition analyze_conflict (conflict_clause : clause) (s : CDCLSolver)
  : option ((Z * clause) * CDCLSolver) :=
  let learned0 := conflict_clause in
  st0 ← initial_scan learned0 (mkAnalysis ∅ [] learned0 s);
  '(remaining, st1) ← resolution_loop max_iterations st0;
  let cur := current_level_literals st1 in
  let cur' :=
    if bool_decide (remaining = O) && (1 <? len cur) then
      match find_recent (trail (solver st1)) cur with
      | Some recent_var => [recent_var]
      | None => cur
      end
    else cur in
  let learned1 :=
    match cur' with
    | lit :: _ => learned st1 ++ [lit]
    | [] => learned st1
    end in
  let s1 := decay_variable_activity (solver st1) in
  let s2 := if clause_deletion_threshold s1 <=? len (learned_clauses s1)
            then clean_learned_clauses s1 else s1 in
  let back_level :=
    compute_back_level (level s2) (decision_level s2) learned1 in
  let final_learned :=
    filter (λ lit, keep_literal (level s2) (decision_level s2) back_level lit
                   = true) learned1 in
  let final_learned := list_set final_learned in
  let final_learned :=
    if 20 <? len final_learned then minimize_clause final_learned
    else final_learned in
  Some ((back_level, final_learned), s2).

(** The five [return] statements of [solve], and the value each returns. *)
Inductive exit_site : Type :=
  | ExitEmptyClause
  | ExitConflictLevel0
  | ExitSatisfied
  | ExitNoDecision
  | ExitTimeLimit.

Definition returned_value (e : exit_site) : bool :=
  match e with
  | ExitSatisfied => true
  | ExitEmptyClause | ExitConflictLevel0 | ExitNoDecision | ExitTimeLimit =>
      false
  end.

(** The termination test of [solve]:
    [all(any((lit > 0 and a.get(abs(lit), False)) or
             (lit < 0 and not a.get(abs(lit), True)) for lit in clause)
         for clause in clauses)]. *)
Definition lit_satisfied (a : gmap Z bool) (lit : Z) : bool :=
  (0 <? lit) && default false (a !! Z.abs lit)
  || (lit <? 0) && negb (default true (a !! Z.abs lit)).

Definition all_satisfied (a : gmap Z bool) (clauses : list clause) : bool :=
  forallb (λ c, existsb (lit_satisfied a) c) clauses.

(** The main loop of [solve]. [deadline] is the number of times the loop
    condition [time.perf_counter() - start_time < time_limit] still holds.
    [if conflict:] tests the truth value of the returned clause: [None] and
    the empty list both take the [else] branch. *)
Fixpoint solve_loop (deadline : nat) (clauses : list clause) (s : CDCLSolver)
  : option (exit_site * CDCLSolver) :=
  match deadline with
  | O => Some (ExitTimeLimit, s)
  | S deadline' =>
      restart ← should_restart s;
      s1 ← (if restart : bool then perform_restart s else Some s);
      '(conflict, s2) ← unit_propagate (clauses ++ learned_clauses s1) s1;
      match conflict with
      | Some (lit :: c) =>
          if decision_level s2 =? 0 then Some (ExitConflictLevel0, s2)
          else
            '(lvl, learned_clause, s3) ← analyze_conflict (lit :: c) s2;
            s4 ← backtrack lvl s3;
            let s5 :=
              set_learned_clauses (learned_clauses s4 ++ [learned_clause]) s4 in
            let s6 :=
              set_clause_activity
                (<[len (learned_clauses s5) - 1 := 1.0%float]>
                   (clause_activity s5)) s5 in
            solve_loop deadline' clauses s6
      | Some [] | None =>
          if all_satisfied (assignment s2) clauses then Some (ExitSatisfied, s2)
          else
            let '(decided, s3) := make_decision s2 in
            if decided then solve_loop deadline' clauses s3
            else Some (ExitNoDecision, s3)
      end
  end.

(** [SATSolver.solve], started on the solver state [s]. *)
Definition solve (deadline : nat) (clauses : list clause) (s : CDCLSolver)
  : option (exit_site * CDCLSolver) :=
  let all_vars := Z.abs <$> concat clauses in
  let max_var := match all_vars with
                 | [] => 0
                 | v :: vs => foldl Z.max v vs
                 end in
  let s1 := initialize_activity (set_max_var max_var s) in
  if existsb (λ c, len c =? 0) clauses then Some (ExitEmptyClause, s1)
  else solve_loop deadline clauses s1.

End Driver.

(** ** The DIMACS reader [parse_cnf_file]

    The file is given as the list of its lines, as [for line in f] yields
    them; a character is an [ascii] (a code point below 256). *)

(** [str.isspace] on one character: the code points 9-13, 28-32, 133, 160. *)
Definition is_space (c : ascii) : bool :=
  let n := N_of_ascii c in
  ((9 <=? n) && (n <=? 13) || (28 <=? n) && (n <=? 32)
   || (n =? 133) || (n =? 160))%N.

(** [str.strip()] *)
Fixpoint lstrip (cs : list ascii) : list ascii :=
  match cs with
  | c :: cs' => if is_space c then lstrip cs' else cs
  | [] => []
  end.

Definition strip (cs : list ascii) : list ascii :=
  reverse (lstrip (reverse (lstrip cs))).

(** [str.split()]: the maximal runs of non-space characters. [cur] is the
    run being read, reversed. *)
Fixpoint split_go (cur : list ascii) (cs : list ascii) : list (list ascii) :=
  match cs with
  | [] => match cur with [] => [] | _ => [reverse cur] end
  | c :: cs' =>
      if is_space c then
        match cur with
        | [] => split_go [] cs'
        | _ => reverse cur :: split_go [] cs'
        end
      else split_go (c :: cur) cs'
  end.

Definition split (cs : list ascii) : list (list ascii) := split_go [] cs.

(** [int(x)] on a token without spaces: an optional sign, then decimal
    digits, single underscores allowed between digits. [None] is
    [ValueError]. *)
Definition digit_val (c : ascii) : option Z :=
  let n := N_of_ascii c in
  if ((48 <=? n) && (n <=? 57))%N then Some (Z.of_N n - 48) else None.

Fixpoint int_digits (acc : Z) (after_digit : bool) (cs : list ascii)
  : option Z :=
  match cs with
  | [] => if after_digit then Some acc else None
  | c :: cs' =>
      match digit_val c with
      | Some d => int_digits (10 * acc + d) true cs'
      | None =>
          if bool_decide (c = "_"%char) && after_digit
          then int_digits acc false cs'
          else None
      end
  end.

Definition py_int (tok : list ascii) : option Z :=
  match tok with
  | c :: cs =>
      if bool_decide (c = "+"%char) then int_digits 0 false cs
      else if bool_decide (c = "-"%char) then Z.opp <$> int_digits 0 false cs
      else int_digits 0 false tok
  | [] => None
  end.

Definition startswith (p : string) (cs : list ascii) : bool :=
  bool_decide (list_ascii_of_string p `prefix_of` cs).

(** The tokens of a clause line, the trailing ["0"] removed when present. *)
Definition clause_tokens (line : list ascii) : list (list ascii) :=
  let parts := split line in
  if bool_decide (last parts = Some (list_ascii_of_string "0"))
  then take (length parts - 1) parts
  else parts.

(** A line is read as a clause line when, stripped, it is not empty and
    starts neither with [p cnf] nor with [c]. *)
Definition is_clause_line (line : list ascii) : bool :=
  negb (startswith "p cnf" line) && negb (startswith "c" line)
  && negb (bool_decide (line = [])).

(** The body of the loop over the lines; the accumulator is
    [(clauses, num_vars)]. [None] is the [ValueError] of [int(n_vars)], which
    the outer handler prints and raises again. A [ValueError] in a clause
    line is caught and the line is skipped. *)
Definition parse_line (acc : list clause * Z) (raw : string)
  : option (list clause * Z) :=
  let line := strip (list_ascii_of_string raw) in
  if startswith "p cnf" line then
    let parts := split line in
    if 4 <=? len parts then
      n_vars ← parts !! 2%nat;
      num_vars ← py_int n_vars;
      Some (acc.1, num_vars)
    else Some acc
  else if is_clause_line line then
    match mapM py_int (clause_tokens line) with
    | Some [] => Some acc
    | Some c => Some (acc.1 ++ [c], acc.2)
    | None => Some acc
    end
  else Some acc.

Fixpoint parse_lines (acc : list clause * Z) (lines : list string)
  : option (list clause * Z) :=
  match lines with
  | [] => Some acc
  | raw :: rest => acc' ← parse_line acc raw; parse_lines acc' rest
  end.

(** [parse_cnf_file] *)
Definition parse_cnf_file (lines : list string) : option (list clause * Z) :=
  parse_lines ([], 0) lines.

(** A clause line is malformed when one of its tokens is not an integer. *)
Definition malformed_clause_line (raw : string) : Prop :=
  let line := strip (list_ascii_of_string raw) in
  is_clause_line line = true ∧ mapM py_int (clause_tokens line) = None.

(** What [solve_from_folder_] does with one file, up to the result of
    [solve]: a fresh solver, the parse, the solve. [FileError] is the
    [except Exception] branch; the later check of the measured time is left
    out. *)
Inductive file_result : Type :=
  | FileSolved (is_sat : bool)
  | FileError.

Definition solve_file (list_set : list Z → list Z) (deadline : nat)
    (lines : list string) : file_result :=
  match parse_cnf_file lines with
  | None => FileError
  | Some (clauses, _) =>
      match solve list_set deadline clauses CDCLSolver_init with
      | Some (e, _) => FileSolved (returned_value e)
      | None => FileError
      end
  end.

(** ** The Luby sequence as the specification defines it

    [t_k = 2^(i-1)] if [k = 2^i - 1], else [t_k = t_(k - 2^(i-1) + 1)] where
    [2^(i-1) <= k < 2^i - 1]. For [k >= 1] the index [i] is the bit length of
    [k]. *)
Fixpoint luby_spec_go (fuel : nat) (k : Z) : Z :=
  match fuel with
  | O => 1
  | S fuel' =>
      let i := Z.log2 k + 1 in
      if k =? 2 ^ i - 1 then 2 ^ (i - 1)
      else luby_spec_go fuel' (k - 2 ^ (i - 1) + 1)
  end.

Definition luby_spec (k : Z) : Z := luby_spec_go (Z.to_nat k) k.

(** The value appended by the [k]-th call of [next_luby] on a fresh solver. *)
Fixpoint luby_after (k : nat) : option (list Z) :=
  match k with
  | O => Some (luby_sequence CDCLSolver_init)
  | S k' => luby ← luby_after k'; next_luby_seq luby
  end.

Definition kth_appended (k : nat) : option Z :=
  luby ← luby_after k; py_index luby (-1).

(** ** Predicates used in the statements *)

(** The number of occurrences of unassigned literals in a clause: the length
    of [unassigned_lits] in [unit_propagate]. *)
Definition unassigned_count (a : gmap Z bool) (c : clause) : nat :=
  length (filter (lit_unassigned a) c).

(** The fixed point reached by unit propagation. *)
Definition propagation_fixed_point (a : gmap Z bool) (clauses : list clause)
  : Prop :=
  Forall (λ c, clause_satisfied a c ∨ (2 ≤ unassigned_count a c)%nat) clauses.

(** The trail, [assignment] and [level] speak of the same variables,
    [antecedent] of some of them, and the trail has no repetition. *)
Definition mutual_domain (s : CDCLSolver) : Prop :=
  list_to_set (trail s) = dom (assignment s)
  ∧ dom (level s) = dom (assignment s)
  ∧ dom (antecedent s) ⊆ dom (assignment s)
  ∧ NoDup (trail s).

(** [v] is not assigned at a higher level than [w]. *)
Definition level_le (lev : gmap Z Z) (v w : Z) : Prop :=
  ∃ lv lw, lev !! v = Some lv ∧ lev !! w = Some lw ∧ lv ≤ lw.

(** Levels do not decrease along the trail (read here from its end), and
    none exceeds the current decision level. *)
Definition trail_sorted (s : CDCLSolver) : Prop :=
  StronglySorted (λ later earlier, level_le (level s) earlier later)
    (reverse (trail s)).

Definition levels_bounded (s : CDCLSolver) : Prop :=
  ∀ v l, level s !! v = Some l → l ≤ decision_level s.

Definition solver_inv (s : CDCLSolver) : Prop :=
  mutual_domain s ∧ trail_sorted s ∧ levels_bounded s.

(** One operation on the solver state, as the driver performs them: the
    methods of [CDCLSolver] and the three attribute updates made by [solve]
    itself. *)
Inductive step : CDCLSolver → CDCLSolver → Prop :=
  | step_unit_propagate clauses s r s' :
      unit_propagate clauses s = Some (r, s') → step s s'
  | step_make_decision s decided s' :
      make_decision s = (decided, s') → step s s'
  | step_backtrack lvl s s' :
      backtrack lvl s = Some s' → step s s'
  | step_perform_restart s s' :
      perform_restart s = Some s' → step s s'
  | step_analyze_conflict list_set c s r s' :
      analyze_conflict list_set c s = Some (r, s') → step s s'
  | step_initialize_activity s :
      step s (initialize_activity s)
  | step_set_max_var n s :
      step s (set_max_var n s)
  | step_learn c s :
      let s1 := set_learned_clauses (learned_clauses s ++ [c]) s in
      step s
        (set_clause_activity
           (<[len (learned_clauses s1) - 1 := 1.0%float]> (clause_activity s1))
           s1).

Definition reachable (s : CDCLSolver) : Prop := rtc step CDCLSolver_init s.

(** The value that [solve] hands to its caller: [Some b] when it returns
    [b], [None] when it raises. *)
Definition solve_value (list_set : list Z → list Z) (deadline : nat)
    (clauses : list clause) (s : CDCLSolver) : option bool :=
  returned_value ∘ fst <$> solve list_set deadline clauses s.

(** The largest level strictly below [dl] among the variables of [lits], 0
    when there is none. *)
Definition max_level_below (lev : gmap Z Z) (dl : Z) (lits : list Z) : Z :=
  foldr Z.max 0
    (filter (λ l, l < dl) (omap (λ lit, lev !! Z.abs lit) lits)).

(** The largest level among the literals of [lits] other than [uip], 0 when
    there is none. *)
Definition max_level_except (lev : gmap Z Z) (uip : Z) (lits : list Z) : Z :=
  foldr Z.max 0
    (omap (λ lit, lev !! Z.abs lit) (filter (λ lit, lit ≠ uip) lits)).

(** The literals of [lits] assigned at level [dl]. *)
Definition at_level (lev : gmap Z Z) (dl : Z) (lits : list Z) : list Z :=
  filter (λ lit, lev !! Z.abs lit = Some dl) lits.

(** The run of the driver on the clauses [[1, 2], [1, -2]] up to its first
    conflict: initialisation, a propagation that finds nothing, one decision,
    the propagation that meets the conflict. *)
Definition two_clauses : list clause := [[1; 2]; [1; -2]].

Definition first_conflict : option (clause * CDCLSolver) :=
  let s0 := initialize_activity (set_max_var 2 CDCLSolver_init) in
  '(_, s1) ← unit_propagate (two_clauses ++ learned_clauses s0) s0;
  let '(_, s2) := make_decision s1 in
  '(conflict, s3) ← unit_propagate (two_clauses ++ learned_clauses s2) s2;
  c ← conflict;
  Some (c, s3).

(** The analysis of that conflict, with [list(set(l))] keeping the last
    occurrence of each literal. *)
Definition first_analysis : option ((Z * clause) * CDCLSolver) :=
  '(c, s) ← first_conflict; analyze_conflict remove_dups c s.

(** The run of the driver on the clauses [[1, 2, 3], [1, 2, -3]] up to its
    first conflict: initialisation, a propagation that finds nothing, the
    decision of variable 1, a second propagation that finds nothing, the
    decision of variable 2, and the propagation that assigns variable 3 and
    meets the conflict at decision level 2. *)
Definition three_clauses : list clause := [[1; 2; 3]; [1; 2; -3]].

Definition second_level_conflict : option (clause * CDCLSolver) :=
  let s0 := initialize_activity (set_max_var 3 CDCLSolver_init) in
  '(_, s1) ← unit_propagate (three_clauses ++ learned_clauses s0) s0;
  let '(_, s2) := make_decision s1 in
  '(_, s3) ← unit_propagate (three_clauses ++ learned_clauses s2) s2;
  let '(_, s4) := make_decision s3 in
  '(conflict, s5) ← unit_propagate (three_clauses ++ learned_clauses s4) s4;
  c ← conflict;
  Some (c, s5).

Definition second_level_analysis : option ((Z * clause) * CDCLSolver) :=
  '(c, s) ← second_level_conflict; analyze_conflict remove_dups c s.

(** The run of the driver on the single clause [[1, 1]] up to its first
    conflict: the clause has two unassigned literals, so the propagation
    leaves it alone; the decision makes variable 1 false at level 1 and the
    next propagation finds the clause falsified. *)
Definition repeated_literal : list clause := [[1; 1]].

Definition repeated_literal_conflict : option (clause * CDCLSolver) :=
  let s0 := initialize_activity (set_max_var 1 CDCLSolver_init) in
  '(_, s1) ← unit_propagate (repeated_literal ++ learned_clauses s0) s0;
  let '(_, s2) := make_decision s1 in
  '(conflict, s3) ← unit_propagate (repeated_literal ++ learned_clauses s2) s2;
  c ← conflict;
  Some (c, s3).

Definition repeated_literal_analysis : option ((Z * clause) * CDCLSolver) :=
  '(c, s) ← repeated_literal_conflict; analyze_conflict remove_dups c s.

(** What the driver does with the result of an analysis: backtrack, record
    the learned clause and its activity. *)
Definition learn_clause (lvl : Z) (c : clause) (s : CDCLSolver)
  : option CDCLSolver :=
  s1 ← backtrack lvl s;
  let s2 := set_learned_clauses (learned_clauses s1 ++ [c]) s1 in
  Some (set_clause_activity
          (<[len (learned_clauses s2) - 1 := 1.0%float]> (clause_activity s2))
          s2).

(** A state with one decision on the trail. *)
Definition one_decision : CDCLSolver :=
  (make_decision (initialize_activity (set_max_var 2 CDCLSolver_init))).2.

(** Two states with the same assignment, levels, antecedents, trail and
    decision level: what the activity bookkeeping leaves alone. *)
Definition same_core (s s' : CDCLSolver) : Prop :=
  assignment s' = assignment s ∧ level s' = level s
  ∧ antecedent s' = antecedent s ∧ trail s' = trail s
  ∧ decision_level s' = decision_level s.

(** The measure that decreases with every unit assignment: the occurrences
    of unassigned literals in the clause list. *)
Definition open_literals (a : gmap Z bool) (clauses : list clause) : nat :=
  length (filter (lit_unassigned a) (concat clauses)).

(** ** Further predicates: frames, models, one round of the driver *)

(** The attributes that only [solve] and [perform_restart] write. *)
Definition same_config (s s' : CDCLSolver) : Prop :=
  max_var s' = max_var s ∧ luby_sequence s' = luby_sequence s
  ∧ luby_base s' = luby_base s ∧ restarts s' = restarts s
  ∧ clause_deletion_threshold s' = clause_deletion_threshold s.

(** Two states that differ at most in the activities (of variables and of
    clauses) and in [bump_value]. *)
Definition only_activity (s s' : CDCLSolver) : Prop :=
  same_core s s' ∧ same_config s s'
  ∧ learned_clauses s' = learned_clauses s
  ∧ conflicts s' = conflicts s
  ∧ saved_phases s' = saved_phases s.

(** A total assignment of truth values, and what it satisfies. A literal 0
    is true under no assignment, as in the tests of the source. *)
Definition model : Type := Z → bool.

Definition model_satisfies (M : model) (c : clause) : Prop :=
  Exists (λ lit, lit_holds lit (M (Z.abs lit)) = true) c.

Definition satisfiable (clauses : list clause) : Prop :=
  ∃ M : model, Forall (model_satisfies M) clauses.

(** [c0] is a part of [c]: every literal of [c0] occurs in [c]. *)
Definition subclause (c0 c : clause) : Prop := ∀ lit, lit ∈ c0 → lit ∈ c.

(** Every learned clause contains all the literals of some clause of
    [clauses]. *)
Definition learned_subsumed (clauses : list clause) (s : CDCLSolver) : Prop :=
  ∀ c, c ∈ learned_clauses s → ∃ c0, c0 ∈ clauses ∧ subclause c0 c.

(** For every variable with an antecedent, the variables of the antecedent
    clause are assigned, none at a higher level than the variable itself. *)
Definition antecedents_assigned (s : CDCLSolver) : Prop :=
  ∀ w c lit, antecedent s !! w = Some c → lit ∈ c →
    level_le (level s) (Z.abs lit) w.

(** Levels are not negative. *)
Definition levels_nonneg (s : CDCLSolver) : Prop :=
  0 ≤ decision_level s ∧ ∀ v l, level s !! v = Some l → 0 ≤ l.

(** The variables assigned at level 0 have the value that every model of
    [clauses] gives them. *)
Definition level0_forced (clauses : list clause) (s : CDCLSolver) : Prop :=
  ∀ M : model, Forall (model_satisfies M) clauses →
    ∀ v, level s !! v = Some 0 → assignment s !! v = Some (M v).

(** No literal is 0. *)
Definition zero_free (clauses : list clause) : Prop :=
  Forall (Forall (λ lit, lit ≠ 0)) clauses.

(** One round of the loop of [solve]: it leaves the loop through one of the
    [return] statements or goes on with a new state. *)
Inductive round_result : Type :=
  | RoundExit (e : exit_site) (s : CDCLSolver)
  | RoundNext (s : CDCLSolver).

Definition round (list_set : list Z → list Z) (clauses : list clause)
    (s : CDCLSolver) : option round_result :=
  restart ← should_restart s;
  s1 ← (if restart : bool then perform_restart s else Some s);
  '(conflict, s2) ← unit_propagate (clauses ++ learned_clauses s1) s1;
  match conflict with
  | Some (lit :: c) =>
      if decision_level s2 =? 0 then Some (RoundExit ExitConflictLevel0 s2)
      else
        '(lvl, learned_clause, s3) ← analyze_conflict list_set (lit :: c) s2;
        s4 ← learn_clause lvl learned_clause s3;
        Some (RoundNext s4)
  | Some [] | None =>
      if all_satisfied (assignment s2) clauses
      then Some (RoundExit ExitSatisfied s2)
      else
        let '(decided, s3) := make_decision s2 in
        if decided then Some (RoundNext s3)
        else Some (RoundExit ExitNoDecision s3)
  end.

(** The state in which [solve] enters its loop. *)
Definition solve_start (clauses : list clause) (s : CDCLSolver) : CDCLSolver :=
  let all_vars := Z.abs <$> concat clauses in
  let max_var := match all_vars with
                 | [] => 0
                 | v :: vs => foldl Z.max v vs
                 end in
  initialize_activity (set_max_var max_var s).

(** A problem line on which [int(n_vars)] raises: it starts with [p cnf],
    has at least four fields, and its third field is not an integer. *)
Definition bad_problem_line (raw : string) : Prop :=
  let line := strip (list_ascii_of_string raw) in
  startswith "p cnf" line = true
  ∧ 4 ≤ len (split line)
  ∧ (split line !! 2%nat) ≫= py_int = None.

(** A line that the reader passes over: a comment or a blank line. *)
Definition comment_or_blank (raw : string) : Prop :=
  let line := strip (list_ascii_of_string raw) in
  startswith "c" line = true ∨ line = [].

(** The variables left unassigned among [1 .. max_var], as [make_decision]
    lists them. *)
Definition unassigned_vars (s : CDCLSolver) : list Z :=
  filter (λ var, assignment s !! var = None) (seqZ 1 (max_var s)).

(** What the driver keeps true of the solver state between two operations,
    besides [solver_inv]. *)
Definition driver_inv (s : CDCLSolver) : Prop :=
  solver_inv s ∧ antecedents_assigned s ∧ levels_nonneg s
  ∧ luby_sequence s ≠ [].

(** [c] holds in every model of [clauses]. *)
Definition implied_by (clauses : list clause) (c : clause) : Prop :=
  ∀ M : model, Forall (model_satisfies M) clauses → model_satisfies M c.

(** Every assigned variable has a level. *)
Definition levels_known (s : CDCLSolver) : Prop :=
  ∀ v, is_Some (assignment s !! v) → is_Some (level s !! v).

(** What the driver keeps true with respect to the clauses it was given:
    the invariant of the state, every learned clause contains a given
    clause, the assignments of level 0 hold in every model of the given
    clauses, and [max_var] bounds their variables. *)
Definition sound_inv (clauses : list clause) (s : CDCLSolver) : Prop :=
  driver_inv s ∧ learned_subsumed clauses s ∧ level0_forced clauses s
  ∧ ∀ c lit, c ∈ clauses → lit ∈ c → Z.abs lit ≤ max_var s.

(** Where a literal of a learned clause can come from: the conflict clause
    or the antecedent of an assigned variable. *)
Definition from_conflict_or_antecedent (s : CDCLSolver) (c : clause)
    (lit : Z) : Prop :=
  lit ∈ c ∨ ∃ w ante, antecedent s !! w = Some ante ∧ lit ∈ ante.

(** During the analysis every literal of [learned] and of
    [current_level_literals] comes from the conflict clause or from an
    antecedent. *)
Definition analysis_sourced (s : CDCLSolver) (c : clause) (st : analysis)
  : Prop :=
  (∀ lit, lit ∈ learned st → from_conflict_or_antecedent s c lit)
  ∧ (∀ lit, lit ∈ current_level_literals st →
            from_conflict_or_antecedent s c lit).

(** ** [SATSolver.solve_with_debug]

    The loop of [solve] without the time limit, with the lookups that its
    [print] calls make: [self.cdcl_solver.assignment[var]] for the variables
    that the propagation has just put on the trail, and
    [self.cdcl_solver.assignment[self.cdcl_solver.trail[-1]]] after a
    decision. The outer [None] is a raised exception; the inner [None] says
    that the loop, which has no bound of its own, is still running when
    [rounds] rounds are over. *)
Fixpoint solve_with_debug_loop (list_set : list Z → list Z) (rounds : nat)
    (clauses : list clause) (s : CDCLSolver)
  : option (option bool * CDCLSolver) :=
  match rounds with
  | O => Some (None, s)
  | S rounds' =>
      restart ← should_restart s;
      s1 ← (if restart : bool then perform_restart s else Some s);
      let trail_before := length (trail s1) in
      '(conflict, s2) ← unit_propagate (clauses ++ learned_clauses s1) s1;
      _ ← mapM (λ var, assignment s2 !! var) (drop trail_before (trail s2));
      match conflict with
      | Some (lit :: c) =>
          if decision_level s2 =? 0 then Some (Some false, s2)
          else
            '(lvl, learned_clause, s3) ← analyze_conflict list_set (lit :: c) s2;
            s4 ← backtrack lvl s3;
            let s5 :=
              set_learned_clauses (learned_clauses s4 ++ [learned_clause]) s4 in
            let s6 :=
              set_clause_activity
                (<[len (learned_clauses s5) - 1 := 1.0%float]>
                   (clause_activity s5)) s5 in
            solve_with_debug_loop list_set rounds' clauses s6
      | Some [] | None =>
          if all_satisfied (assignment s2) clauses then Some (Some true, s2)
          else
            let '(decided, s3) := make_decision s2 in
            if decided then
              var ← py_index (trail s3) (-1);
              _ ← assignment s3 !! var;
              solve_with_debug_loop list_set rounds' clauses s3
            else Some (Some false, s3)
      end
  end.

Definition solve_with_debug (list_set : list Z → list Z) (rounds : nat)
    (clauses : list clause) (s : CDCLSolver)
  : option (option bool * CDCLSolver) :=
  let s1 := solve_start clauses s in
  if existsb (λ c, len c =? 0) clauses then Some (Some false, s1)
  else solve_with_debug_loop list_set rounds clauses s1.

(** * Properties *)

(** ** The activity bookkeeping preserves the core of the state *)

Lemma same_core_refl s : same_core s s.
Proof. by repeat split. Qed.

Lemma same_core_trans s1 s2 s3 :
  same_core s1 s2 → same_core s2 s3 → same_core s1 s3.
Proof.
  intros (?&?&?&?&?) (?&?&?&?&?). repeat split; congruence.
Qed.

Lemma bump_variable_activity_core var s :
  same_core s (bump_variable_activity var s).
Proof.
  unfold bump_variable_activity.
  destruct (PrimFloat.ltb _ _); by repeat split.
Qed.

Lemma decay_variable_activity_core s : same_core s (decay_variable_activity s).
Proof. by repeat split. Qed.

Lemma bump_clause_activity_core i s : same_core s (bump_clause_activity i s).
Proof. by repeat split. Qed.

Lemma decay_clause_activity_core s : same_core s (decay_clause_activity s).
Proof. by repeat split. Qed.

Lemma clean_learned_clauses_core s : same_core s (clean_learned_clauses s).
Proof.
  unfold clean_learned_clauses. destruct (_ <=? _); by repeat split.
Qed.

Lemma bump_all_core (c : clause) s :
  same_core s (foldl (λ st lit, bump_variable_activity (Z.abs lit) st) s c).
Proof.
  revert s. induction c as [|lit c IH]; intros s; simpl.
  - apply same_core_refl.
  - eapply same_core_trans; [apply bump_variable_activity_core | apply IH].
Qed.

Lemma conflict_found_core n i c s : same_core s (conflict_found n i c s).
Proof.
  unfold conflict_found.
  eapply same_core_trans; [|apply decay_clause_activity_core].
  eapply same_core_trans; [|apply decay_variable_activity_core].
  set (s2 := foldl _ _ c).
  assert (same_core s s2) as Hs2.
  { eapply same_core_trans; [|apply bump_all_core]. by repeat split. }
  destruct (_ <=? _); [|done].
  eapply same_core_trans; [exact Hs2 | apply bump_clause_activity_core].
Qed.

Lemma initialize_activity_core s : same_core s (initialize_activity s).
Proof. by repeat split. Qed.

(** ** Unit propagation *)

Lemma lit_status a lit :
  lit_true a lit ∨ lit_false a lit ∨ lit_unassigned a lit.
Proof.
  unfold lit_true, lit_false, lit_unassigned.
  destruct (a !! Z.abs lit) as [val|] eqn:Ha; [|by right; right].
  destruct (lit_holds lit val) eqn:Hh; [left | right; left]; eauto.
Qed.

Lemma lit_false_not_unassigned a lit : lit_false a lit → ¬ lit_unassigned a lit.
Proof. intros (val & Hval & _) Hun. unfold lit_unassigned in Hun. congruence. Qed.

(** What the scan of one clause returns. *)
Lemma scan_clause_None a c : scan_clause a c = None → clause_satisfied a c.
Proof.
  induction c as [|lit c IH]; simpl; [done|].
  destruct (a !! Z.abs lit) as [val|] eqn:Ha.
  - destruct (lit_holds lit val) eqn:Hh.
    + intros _. apply Exists_cons_hd. exists val. by split.
    + intros H. apply Exists_cons_tl. by apply IH.
  - destruct (scan_clause a c); simpl; [done|].
    intros _. apply Exists_cons_tl. by apply IH.
Qed.

Lemma scan_clause_Some a c u :
  scan_clause a c = Some u →
  u = filter (lit_unassigned a) c
  ∧ Forall (λ lit, lit_false a lit ∨ lit_unassigned a lit) c.
Proof.
  revert u. induction c as [|lit c IH]; intros u; cbn [scan_clause].
  - intros [= <-]. by split.
  - destruct (a !! Z.abs lit) as [val|] eqn:Ha.
    + destruct (lit_holds lit val) eqn:Hh; [done|].
      intros Hu. destruct (IH _ Hu) as [-> Hall]. split.
      * rewrite filter_cons_False; [done|].
        unfold lit_unassigned. congruence.
      * constructor; [left; by exists val | done].
    + destruct (scan_clause a c) as [u'|]; simpl; [|done].
      intros [= <-]. destruct (IH _ eq_refl) as [-> Hall]. split.
      * by rewrite filter_cons_True.
      * constructor; [by right | done].
Qed.

Lemma scan_clause_conflict a c :
  scan_clause a c = Some [] → Forall (lit_false a) c.
Proof.
  intros H. destruct (scan_clause_Some _ _ _ H) as [Hu Hall].
  apply Forall_forall. intros lit Hlit.
  rewrite Forall_forall in Hall. destruct (Hall _ Hlit) as [?|Hun]; [done|].
  assert (lit ∈ filter (lit_unassigned a) c) as Hin
    by (apply list_elem_of_filter; done).
  rewrite <- Hu in Hin. by apply elem_of_nil in Hin.
Qed.

Lemma scan_clause_unit a c lit :
  scan_clause a c = Some [lit] → lit ∈ c ∧ lit_unassigned a lit.
Proof.
  intros H. destruct (scan_clause_Some _ _ _ H) as [Hu _].
  assert (lit ∈ filter (lit_unassigned a) c) as Hin
    by (rewrite <- Hu; apply list_elem_of_here).
  apply list_elem_of_filter in Hin. tauto.
Qed.

(** What a sweep over the clauses returns. *)
Lemma sweep_conflict a i clauses idx c :
  sweep a i clauses = SweepConflict idx c →
  c ∈ clauses ∧ Forall (lit_false a) c.
Proof.
  revert i. induction clauses as [|c0 rest IH]; intros i; simpl; [done|].
  destruct (scan_clause a c0) as [[|l1 [|l2 u]]|] eqn:Hscan.
  - intros [= <- <-]. split; [apply list_elem_of_here|].
    by apply scan_clause_conflict.
  - done.
  - intros H. destruct (IH _ H). split; [by apply list_elem_of_further | done].
  - intros H. destruct (IH _ H). split; [by apply list_elem_of_further | done].
Qed.

Lemma sweep_unit a i clauses lit c :
  sweep a i clauses = SweepUnit lit c →
  c ∈ clauses ∧ lit ∈ c ∧ lit_unassigned a lit.
Proof.
  revert i. induction clauses as [|c0 rest IH]; intros i; simpl; [done|].
  destruct (scan_clause a c0) as [[|l1 [|l2 u]]|] eqn:Hscan.
  - done.
  - intros [= <- <-]. split; [apply list_elem_of_here|].
    by apply scan_clause_unit.
  - intros H. destruct (IH _ H). split; [by apply list_elem_of_further | done].
  - intros H. destruct (IH _ H). split; [by apply list_elem_of_further | done].
Qed.

Lemma sweep_done a i clauses :
  sweep a i clauses = SweepDone → propagation_fixed_point a clauses.
Proof.
  revert i. induction clauses as [|c0 rest IH]; intros i; simpl.
  - intros _. constructor.
  - destruct (scan_clause a c0) as [[|l1 [|l2 u]]|] eqn:Hscan; try done.
    + intros H. constructor; [|by eapply IH].
      right. unfold unassigned_count.
      destruct (scan_clause_Some _ _ _ Hscan) as [<- _]. simpl. lia.
    + intros H. constructor; [|by eapply IH].
      left. by apply scan_clause_None.
Qed.

Lemma open_literals_bound a clauses :
  (open_literals a clauses ≤ length (concat clauses))%nat.
Proof. apply length_filter. Qed.

Lemma filter_unassigned_insert (a : gmap Z bool) var val (l : list Z) :
  (length (filter (lit_unassigned (<[var := val]> a)) l)
   ≤ length (filter (lit_unassigned a) l))%nat.
Proof.
  induction l as [|x l IH]; [done|].
  destruct (decide (lit_unassigned (<[var := val]> a) x)) as [Hx|Hx].
  - rewrite filter_cons_True by done.
    assert (lit_unassigned a x) as Hx'.
    { unfold lit_unassigned in *.
      destruct (decide (var = Z.abs x)) as [->|Hne].
      - by rewrite lookup_insert_eq in Hx.
      - by rewrite lookup_insert_ne in Hx. }
    rewrite filter_cons_True by done. simpl. lia.
  - rewrite filter_cons_False by done.
    destruct (decide (lit_unassigned a x)).
    + rewrite filter_cons_True by done. simpl. lia.
    + by rewrite filter_cons_False.
Qed.

Lemma filter_unassigned_insert_lt (a : gmap Z bool) lit val (l : list Z) :
  lit ∈ l → lit_unassigned a lit →
  (length (filter (lit_unassigned (<[Z.abs lit := val]> a)) l)
   < length (filter (lit_unassigned a) l))%nat.
Proof.
  intros Hin Hun. induction l as [|x l IH]; [by apply elem_of_nil in Hin|].
  apply elem_of_cons in Hin as [<-|Hin].
  - rewrite (filter_cons_True (lit_unassigned a)) by done.
    rewrite filter_cons_False.
    + pose proof (filter_unassigned_insert a (Z.abs lit) val l). simpl. lia.
    + unfold lit_unassigned. by rewrite lookup_insert_eq.
  - specialize (IH Hin).
    destruct (decide (lit_unassigned (<[Z.abs lit := val]> a) x)) as [Hx|Hx].
    + rewrite filter_cons_True by done.
      assert (lit_unassigned a x) as Hx'.
      { unfold lit_unassigned in *.
        destruct (decide (Z.abs lit = Z.abs x)) as [Heq|Hne].
        - by rewrite Heq, lookup_insert_eq in Hx.
        - by rewrite lookup_insert_ne in Hx. }
      rewrite filter_cons_True by done. simpl. lia.
    + rewrite filter_cons_False by done.
      destruct (decide (lit_unassigned a x)).
      * rewrite filter_cons_True by done. simpl. lia.
      * by rewrite filter_cons_False.
Qed.

Lemma assign_unit_assignment lit c s :
  assignment (assign_unit lit c s) = <[Z.abs lit := 0 <? lit]> (assignment s).
Proof.
  unfold assign_unit.
  destruct (bump_variable_activity_core (Z.abs lit)
    (set_trail (trail s ++ [Z.abs lit])
       (set_antecedent (<[Z.abs lit := c]> (antecedent s))
          (set_level (<[Z.abs lit := decision_level s]> (level s))
             (set_saved_phases (<[Z.abs lit := 0 <? lit]> (saved_phases s))
                (set_assignment (<[Z.abs lit := 0 <? lit]> (assignment s)) s))))))
    as (Ha & _).
  exact Ha.
Qed.

Lemma open_literals_assign_unit lit c clauses s :
  c ∈ clauses → lit ∈ c → lit_unassigned (assignment s) lit →
  (open_literals (assignment (assign_unit lit c s)) clauses
   < open_literals (assignment s) clauses)%nat.
Proof.
  intros Hc Hlit Hun. rewrite assign_unit_assignment.
  apply filter_unassigned_insert_lt; [|done].
  apply list_elem_of_In, in_concat. exists c.
  split; by apply list_elem_of_In.
Qed.

(** The loop returns whenever the fuel covers the open literals, and its
    result is a falsified clause or a fixed point. *)
Lemma unit_propagate_loop_spec fuel clauses s :
  (open_literals (assignment s) clauses ≤ fuel)%nat →
  ∃ r s', unit_propagate_loop fuel clauses s = Some (r, s')
    ∧ match r with
      | Some c => c ∈ clauses ∧ Forall (lit_false (assignment s')) c
      | None => propagation_fixed_point (assignment s') clauses
      end.
Proof.
  revert s. induction fuel as [|fuel IH]; intros s Hfuel; simpl.
  - destruct (sweep (assignment s) 0 clauses) as [idx c|lit c|] eqn:Hsweep.
    + exists (Some c), (conflict_found (len clauses) idx c s). split; [done|].
      destruct (conflict_found_core (len clauses) idx c s) as (-> & _).
      by eapply sweep_conflict.
    + apply sweep_unit in Hsweep as (Hc & Hlit & Hun).
      pose proof (open_literals_assign_unit lit c clauses s Hc Hlit Hun). lia.
    + exists None, s. split; [done|]. by eapply sweep_done.
  - destruct (sweep (assignment s) 0 clauses) as [idx c|lit c|] eqn:Hsweep.
    + exists (Some c), (conflict_found (len clauses) idx c s). split; [done|].
      destruct (conflict_found_core (len clauses) idx c s) as (-> & _).
      by eapply sweep_conflict.
    + apply sweep_unit in Hsweep as (Hc & Hlit & Hun).
      apply IH.
      pose proof (open_literals_assign_unit lit c clauses s Hc Hlit Hun). lia.
    + exists None, s. split; [done|]. by eapply sweep_done.
Qed.

(** [unit_propagate] always returns. *)
Lemma unit_propagate_total clauses s : is_Some (unit_propagate clauses s).
Proof.
  destruct (unit_propagate_loop_spec (length (concat clauses)) clauses s)
    as (r & s' & H & _); [apply open_literals_bound|].
  unfold unit_propagate. rewrite H. eauto.
Qed.

(** C4. [unit_propagate] returns; when it returns a clause, that clause is
    one of the given clauses and each of its literals is false under the
    assignment at return; when it returns [None], every clause is satisfied
    or has at least two unassigned literals. *)
Theorem unit_propagate_conflict_or_fixed_point clauses s :
  ∃ r s', unit_propagate clauses s = Some (r, s')
    ∧ match r with
      | Some c => c ∈ clauses ∧ Forall (lit_false (assignment s')) c
      | None => propagation_fixed_point (assignment s') clauses
      end.
Proof.
  apply unit_propagate_loop_spec, open_literals_bound.
Qed.

(** ** The invariant of the solver state *)

(** The domain invariant, variable by variable. *)
Lemma mutual_domain_alt s :
  mutual_domain s ↔
  (∀ v, v ∈ trail s ↔ is_Some (assignment s !! v))
  ∧ (∀ v, is_Some (level s !! v) ↔ is_Some (assignment s !! v))
  ∧ (∀ v, is_Some (antecedent s !! v) → is_Some (assignment s !! v))
  ∧ NoDup (trail s).
Proof.
  unfold mutual_domain. split.
  - intros (Ht & Hl & Ha & Hn). repeat split; try done.
    + intros Hv. apply elem_of_dom. rewrite <- Ht. by apply elem_of_list_to_set.
    + intros Hv. apply elem_of_dom in Hv. rewrite <- Ht in Hv.
      by apply elem_of_list_to_set in Hv.
    + intros Hv. apply elem_of_dom. rewrite <- Hl. by apply elem_of_dom.
    + intros Hv. apply elem_of_dom. rewrite Hl. by apply elem_of_dom.
    + intros v Hv. apply elem_of_dom, Ha. by apply elem_of_dom.
  - intros (Ht & Hl & Ha & Hn). repeat split; try done.
    + apply set_eq. intros v. rewrite elem_of_list_to_set, elem_of_dom. apply Ht.
    + apply set_eq. intros v. rewrite !elem_of_dom. apply Hl.
    + intros v. rewrite !elem_of_dom. apply Ha.
Qed.

Lemma StronglySorted_weaken {A} (R R' : A → A → Prop) (l : list A) :
  (∀ x y, x ∈ l → y ∈ l → R x y → R' x y) →
  StronglySorted R l → StronglySorted R' l.
Proof.
  intros Himp Hs. induction Hs as [|x l Hs IH Hall]; constructor.
  - apply IH. intros y z Hy Hz. apply Himp; by apply list_elem_of_further.
  - apply Forall_forall. intros y Hy. rewrite Forall_forall in Hall.
    apply Himp; [apply list_elem_of_here | by apply list_elem_of_further | auto].
Qed.

Lemma same_core_inv s s' : same_core s s' → solver_inv s → solver_inv s'.
Proof.
  intros (Ha & Hl & Hant & Ht & Hd) (Hm & Hs & Hb).
  unfold solver_inv, mutual_domain, trail_sorted, levels_bounded.
  rewrite Ha, Hl, Hant, Ht, Hd. done.
Qed.

Lemma solver_inv_init : solver_inv CDCLSolver_init.
Proof.
  repeat split; simpl; try done.
  - constructor.
  - constructor.
Qed.

(** Appending a fresh variable to the trail, by a decision or by a unit
    propagation. *)
Lemma push_inv s s' var val l :
  solver_inv s →
  assignment s !! var = None →
  assignment s' = <[var := val]> (assignment s) →
  level s' = <[var := l]> (level s) →
  (antecedent s' = antecedent s
   ∨ ∃ c, antecedent s' = <[var := c]> (antecedent s)) →
  trail s' = trail s ++ [var] →
  decision_level s ≤ l → l ≤ decision_level s' →
  solver_inv s'.
Proof.
  intros (Hm & Hs & Hb) Hfresh Ha Hl Hant Ht Hdl Hdl'.
  apply mutual_domain_alt in Hm as (Hmt & Hml & Hma & Hnd).
  assert (var ∉ trail s) as Hnotin.
  { intros Hin. apply Hmt in Hin. rewrite Hfresh in Hin. by destruct Hin. }
  assert (level s !! var = None) as Hlfresh.
  { apply eq_None_not_Some. intros H. apply Hml in H.
    rewrite Hfresh in H. by destruct H. }
  split; [|split].
  - apply mutual_domain_alt. rewrite Ha, Hl, Ht. repeat split.
    + rewrite elem_of_app, list_elem_of_singleton, lookup_insert_is_Some.
      intros [Hv| ->]; [|by left].
      destruct (decide (var = v)); [by left | right]. split; [done|].
      by apply Hmt.
    + rewrite elem_of_app, list_elem_of_singleton, lookup_insert_is_Some.
      intros [->|[_ Hv]]; [by right | left]. by apply Hmt.
    + rewrite !lookup_insert_is_Some.
      intros [->|[Hne Hv]]; [by left | right]. split; [done|]. by apply Hml.
    + rewrite !lookup_insert_is_Some.
      intros [->|[Hne Hv]]; [by left | right]. split; [done|]. by apply Hml.
    + intros v Hv. rewrite lookup_insert_is_Some.
      destruct (decide (var = v)) as [->|Hne]; [by left | right].
      split; [done|]. apply Hma.
      destruct Hant as [Hant|[c Hant]]; rewrite Hant in Hv; [done|].
      by rewrite lookup_insert_ne in Hv.
    + apply NoDup_app. repeat split; [done| |apply NoDup_singleton].
      intros x Hx Hx'. apply list_elem_of_singleton in Hx' as ->. done.
  - unfold trail_sorted in *. rewrite Ht, Hl, reverse_snoc.
    constructor.
    + eapply StronglySorted_weaken; [|exact Hs].
      intros x y Hx Hy (lx & ly & Hlx & Hly & Hle).
      rewrite elem_of_reverse in Hx. rewrite elem_of_reverse in Hy.
      exists lx, ly. rewrite !lookup_insert_ne by (by intros ->). done.
    + apply Forall_forall. intros w Hw. rewrite elem_of_reverse in Hw.
      assert (is_Some (level s !! w)) as [lw Hlw] by (by apply Hml, Hmt).
      exists lw, l. rewrite lookup_insert_eq.
      rewrite lookup_insert_ne by (by intros ->).
      repeat split; [done|]. specialize (Hb _ _ Hlw). lia.
  - intros v lv. rewrite Hl. destruct (decide (var = v)) as [->|Hne].
    + rewrite lookup_insert_eq. intros [= <-]. done.
    + rewrite lookup_insert_ne by done. intros Hv.
      specialize (Hb _ _ Hv). lia.
Qed.

Lemma assign_unit_fields lit c s :
  assignment (assign_unit lit c s) = <[Z.abs lit := 0 <? lit]> (assignment s)
  ∧ level (assign_unit lit c s) = <[Z.abs lit := decision_level s]> (level s)
  ∧ antecedent (assign_unit lit c s) = <[Z.abs lit := c]> (antecedent s)
  ∧ trail (assign_unit lit c s) = trail s ++ [Z.abs lit]
  ∧ decision_level (assign_unit lit c s) = decision_level s.
Proof.
  unfold assign_unit.
  match goal with
  | |- context [bump_variable_activity ?v ?st] =>
      destruct (bump_variable_activity_core v st) as (->&->&->&->&->)
  end.
  done.
Qed.

Lemma assign_unit_inv lit c s :
  solver_inv s → lit_unassigned (assignment s) lit →
  solver_inv (assign_unit lit c s).
Proof.
  intros Hinv Hun.
  destruct (assign_unit_fields lit c s) as (Ha & Hl & Hant & Ht & Hd).
  apply (push_inv s _ (Z.abs lit) (0 <? lit) (decision_level s));
    [done | done | done | done | eauto | done | lia | lia].
Qed.

Lemma unit_propagate_loop_inv fuel clauses s r s' :
  solver_inv s → unit_propagate_loop fuel clauses s = Some (r, s') →
  solver_inv s'.
Proof.
  revert s. induction fuel as [|fuel IH]; intros s Hinv; simpl;
    destruct (sweep (assignment s) 0 clauses) as [idx c|lit c|] eqn:Hsweep;
    try done.
  - intros [= <- <-]. eapply same_core_inv; [apply conflict_found_core | done].
  - by intros [= <- <-].
  - intros [= <- <-]. eapply same_core_inv; [apply conflict_found_core | done].
  - apply IH. apply sweep_unit in Hsweep as (_ & _ & Hun).
    by apply assign_unit_inv.
  - by intros [= <- <-].
Qed.

Lemma py_max_by_elem key x l : py_max_by key x l ∈ x :: l.
Proof.
  unfold py_max_by. revert x. induction l as [|y l IH]; intros x; simpl.
  - apply list_elem_of_here.
  - destruct (PrimFloat.ltb (key x) (key y)).
    + apply list_elem_of_further, IH.
    + specialize (IH x). apply elem_of_cons in IH as [->|IH].
      * apply list_elem_of_here.
      * by do 2 apply list_elem_of_further.
Qed.

Lemma make_decision_inv s decided s' :
  solver_inv s → make_decision s = (decided, s') → solver_inv s'.
Proof.
  intros Hinv. unfold make_decision.
  destruct (filter _ _) as [|v vs] eqn:Hf; [by intros [= <- <-]|].
  intros [= <- <-].
  set (best := py_max_by _ v vs).
  assert (assignment s !! best = None) as Hfresh.
  { pose proof (py_max_by_elem
      (λ v0, default 0%float (activity s !! v0)) v vs) as Hin.
    fold best in Hin. rewrite <- Hf in Hin.
    by apply list_elem_of_filter in Hin as [? _]. }
  apply (push_inv s _ best (default true (saved_phases s !! best))
           (decision_level s + 1));
    [done | done | done | done | by left | done | lia | simpl; lia].
Qed.

(** ** Backtracking *)

(** The popping loop splits the reversed trail into the popped entries, all
    above [lvl], and the kept ones, whose head is not above [lvl]; the popped
    variables leave the three maps and nothing else changes in them. *)
Lemma backtrack_pop_spec lvl rt s :
  NoDup rt →
  (∀ v, v ∈ rt → is_Some (level s !! v) ∧ is_Some (assignment s !! v)) →
  ∃ popped kept s',
    rt = popped ++ kept
    ∧ backtrack_pop lvl rt s = Some (kept, s')
    ∧ (∀ v, assignment s' !! v
            = if decide (v ∈ popped) then None else assignment s !! v)
    ∧ (∀ v, level s' !! v = if decide (v ∈ popped) then None else level s !! v)
    ∧ (∀ v, antecedent s' !! v
            = if decide (v ∈ popped) then None else antecedent s !! v)
    ∧ Forall (λ v, ∃ l, level s !! v = Some l ∧ lvl < l) popped
    ∧ (∀ v, head kept = Some v → ∃ l, level s !! v = Some l ∧ l ≤ lvl).
Proof.
  revert s. induction rt as [|var rest IH]; intros s Hnd Hdom.
  - exists [], [], s. repeat split; done.
  - apply NoDup_cons in Hnd as [Hnotin Hnd].
    destruct (Hdom var) as [[l Hl] [val Hval]]; [apply list_elem_of_here|].
    cbn [backtrack_pop]. rewrite Hl. simpl.
    destruct (lvl <? l) eqn:Hcmp.
    + apply Z.ltb_lt in Hcmp. rewrite Hval. simpl.
      set (s3 := set_level _ _).
      destruct (IH s3 Hnd) as (popped & kept & s' & -> & Hrun & Ha & Hlev & Hant
                               & Hpop & Hkept).
      { intros v Hv. simpl.
        assert (var ≠ v) by (by intros ->).
        rewrite !lookup_delete_ne by done.
        apply Hdom. by apply list_elem_of_further. }
      exists (var :: popped), kept, s'. repeat split; try done.
      * intros v. rewrite Ha. simpl.
        destruct (decide (var = v)) as [->|Hne].
        -- rewrite lookup_delete_eq.
           rewrite (decide_True (P := v ∈ v :: popped))
             by apply list_elem_of_here.
           by destruct (decide (v ∈ popped)).
        -- rewrite lookup_delete_ne by done.
           destruct (decide (v ∈ popped)) as [Hin|Hnin].
           ++ by rewrite decide_True by (by apply list_elem_of_further).
           ++ rewrite decide_False; [done|].
              intros Hin. apply elem_of_cons in Hin as [->|Hin]; done.
      * intros v. rewrite Hlev. simpl.
        destruct (decide (var = v)) as [->|Hne].
        -- rewrite lookup_delete_eq.
           rewrite (decide_True (P := v ∈ v :: popped))
             by apply list_elem_of_here.
           by destruct (decide (v ∈ popped)).
        -- rewrite lookup_delete_ne by done.
           destruct (decide (v ∈ popped)) as [Hin|Hnin].
           ++ by rewrite decide_True by (by apply list_elem_of_further).
           ++ rewrite decide_False; [done|].
              intros Hin. apply elem_of_cons in Hin as [->|Hin]; done.
      * intros v. rewrite Hant. simpl.
        destruct (decide (var = v)) as [->|Hne].
        -- rewrite lookup_delete_eq.
           rewrite (decide_True (P := v ∈ v :: popped))
             by apply list_elem_of_here.
           by destruct (decide (v ∈ popped)).
        -- rewrite lookup_delete_ne by done.
           destruct (decide (v ∈ popped)) as [Hin|Hnin].
           ++ by rewrite decide_True by (by apply list_elem_of_further).
           ++ rewrite decide_False; [done|].
              intros Hin. apply elem_of_cons in Hin as [->|Hin]; done.
      * constructor; [eauto|].
        eapply Forall_impl; [exact Hpop|]. simpl.
        intros v (lv & Hlv & Hgt). exists lv. split; [|done].
        apply lookup_delete_Some in Hlv. tauto.
      * intros v Hv. destruct (Hkept v Hv) as (lv & Hlv & Hle).
        exists lv. split; [|done].
        simpl in Hlv. apply lookup_delete_Some in Hlv. tauto.
    + apply Z.ltb_ge in Hcmp.
      exists [], (var :: rest), s. repeat split; try done.
      intros v [= <-]. eauto.
Qed.

(** What [backtrack] does on a state that satisfies the invariant. *)
Lemma backtrack_spec lvl s :
  solver_inv s →
  ∃ kept popped s',
    trail s = kept ++ popped
    ∧ backtrack lvl s = Some s'
    ∧ trail s' = kept
    ∧ decision_level s' = lvl
    ∧ (∀ v, assignment s' !! v
            = if decide (v ∈ popped) then None else assignment s !! v)
    ∧ (∀ v, level s' !! v = if decide (v ∈ popped) then None else level s !! v)
    ∧ (∀ v, antecedent s' !! v
            = if decide (v ∈ popped) then None else antecedent s !! v)
    ∧ Forall (λ v, ∃ l, level s !! v = Some l ∧ lvl < l) popped
    ∧ Forall (λ v, ∃ l, level s !! v = Some l ∧ l ≤ lvl) kept.
Proof.
  intros (Hm & Hs & Hb).
  apply mutual_domain_alt in Hm as (Hmt & Hml & Hma & Hnd).
  set (s1 := set_saved_phases (assignment s ∪ saved_phases s) s).
  destruct (backtrack_pop_spec lvl (reverse (trail s)) s1)
    as (rpopped & rkept & s2 & Hsplit & Hrun & Ha & Hl & Hant & Hpop & Hkept).
  { by rewrite reverse_Permutation. }
  { intros v Hv. rewrite elem_of_reverse in Hv. simpl.
    split; [apply Hml|]; by apply Hmt. }
  exists (reverse rkept), (reverse rpopped),
    (set_decision_level lvl (set_trail (reverse rkept) s2)).
  assert (trail s = reverse rkept ++ reverse rpopped) as Htrail.
  { rewrite <- reverse_app, <- Hsplit. by rewrite reverse_involutive. }
  repeat split; try done.
  - unfold backtrack. fold s1.
    change (trail s1) with (trail s). rewrite Hrun. done.
  - intros v. rewrite Ha. simpl.
    destruct (decide (v ∈ rpopped)) as [Hin|Hnin].
    + by rewrite decide_True by (by rewrite elem_of_reverse).
    + by rewrite decide_False by (by rewrite elem_of_reverse).
  - intros v. rewrite Hl. simpl.
    destruct (decide (v ∈ rpopped)) as [Hin|Hnin].
    + by rewrite decide_True by (by rewrite elem_of_reverse).
    + by rewrite decide_False by (by rewrite elem_of_reverse).
  - intros v. rewrite Hant. simpl.
    destruct (decide (v ∈ rpopped)) as [Hin|Hnin].
    + by rewrite decide_True by (by rewrite elem_of_reverse).
    + by rewrite decide_False by (by rewrite elem_of_reverse).
  - apply Forall_reverse. exact Hpop.
  - apply Forall_reverse.
    unfold trail_sorted in Hs. rewrite Hsplit in Hs.
    apply StronglySorted_app_1_r in Hs.
    destruct rkept as [|v rest]; [constructor|].
    destruct (Hkept v eq_refl) as (lv & Hlv & Hle). simpl in Hlv.
    constructor; [eauto|].
    apply StronglySorted_inv in Hs as [_ Hall].
    eapply Forall_impl; [exact Hall|]. simpl.
    intros w (lw & lv' & Hlw & Hlv' & Hle').
    exists lw. split; [done|]. assert (lv' = lv) by congruence. lia.
Qed.

Lemma backtrack_inv lvl s s' :
  solver_inv s → backtrack lvl s = Some s' → solver_inv s'.
Proof.
  intros Hinv Hrun.
  destruct (backtrack_spec lvl s Hinv)
    as (kept & popped & s'' & Htrail & Hrun' & Ht & Hd & Ha & Hl & Hant
        & Hpop & Hkept).
  assert (s'' = s') as -> by congruence.
  destruct Hinv as (Hm & Hs & Hb).
  apply mutual_domain_alt in Hm as (Hmt & Hml & Hma & Hnd).
  rewrite Htrail in Hnd. apply NoDup_app in Hnd as (Hndk & Hdisj & _).
  assert (∀ v, v ∈ kept → v ∉ popped) as Hkp by (intros v Hv; by apply Hdisj).
  split; [|split].
  - apply mutual_domain_alt. rewrite Ht. repeat split; try done.
    + intros Hv. rewrite Ha, decide_False by auto.
      apply Hmt. rewrite Htrail. apply elem_of_app. by left.
    + rewrite Ha. destruct (decide (v ∈ popped)) as [Hin|Hnin].
      * by intros [? ?].
      * intros Hv. apply Hmt in Hv. rewrite Htrail in Hv.
        apply elem_of_app in Hv as [?|?]; done.
    + rewrite Ha, Hl. destruct (decide (v ∈ popped)); [done | apply Hml].
    + rewrite Ha, Hl. destruct (decide (v ∈ popped)); [done | apply Hml].
    + intros v. rewrite Ha, Hant.
      destruct (decide (v ∈ popped)); [done | apply Hma].
  - unfold trail_sorted in *. rewrite Ht. rewrite Htrail, reverse_app in Hs.
    apply StronglySorted_app_1_r in Hs.
    eapply StronglySorted_weaken; [|exact Hs].
    intros x y Hx Hy (lx & ly & Hlx & Hly & Hle).
    rewrite elem_of_reverse in Hx. rewrite elem_of_reverse in Hy.
    exists lx, ly. rewrite !Hl, !decide_False by auto. done.
  - intros v l. rewrite Hl, Hd.
    destruct (decide (v ∈ popped)) as [Hin|Hnin]; [done|].
    intros Hv.
    assert (v ∈ trail s) as Hvt by (apply Hmt, Hml; eauto).
    rewrite Htrail in Hvt. apply elem_of_app in Hvt as [Hvk|?]; [|done].
    rewrite Forall_forall in Hkept.
    destruct (Hkept v Hvk) as (l' & Hl' & Hle). congruence.
Qed.

(** C6. On a state that satisfies the solver invariant and for every level
    [lvl >= 0], [backtrack lvl] returns a state in which no trail entry has a
    level above [lvl], [decision_level] is [lvl], every variable popped from
    the trail is absent from [assignment], [level] and [antecedent], and the
    entries of the three maps for variables at a level up to [lvl] are the
    ones before the call. *)
Theorem backtrack_frame s lvl :
  solver_inv s → 0 ≤ lvl →
  ∃ s', backtrack lvl s = Some s'
    ∧ Forall (λ v, ∃ l, level s' !! v = Some l ∧ l ≤ lvl) (trail s')
    ∧ decision_level s' = lvl
    ∧ (∀ v, v ∈ trail s → v ∉ trail s' →
         assignment s' !! v = None ∧ level s' !! v = None
         ∧ antecedent s' !! v = None)
    ∧ (∀ v l, level s !! v = Some l → l ≤ lvl →
         assignment s' !! v = assignment s !! v
         ∧ level s' !! v = level s !! v
         ∧ antecedent s' !! v = antecedent s !! v).
Proof.
  intros Hinv _.
  destruct (backtrack_spec lvl s Hinv)
    as (kept & popped & s' & Htrail & Hrun & Ht & Hd & Ha & Hl & Hant
        & Hpop & Hkept).
  destruct Hinv as (Hm & Hs & Hb).
  apply mutual_domain_alt in Hm as (Hmt & Hml & Hma & Hnd).
  rewrite Htrail in Hnd. apply NoDup_app in Hnd as (Hndk & Hdisj & _).
  exists s'. split; [done|]. rewrite Ht. repeat split; try done.
  - apply Forall_forall. intros v Hv. rewrite Forall_forall in Hkept.
    rewrite Hl, decide_False by (by apply Hdisj). by apply Hkept.
  - rewrite Ha, decide_True; [done|].
    rewrite Htrail in H. apply elem_of_app in H as [?|?]; done.
  - rewrite Hl, decide_True; [done|].
    rewrite Htrail in H. apply elem_of_app in H as [?|?]; done.
  - rewrite Hant, decide_True; [done|].
    rewrite Htrail in H. apply elem_of_app in H as [?|?]; done.
  - rewrite Ha, decide_False; [done|]. intros Hin.
    rewrite Forall_forall in Hpop. destruct (Hpop v Hin) as (l' & Hl' & Hgt).
    assert (l' = l) by congruence. lia.
  - rewrite Hl, decide_False; [done|]. intros Hin.
    rewrite Forall_forall in Hpop. destruct (Hpop v Hin) as (l' & Hl' & Hgt).
    assert (l' = l) by congruence. lia.
  - rewrite Hant, decide_False; [done|]. intros Hin.
    rewrite Forall_forall in Hpop. destruct (Hpop v Hin) as (l' & Hl' & Hgt).
    assert (l' = l) by congruence. lia.
Qed.

(** ** Conflict analysis leaves the core of the state alone *)

Lemma initial_scan_core lits st st' :
  initial_scan lits st = Some st' → same_core (solver st) (solver st').
Proof.
  revert st. induction lits as [|lit rest IH]; intros st; cbn [initial_scan].
  - intros [= <-]. apply same_core_refl.
  - destruct (assignment (solver st) !! Z.abs lit); [|apply IH].
    destruct (level (solver st) !! Z.abs lit) as [l|]; [|done]. simpl.
    destruct (l =? decision_level (solver st)); intros H; apply IH in H.
    + eapply same_core_trans; [apply bump_variable_activity_core | exact H].
    + exact H.
Qed.

Lemma resolve_antecedent_core var ante st st' :
  resolve_antecedent var ante st = Some st' →
  same_core (solver st) (solver st').
Proof.
  revert st. induction ante as [|ant_lit rest IH]; intros st;
    cbn [resolve_antecedent].
  - intros [= <-]. apply same_core_refl.
  - destruct (decide _); [|apply IH].
    destruct (bump_variable_activity_core (Z.abs ant_lit) (solver st))
      as (Ha & Hl & Hant & Ht & Hd).
    destruct (level (bump_variable_activity _ _) !! _) as [l|]; [|done]. simpl.
    assert (same_core (solver st)
              (bump_variable_activity (Z.abs ant_lit) (solver st))) as Hcore
      by (by repeat split).
    destruct (l =? _); [|destruct (0 <? l)]; intros H; apply IH in H;
      (eapply same_core_trans; [exact Hcore | exact H]).
Qed.

Lemma resolution_loop_core remaining st r st' :
  resolution_loop remaining st = Some (r, st') →
  same_core (solver st) (solver st').
Proof.
  revert st. induction remaining as [|n IH]; intros st;
    cbn [resolution_loop].
  - intros [= <- <-]. apply same_core_refl.
  - destruct (1 <? len (current_level_literals st)).
    2:{ intros [= <- <-]. apply same_core_refl. }
    destruct (match find_recent _ _ with Some _ => _ | None => _ end)
      as [lit|]; [|done]. simpl.
    destruct (antecedent (solver st) !! Z.abs lit) as [ante|]; simpl.
    + destruct (resolve_antecedent _ _ _) as [st2|] eqn:Hres; [|done]. simpl.
      intros H. apply IH in H. apply resolve_antecedent_core in Hres.
      eapply same_core_trans; [exact Hres | exact H].
    + apply IH.
Qed.

(** The shape of the result of [analyze_conflict]: the backjump level is
    computed from the list [learned] as it stands after resolution, and the
    returned clause enumerates the distinct literals of that list that pass
    the filter. *)
Lemma analyze_conflict_shape list_set c s bl final s' :
  analyze_conflict list_set c s = Some ((bl, final), s') →
  same_core s s'
  ∧ ∃ learned1,
      bl = compute_back_level (level s') (decision_level s') learned1
      ∧ let kept :=
          list_set
            (filter (λ lit, keep_literal (level s') (decision_level s') bl lit
                            = true) learned1) in
        (final = kept ∨ final = minimize_clause kept).
Proof.
  unfold analyze_conflict. generalize max_iterations. intros n.
  destruct (initial_scan _ _) as [st0|] eqn:Hscan; [|done]. simpl.
  destruct (resolution_loop n st0) as [[remaining st1]|] eqn:Hloop; [|done].
  simpl.
  apply initial_scan_core in Hscan. apply resolution_loop_core in Hloop.
  simpl in Hscan.
  set (s2 := if _ <=? _ then _ else _).
  assert (same_core s s2) as Hcore.
  { eapply same_core_trans; [exact Hscan|].
    eapply same_core_trans; [exact Hloop|].
    eapply same_core_trans; [apply decay_variable_activity_core|].
    subst s2. destruct (_ <=? _);
      [apply clean_learned_clauses_core | apply same_core_refl]. }
  set (learned1 := match _ with [] => _ | _ :: _ => _ end).
  intros [= <- Hfinal <-]. split; [done|].
  exists learned1. split; [done|]. simpl.
  destruct (20 <? _); [by right | by left].
Qed.

Lemma analyze_conflict_core list_set c s r s' :
  analyze_conflict list_set c s = Some (r, s') → same_core s s'.
Proof.
  destruct r as [bl final]. intros H.
  by apply analyze_conflict_shape in H as [? _].
Qed.

(** ** Every operation preserves the invariant *)

Lemma perform_restart_inv s s' :
  solver_inv s → perform_restart s = Some s' → solver_inv s'.
Proof.
  intros Hinv. unfold perform_restart.
  destruct (backtrack 0 s) as [s1|] eqn:Hb; [|done]. simpl.
  unfold next_luby. simpl.
  destruct (next_luby_seq _) as [luby|]; [|done]. simpl.
  destruct (py_index luby (-1)); [|done]. simpl.
  intros [= <-].
  eapply same_core_inv; [|eapply backtrack_inv; [exact Hinv | exact Hb]].
  by repeat split.
Qed.

Lemma step_inv s s' : step s s' → solver_inv s → solver_inv s'.
Proof.
  intros Hstep Hinv. destruct Hstep.
  - by eapply unit_propagate_loop_inv.
  - by eapply make_decision_inv.
  - by eapply backtrack_inv.
  - by eapply perform_restart_inv.
  - eapply same_core_inv; [by eapply analyze_conflict_core | done].
  - eapply same_core_inv; [apply initialize_activity_core | done].
  - eapply same_core_inv; [|done]. by repeat split.
  - eapply same_core_inv; [|done]. by repeat split.
Qed.

Lemma rtc_step_inv s s' : rtc step s s' → solver_inv s → solver_inv s'.
Proof.
  induction 1 as [|s1 s2 s3 Hstep _ IH]; [done|].
  intros Hinv. apply IH. by eapply step_inv.
Qed.

Lemma reachable_solver_inv s : reachable s → solver_inv s.
Proof. intros H. eapply rtc_step_inv; [exact H | apply solver_inv_init]. Qed.

(** The states that [solve] goes through are reached by these operations. *)
Lemma solve_loop_steps list_set deadline clauses s e s' :
  solve_loop list_set deadline clauses s = Some (e, s') → rtc step s s'.
Proof.
  revert s. induction deadline as [|d IH]; intros s; cbn [solve_loop].
  - by intros [= <- <-].
  - destruct (should_restart s) as [restart|]; [|done]. simpl.
    destruct (if restart then perform_restart s else Some s) as [s1|] eqn:Hr;
      [|done]. simpl.
    assert (rtc step s s1) as H1.
    { destruct restart.
      - apply rtc_once. by eapply step_perform_restart.
      - by injection Hr as ->. }
    destruct (unit_propagate _ s1) as [[conflict s2]|] eqn:Hup; [|done].
    simpl.
    assert (rtc step s s2) as H2.
    { eapply rtc_r; [exact H1 | by eapply step_unit_propagate]. }
    assert ((if all_satisfied (assignment s2) clauses
             then Some (ExitSatisfied, s2)
             else let '(decided, s3) := make_decision s2 in
                  if decided then solve_loop list_set d clauses s3
                  else Some (ExitNoDecision, s3)) = Some (e, s') →
            rtc step s s') as Helse.
    { destruct (all_satisfied _ _).
      - by intros [= <- <-].
      - destruct (make_decision s2) as [decided s3] eqn:Hd.
        assert (rtc step s s3) as H3
          by (eapply rtc_r; [exact H2 | by eapply step_make_decision]).
        destruct decided.
        + intros H. apply IH in H. by etrans.
        + by intros [= <- <-]. }
    destruct conflict as [[|lit c]|]; [exact Helse | | exact Helse].
    destruct (decision_level s2 =? 0); [by intros [= <- <-]|].
    destruct (analyze_conflict _ _ _) as [[[lvl lc] s3]|] eqn:Han; [|done].
    simpl.
    destruct (backtrack lvl s3) as [s4|] eqn:Hb; [|done]. simpl.
    intros H. apply IH in H.
    etrans; [|exact H].
    eapply rtc_r; [|apply step_learn].
    eapply rtc_r; [|by eapply step_backtrack].
    eapply rtc_r; [exact H2 | by eapply step_analyze_conflict].
Qed.

Lemma solve_steps list_set deadline clauses s e s' :
  solve list_set deadline clauses s = Some (e, s') → rtc step s s'.
Proof.
  unfold solve.
  set (mv := match _ with [] => 0 | v :: vs => _ end).
  assert (rtc step s (initialize_activity (set_max_var mv s))) as H0.
  { eapply rtc_l; [apply (step_set_max_var mv)|].
    apply rtc_once, step_initialize_activity. }
  destruct (existsb _ _).
  - by intros [= <- <-].
  - intros H. apply solve_loop_steps in H. by etrans.
Qed.

(** C9. In every state reached from a fresh solver by [unit_propagate],
    [make_decision], [backtrack], [perform_restart] and the other operations
    of the driver, the variables on the trail, the keys of [assignment] and
    the keys of [level] are the same set, the keys of [antecedent] are among
    them, and no variable occurs twice on the trail. *)
Theorem reachable_mutual_domain s : reachable s → mutual_domain s.
Proof. intros H. by apply reachable_solver_inv in H as [? _]. Qed.

(** ** The driver *)

Lemma lit_satisfied_true a lit : lit_satisfied a lit = true ↔ lit_true a lit.
Proof.
  unfold lit_satisfied, lit_true, lit_holds.
  destruct (a !! Z.abs lit) as [val|]; simpl.
  - split.
    + intros H. by exists val.
    + by intros (val' & [= <-] & H).
  - rewrite !andb_false_r. simpl. split; [done|]. by intros (? & ? & _).
Qed.

Lemma all_satisfied_true a clauses :
  all_satisfied a clauses = true ↔ Forall (clause_satisfied a) clauses.
Proof.
  unfold all_satisfied, clause_satisfied.
  rewrite forallb_forall, Forall_forall. split.
  - intros H c Hc. apply list_elem_of_In in Hc. apply H in Hc.
    apply existsb_exists in Hc as (lit & Hlit & Hsat).
    apply Exists_exists. exists lit.
    split; [by apply list_elem_of_In | by apply lit_satisfied_true].
  - intros H c Hc. apply list_elem_of_In in Hc. apply H in Hc.
    apply Exists_exists in Hc as (lit & Hlit & Hsat).
    apply existsb_exists. exists lit.
    split; [by apply list_elem_of_In | by apply lit_satisfied_true].
Qed.

(** The exits of the loop: [ExitSatisfied] is taken only after the
    termination test has succeeded on the state that is returned, and the
    loop never takes [ExitEmptyClause]. *)
Lemma solve_loop_exit list_set deadline clauses s e s' :
  solve_loop list_set deadline clauses s = Some (e, s') →
  e ≠ ExitEmptyClause
  ∧ (e = ExitSatisfied → all_satisfied (assignment s') clauses = true).
Proof.
  revert s. induction deadline as [|d IH]; intros s; cbn [solve_loop].
  - by intros [= <- <-].
  - destruct (should_restart s) as [restart|]; [|done]. simpl.
    destruct (if restart then perform_restart s else Some s) as [s1|];
      [|done]. simpl.
    destruct (unit_propagate _ s1) as [[conflict s2]|]; [|done]. simpl.
    assert ((if all_satisfied (assignment s2) clauses
             then Some (ExitSatisfied, s2)
             else let '(decided, s3) := make_decision s2 in
                  if decided then solve_loop list_set d clauses s3
                  else Some (ExitNoDecision, s3)) = Some (e, s') →
            e ≠ ExitEmptyClause
            ∧ (e = ExitSatisfied →
               all_satisfied (assignment s') clauses = true)) as Helse.
    { destruct (all_satisfied (assignment s2) clauses) eqn:Hsat.
      - by intros [= <- <-].
      - destruct (make_decision s2) as [[] s3]; [apply IH|].
        by intros [= <- <-]. }
    destruct conflict as [[|lit c]|]; [exact Helse | | exact Helse].
    destruct (decision_level s2 =? 0); [by intros [= <- <-]|].
    destruct (analyze_conflict _ _ _) as [[[lvl lc] s3]|]; [|done]. simpl.
    destruct (backtrack lvl s3) as [s4|]; [|done]. simpl.
    apply IH.
Qed.

(** C1. If [solve] returns [True], every clause of the input contains a
    literal that is true under the assignment of the solver at return. *)
Theorem solve_sat_model list_set deadline clauses s e s' :
  solve list_set deadline clauses s = Some (e, s') →
  returned_value e = true →
  Forall (clause_satisfied (assignment s')) clauses.
Proof.
  unfold solve. intros Hrun Hret.
  assert (e = ExitSatisfied) as -> by (by destruct e).
  destruct (existsb _ _); [done|].
  apply solve_loop_exit in Hrun as [_ Hsat].
  by apply all_satisfied_true, Hsat.
Qed.

(** With the deadline already over, [solve] leaves by the time limit as soon
    as the input has no empty clause. *)
Lemma solve_deadline_over list_set clauses s :
  existsb (λ c, len c =? 0) clauses = false →
  ∃ s', solve list_set 0 clauses s = Some (ExitTimeLimit, s').
Proof. unfold solve. intros ->. simpl. eauto. Qed.

(** C3, amended. When [solve] leaves its loop because the time limit is
    over, its caller receives [False]: the value received from every run that
    reports UNSAT, be it through an empty clause, a conflict at level 0 or
    the lack of a decision. *)
Theorem solve_time_limit_returns_false list_set deadline clauses s s' :
  solve list_set deadline clauses s = Some (ExitTimeLimit, s') →
  solve_value list_set deadline clauses s = Some false
  ∧ ∀ deadline2 clauses2 s2 e2 s2',
      solve list_set deadline2 clauses2 s2 = Some (e2, s2') →
      e2 ≠ ExitSatisfied →
      solve_value list_set deadline2 clauses2 s2
      = solve_value list_set deadline clauses s.
Proof.
  intros Hrun. unfold solve_value. rewrite Hrun. simpl. split; [done|].
  intros deadline2 clauses2 s2 e2 s2' Hrun2 Hne. rewrite Hrun2. simpl.
  by destruct e2.
Qed.

(** ** The reader *)

Lemma parse_line_nonempty acc raw acc' :
  parse_line acc raw = Some acc' →
  Forall (λ c, c ≠ []) acc.1 → Forall (λ c, c ≠ []) acc'.1.
Proof.
  unfold parse_line.
  destruct (startswith "p cnf" _).
  - destruct (4 <=? _); [|by intros [= <-]].
    destruct (_ !! _) as [tok|]; [|done]. simpl.
    destruct (py_int tok); [|done]. simpl. by intros [= <-].
  - destruct (is_clause_line _); [|by intros [= <-]].
    destruct (mapM py_int _) as [[|lit c]|]; intros [= <-]; try done.
    simpl. intros H. apply Forall_app. split; [done|].
    by constructor.
Qed.

Lemma parse_lines_nonempty lines acc acc' :
  parse_lines acc lines = Some acc' →
  Forall (λ c, c ≠ []) acc.1 → Forall (λ c, c ≠ []) acc'.1.
Proof.
  revert acc. induction lines as [|raw rest IH]; intros acc; simpl.
  - by intros [= <-].
  - destruct (parse_line acc raw) as [acc1|] eqn:Hline; [|done]. simpl.
    intros Hrest Hacc. eapply IH; [exact Hrest|].
    by eapply parse_line_nonempty.
Qed.

Lemma no_empty_clause (clauses : list clause) :
  Forall (λ c, c ≠ []) clauses → existsb (λ c, len c =? 0) clauses = false.
Proof.
  induction 1 as [|c l Hc _ IH]; [done|]. simpl. rewrite IH.
  destruct c; [done|]. unfold len. simpl. done.
Qed.

(** C10. The clauses returned by [parse_cnf_file] are all non-empty, a line
    that holds only the terminator [0] adds no clause, and [solve] never
    takes its empty-clause exit on clauses obtained from [parse_cnf_file]. *)
Theorem parse_cnf_file_no_empty_clause lines clauses num_vars :
  parse_cnf_file lines = Some (clauses, num_vars) →
  Forall (λ c, c ≠ []) clauses
  ∧ (∀ acc, parse_line acc "0" = Some acc)
  ∧ (∀ list_set deadline s e s',
       solve list_set deadline clauses s = Some (e, s') →
       e ≠ ExitEmptyClause).
Proof.
  intros Hparse.
  assert (Forall (λ c : clause, c ≠ []) clauses) as Hne.
  { apply (parse_lines_nonempty lines ([], 0) (clauses, num_vars) Hparse).
    constructor. }
  split; [done|]. split; [done|].
  intros list_set deadline s e s'. unfold solve.
  rewrite (no_empty_clause _ Hne).
  intros H. by apply solve_loop_exit in H as [? _].
Qed.

Lemma parse_lines_app acc l1 l2 :
  parse_lines acc (l1 ++ l2) = acc' ← parse_lines acc l1; parse_lines acc' l2.
Proof.
  revert acc. induction l1 as [|raw rest IH]; intros acc; simpl; [done|].
  destruct (parse_line acc raw); simpl; [apply IH | done].
Qed.

Lemma parse_line_malformed acc raw :
  malformed_clause_line raw → parse_line acc raw = Some acc.
Proof.
  unfold malformed_clause_line, parse_line. intros [Hline Htok].
  set (line := strip _) in *.
  assert (startswith "p cnf" line = false) as ->.
  { unfold is_clause_line in Hline. by destruct (startswith "p cnf" line). }
  by rewrite Hline, Htok.
Qed.

(** C8, amended. A malformed clause line is skipped: [parse_cnf_file]
    returns what it returns on the file without that line, and the file is
    solved like the file without that line. *)
Theorem parse_cnf_file_skips_malformed list_set deadline l1 bad l2 :
  malformed_clause_line bad →
  parse_cnf_file (l1 ++ bad :: l2) = parse_cnf_file (l1 ++ l2)
  ∧ solve_file list_set deadline (l1 ++ bad :: l2)
    = solve_file list_set deadline (l1 ++ l2).
Proof.
  intros Hbad.
  assert (parse_cnf_file (l1 ++ bad :: l2) = parse_cnf_file (l1 ++ l2)) as Heq.
  { unfold parse_cnf_file. rewrite !parse_lines_app.
    destruct (parse_lines _ l1) as [acc|]; [|done]. simpl.
    by rewrite parse_line_malformed. }
  split; [done|]. unfold solve_file. by rewrite Heq.
Qed.

(** ** The backjump level *)

Lemma max_level_below_cons lev dl lit lits :
  max_level_below lev dl (lit :: lits)
  = match lev !! Z.abs lit with
    | Some l => if decide (l < dl)
                then Z.max l (max_level_below lev dl lits)
                else max_level_below lev dl lits
    | None => max_level_below lev dl lits
    end.
Proof.
  unfold max_level_below. simpl.
  destruct (lev !! Z.abs lit) as [l|]; [|done].
  destruct (decide (l < dl)).
  - by rewrite filter_cons_True.
  - by rewrite filter_cons_False.
Qed.

Lemma max_level_below_nonneg lev dl lits : 0 ≤ max_level_below lev dl lits.
Proof.
  induction lits as [|lit lits IH]; [done|].
  rewrite max_level_below_cons.
  destruct (lev !! Z.abs lit) as [l|]; [|done].
  destruct (decide (l < dl)); lia.
Qed.

(** The loop that computes [back_level] keeps [second_highest <= back_level]
    and ends with the maximum of the levels below [dl]. *)
Lemma back_level_fold lev dl lits b sh :
  0 ≤ sh ≤ b →
  (foldl (back_level_step lev dl) (b, sh) lits).1
  = Z.max b (max_level_below lev dl lits).
Proof.
  revert b sh. induction lits as [|lit lits IH]; intros b sh Hle.
  - simpl. unfold max_level_below. simpl. lia.
  - rewrite max_level_below_cons. cbn [foldl]. unfold back_level_step at 2.
    pose proof (max_level_below_nonneg lev dl lits) as Hnn.
    destruct (lev !! Z.abs lit) as [l|]; [|by apply IH].
    destruct (sh <? l) eqn:H1; destruct (l <? dl) eqn:H2; simpl;
      try apply Z.ltb_lt in H1; try apply Z.ltb_ge in H1;
      try apply Z.ltb_lt in H2; try apply Z.ltb_ge in H2.
    + rewrite decide_True by done.
      destruct (b <? l) eqn:H3;
        [apply Z.ltb_lt in H3 | apply Z.ltb_ge in H3];
        rewrite IH by lia; lia.
    + rewrite decide_False by lia. by apply IH.
    + rewrite decide_True by done. rewrite IH by lia. lia.
    + rewrite decide_False by lia. by apply IH.
Qed.

Lemma compute_back_level_max lev dl lits :
  compute_back_level lev dl lits = max_level_below lev dl lits.
Proof.
  unfold compute_back_level. rewrite back_level_fold by lia.
  pose proof (max_level_below_nonneg lev dl lits). lia.
Qed.

(** The maximum is an upper bound of the levels below [dl], and it is 0 or
    the level of one of the literals. *)
Lemma max_level_below_upper lev dl lits lit l :
  lit ∈ lits → lev !! Z.abs lit = Some l → l < dl →
  l ≤ max_level_below lev dl lits.
Proof.
  intros Hin Hl Hlt. induction lits as [|x lits IH];
    [by apply elem_of_nil in Hin|].
  rewrite max_level_below_cons.
  apply elem_of_cons in Hin as [<-|Hin].
  - rewrite Hl, decide_True by done. lia.
  - specialize (IH Hin). destruct (lev !! Z.abs x) as [lx|]; [|done].
    destruct (decide (lx < dl)); lia.
Qed.

Lemma max_level_below_attained lev dl lits :
  max_level_below lev dl lits = 0
  ∨ ∃ lit, lit ∈ lits
      ∧ lev !! Z.abs lit = Some (max_level_below lev dl lits)
      ∧ max_level_below lev dl lits < dl.
Proof.
  induction lits as [|x lits IH]; [by left|].
  rewrite max_level_below_cons.
  assert (max_level_below lev dl lits = 0
          ∨ ∃ lit, lit ∈ x :: lits
              ∧ lev !! Z.abs lit = Some (max_level_below lev dl lits)
              ∧ max_level_below lev dl lits < dl) as IH'.
  { destruct IH as [?|(lit & ? & ? & ?)]; [by left | right].
    exists lit. split; [by apply list_elem_of_further | done]. }
  destruct (lev !! Z.abs x) as [lx|] eqn:Hx; [|done].
  destruct (decide (lx < dl)); [|done].
  destruct (Z.max_spec lx (max_level_below lev dl lits)) as [[? ->]|[? ->]];
    [done|].
  right. exists x. split; [apply list_elem_of_here | done].
Qed.

(** The maximum depends only on which literals below [dl] are present. *)
Lemma max_level_below_le lev dl l1 l2 :
  (∀ lit l, lit ∈ l1 → lev !! Z.abs lit = Some l → l < dl → lit ∈ l2) →
  max_level_below lev dl l1 ≤ max_level_below lev dl l2.
Proof.
  intros Hsub.
  destruct (max_level_below_attained lev dl l1) as [->|(lit & Hin & Hl & Hlt)].
  - apply max_level_below_nonneg.
  - eapply max_level_below_upper; [|exact Hl|exact Hlt]. by eapply Hsub.
Qed.

Lemma minimize_clause_id c : minimize_clause c = c.
Proof.
  unfold minimize_clause.
  assert (∀ acc, foldl (λ result lit, result ++ [lit]) acc c = acc ++ c) as H.
  { induction c as [|x c IH]; intros acc; simpl.
    - by rewrite app_nil_r.
    - rewrite IH. by rewrite <- app_assoc. }
  apply H.
Qed.

(** C5, amended. With [list_set] enumerating the elements of its argument,
    the backjump level returned by [analyze_conflict] is the largest level
    strictly below the decision level among the variables of the returned
    clause, 0 when there is none; it is 0 in particular when the returned
    clause is a unit clause whose literal is at the decision level. *)
Theorem backjump_level_is_max_below list_set c s bl final s' :
  (∀ l x, x ∈ list_set l ↔ x ∈ l) →
  analyze_conflict list_set c s = Some ((bl, final), s') →
  bl = max_level_below (level s') (decision_level s') final
  ∧ (∀ x, final = [x] →
       level s' !! Z.abs x = Some (decision_level s') → bl = 0).
Proof.
  intros Hset Hrun.
  apply analyze_conflict_shape in Hrun as (_ & learned1 & Hbl & Hfinal).
  simpl in Hfinal. rewrite minimize_clause_id in Hfinal.
  assert (final = list_set
            (filter (λ lit, keep_literal (level s') (decision_level s') bl lit
                            = true) learned1)) as Hfin by (by destruct Hfinal).
  clear Hfinal. rewrite compute_back_level_max in Hbl.
  assert (bl = max_level_below (level s') (decision_level s') final) as Heq.
  { apply Z.le_antisymm.
    - rewrite Hbl. apply max_level_below_le.
      intros lit l Hin Hl Hlt. rewrite Hfin. apply Hset.
      apply list_elem_of_filter. split; [|done].
      unfold keep_literal. rewrite Hl.
      assert (l ≤ bl) as Hle
        by (rewrite Hbl; by eapply max_level_below_upper).
      apply orb_true_iff. left. by apply Z.leb_le.
    - rewrite Hbl. apply max_level_below_le.
      intros lit l Hin _ _. rewrite Hfin in Hin.
      apply (proj1 (Hset _ _)) in Hin.
      by apply list_elem_of_filter in Hin as [_ ?]. }
  split; [done|].
  intros x -> Hx. rewrite Heq, max_level_below_cons, Hx.
  rewrite decide_False by lia. done.
Qed.

(** ** The restart sequence *)

Lemma land_pow2_zero size j :
  0 ≤ j → (Z.land size (2 ^ j) = 0 ↔ Z.testbit size j = false).
Proof.
  intros Hj. split.
  - intros H. destruct (Z.testbit size j) eqn:Hb; [|done].
    assert (Z.testbit (Z.land size (2 ^ j)) j = true) as Hl.
    { rewrite Z.land_spec, Hb, Z.pow2_bits_true by done. done. }
    rewrite H, Z.bits_0 in Hl. done.
  - intros Hb. apply Z.bits_inj'. intros n Hn.
    rewrite Z.land_spec, Z.bits_0, Z.pow2_bits_eqb by done.
    destruct (j =? n) eqn:Hjn; [|by rewrite andb_false_r].
    apply Z.eqb_eq in Hjn as <-. by rewrite Hb.
Qed.

(** The shift loop stops at the lowest set bit of [size], within the fuel it
    is given by [next_luby_seq]. *)
Lemma luby_shift_bounds fuel size j :
  0 < size → 0 ≤ j →
  (∀ i, 0 ≤ i < j → Z.testbit size i = false) →
  (Z.to_nat (Z.log2 size - j) < fuel)%nat →
  1 ≤ luby_shift fuel size (2 ^ j) ≤ size.
Proof.
  intros Hsize. revert j. induction fuel as [|fuel IH]; intros j Hj Hlow Hfuel;
    [lia|].
  assert (j ≤ Z.log2 size) as Hjlog.
  { destruct (decide (j ≤ Z.log2 size)) as [|Hgt]; [done|].
    pose proof (Z.log2_nonneg size).
    pose proof (Z.bit_log2 size Hsize) as Hbit.
    rewrite Hlow in Hbit by lia. done. }
  cbn [luby_shift].
  destruct (Z.land size (2 ^ j) =? 0) eqn:Hland.
  - apply Z.eqb_eq, land_pow2_zero in Hland; [|done].
    assert (j ≠ Z.log2 size) as Hne.
    { intros ->. rewrite (Z.bit_log2 size Hsize) in Hland. done. }
    rewrite Z.shiftl_mul_pow2 by lia.
    replace (2 ^ j * 2 ^ 1) with (2 ^ (j + 1))
      by (rewrite Z.pow_add_r by lia; done).
    apply IH; [lia| |lia].
    intros i Hi. destruct (decide (i = j)) as [->|]; [done|].
    apply Hlow. lia.
  - split; [pose proof (Z.pow_pos_nonneg 2 j); lia|].
    pose proof (Z.log2_spec size Hsize) as [Hlo _].
    pose proof (Z.pow_le_mono_r 2 j (Z.log2 size)). lia.
Qed.

(** [next_luby] raises no [IndexError]. *)
Lemma next_luby_seq_total luby : is_Some (next_luby_seq luby).
Proof.
  unfold next_luby_seq.
  destruct (Z.land (len luby) (len luby + 1) =? 0) eqn:Hpow; [eauto|].
  assert (0 < len luby) as Hpos.
  { unfold len in *. destruct luby; [done|]. simpl. lia. }
  pose proof (luby_shift_bounds (Z.to_nat (len luby)) (len luby) 0 Hpos) as Hk.
  change (2 ^ 0) with 1 in Hk.
  destruct Hk as [Hk1 Hk2]; [lia | intros; lia | |].
  { pose proof (Z.log2_lt_lin _ Hpos). pose proof (Z.log2_nonneg (len luby)).
    lia. }
  set (k := luby_shift _ _ _) in *.
  unfold py_index. rewrite (proj2 (Z.leb_le 0 (len luby - k))) by lia.
  destruct (lookup_lt_is_Some_2 luby (Z.to_nat (len luby - k))) as [x Hx].
  { unfold len in *. lia. }
  rewrite Hx. simpl. eauto.
Qed.

Lemma py_index_elem {A} (l : list A) i x : py_index l i = Some x → x ∈ l.
Proof.
  unfold py_index. destruct (0 <=? i); [apply list_elem_of_lookup_2|].
  destruct (0 <=? len l + i); [apply list_elem_of_lookup_2 | done].
Qed.

(** Whatever the list holds, [next_luby] appends 1 or a copy of an element:
    a list of ones stays a list of ones. *)
Lemma next_luby_seq_ones luby luby' :
  Forall (λ x, x = 1) luby → next_luby_seq luby = Some luby' →
  Forall (λ x, x = 1) luby' ∧ length luby' = S (length luby).
Proof.
  intros Hones. unfold next_luby_seq.
  destruct (_ =? 0).
  - intros [= <-]. rewrite length_app. simpl. split; [|lia].
    apply Forall_app. split; [done|]. by constructor.
  - destruct (py_index _ _) as [x|] eqn:Hx; [|done]. simpl.
    intros [= <-]. rewrite length_app. simpl. split; [|lia].
    apply Forall_app. split; [done|]. constructor; [|done].
    apply py_index_elem in Hx. rewrite Forall_forall in Hones. auto.
Qed.

Lemma luby_after_ones k :
  ∃ luby, luby_after k = Some luby
    ∧ Forall (λ x, x = 1) luby ∧ length luby = S k.
Proof.
  induction k as [|k (luby & Hk & Hones & Hlen)]; simpl.
  - exists [1]. repeat split. by constructor.
  - rewrite Hk. simpl.
    destruct (next_luby_seq_total luby) as [luby' Hnext].
    destruct (next_luby_seq_ones _ _ Hones Hnext) as [Hones' Hlen'].
    exists luby'. repeat split; [done | done | lia].
Qed.

(** C7, as the code behaves. Every value appended by [next_luby] on a fresh
    solver is 1, while the third term of the Luby sequence is 2. *)
Theorem next_luby_appends_ones :
  (∀ k, kth_appended k = Some 1) ∧ luby_spec 3 = 2.
Proof.
  split; [|reflexivity].
  intros k. unfold kth_appended.
  destruct (luby_after_ones k) as (luby & -> & Hones & Hlen). simpl.
  destruct luby as [|x luby _] using rev_ind; [done|].
  apply Forall_app in Hones as [_ Hx]. apply Forall_singleton in Hx as ->.
  unfold py_index, len. rewrite length_app. simpl.
  replace (0 <=? Z.of_nat (length luby + 1) + -1) with true
    by (symmetry; apply Z.leb_le; lia).
  replace (Z.to_nat (Z.of_nat (length luby + 1) + -1)) with (length luby)
    by lia.
  by rewrite lookup_app_r, Nat.sub_diag by lia.
Qed.

(** * Further properties *)

(** ** What each operation leaves alone *)

Lemma same_config_refl s : same_config s s.
Proof. by repeat split. Qed.

Lemma same_config_trans s1 s2 s3 :
  same_config s1 s2 → same_config s2 s3 → same_config s1 s3.
Proof. intros (?&?&?&?&?) (?&?&?&?&?). repeat split; congruence. Qed.

Lemma only_activity_refl s : only_activity s s.
Proof. by repeat split. Qed.

Lemma only_activity_trans s1 s2 s3 :
  only_activity s1 s2 → only_activity s2 s3 → only_activity s1 s3.
Proof.
  intros (Hc & Hg & ? & ? & ?) (Hc' & Hg' & ? & ? & ?).
  split; [by eapply same_core_trans|].
  split; [by eapply same_config_trans|].
  repeat split; congruence.
Qed.

Lemma bump_variable_activity_only var s :
  only_activity s (bump_variable_activity var s).
Proof.
  unfold bump_variable_activity.
  destruct (PrimFloat.ltb _ _); by repeat split.
Qed.

Lemma decay_variable_activity_only s :
  only_activity s (decay_variable_activity s).
Proof. by repeat split. Qed.

Lemma bump_clause_activity_only i s : only_activity s (bump_clause_activity i s).
Proof. by repeat split. Qed.

Lemma decay_clause_activity_only s : only_activity s (decay_clause_activity s).
Proof. by repeat split. Qed.

Lemma bump_all_only (c : clause) s :
  only_activity s (foldl (λ st lit, bump_variable_activity (Z.abs lit) st) s c).
Proof.
  revert s. induction c as [|lit c IH]; intros s; simpl.
  - apply only_activity_refl.
  - eapply only_activity_trans; [apply bump_variable_activity_only | apply IH].
Qed.

(** A conflict is counted once; nothing else but activities changes. *)
Lemma conflict_found_frame n i c s :
  same_core s (conflict_found n i c s)
  ∧ same_config s (conflict_found n i c s)
  ∧ learned_clauses (conflict_found n i c s) = learned_clauses s
  ∧ saved_phases (conflict_found n i c s) = saved_phases s
  ∧ conflicts (conflict_found n i c s) = conflicts s + 1.
Proof.
  unfold conflict_found.
  set (s1 := set_conflicts (conflicts s + 1) s).
  set (s2 := foldl _ s1 c).
  assert (only_activity s1 s2) as H12 by apply bump_all_only.
  set (s3 := if _ <=? _ then _ else s2).
  assert (only_activity s2 s3) as H23.
  { subst s3. destruct (_ <=? _);
      [apply bump_clause_activity_only | apply only_activity_refl]. }
  assert (only_activity s1 (decay_clause_activity (decay_variable_activity s3)))
    as (Hc & Hg & Hl & Hn & Hp).
  { eapply only_activity_trans; [exact H12|].
    eapply only_activity_trans; [exact H23|].
    eapply only_activity_trans;
      [apply decay_variable_activity_only | apply decay_clause_activity_only]. }
  repeat split; try apply Hc; try apply Hg; done.
Qed.

(** A unit assignment writes the five core attributes and the saved phase;
    the rest but the activities stays. *)
Lemma assign_unit_frame lit c s :
  same_config s (assign_unit lit c s)
  ∧ learned_clauses (assign_unit lit c s) = learned_clauses s
  ∧ conflicts (assign_unit lit c s) = conflicts s
  ∧ saved_phases (assign_unit lit c s)
    = <[Z.abs lit := 0 <? lit]> (saved_phases s).
Proof.
  unfold assign_unit, same_config.
  match goal with
  | |- context [bump_variable_activity ?v ?st] =>
      destruct (bump_variable_activity_only v st)
        as (_ & (H1 & H2 & H3 & H4 & H5) & H6 & H7 & H8)
  end.
  rewrite H1, H2, H3, H4, H5, H6, H7, H8. by repeat split.
Qed.

Lemma clean_learned_clauses_frame s :
  same_core s (clean_learned_clauses s)
  ∧ same_config s (clean_learned_clauses s)
  ∧ conflicts (clean_learned_clauses s) = conflicts s
  ∧ saved_phases (clean_learned_clauses s) = saved_phases s.
Proof.
  unfold clean_learned_clauses. destruct (_ <=? _); by repeat split.
Qed.

Lemma initial_scan_only lits st st' :
  initial_scan lits st = Some st' → only_activity (solver st) (solver st').
Proof.
  revert st. induction lits as [|lit rest IH]; intros st; cbn [initial_scan].
  - intros [= <-]. apply only_activity_refl.
  - destruct (assignment (solver st) !! Z.abs lit); [|apply IH].
    destruct (level (solver st) !! Z.abs lit) as [l|]; [|done]. simpl.
    destruct (l =? decision_level (solver st)); intros H; apply IH in H.
    + eapply only_activity_trans; [apply bump_variable_activity_only | exact H].
    + exact H.
Qed.

Lemma resolve_antecedent_only var ante st st' :
  resolve_antecedent var ante st = Some st' →
  only_activity (solver st) (solver st').
Proof.
  revert st. induction ante as [|ant_lit rest IH]; intros st;
    cbn [resolve_antecedent].
  - intros [= <-]. apply only_activity_refl.
  - destruct (decide _); [|apply IH].
    pose proof (bump_variable_activity_only (Z.abs ant_lit) (solver st))
      as Hbump.
    destruct (level (bump_variable_activity _ _) !! _) as [l|]; [|done]. simpl.
    destruct (l =? _); [|destruct (0 <? l)]; intros H; apply IH in H;
      (eapply only_activity_trans; [exact Hbump | exact H]).
Qed.

Lemma resolution_loop_only remaining st r st' :
  resolution_loop remaining st = Some (r, st') →
  only_activity (solver st) (solver st').
Proof.
  revert st. induction remaining as [|n IH]; intros st;
    cbn [resolution_loop].
  - intros [= <- <-]. apply only_activity_refl.
  - destruct (1 <? len (current_level_literals st)).
    2:{ intros [= <- <-]. apply only_activity_refl. }
    destruct (match find_recent _ _ with Some _ => _ | None => _ end)
      as [lit|]; [|done]. simpl.
    destruct (antecedent (solver st) !! Z.abs lit) as [ante|]; simpl.
    + destruct (resolve_antecedent _ _ _) as [st2|] eqn:Hres; [|done]. simpl.
      intros H. apply IH in H. apply resolve_antecedent_only in Hres.
      eapply only_activity_trans; [exact Hres | exact H].
    + apply IH.
Qed.

(** Conflict analysis changes activities and, through the clean-up, the
    learned clauses: these are either the ones before or what
    [clean_learned_clauses] keeps of them. *)
Lemma analyze_conflict_frame list_set c s r s' :
  analyze_conflict list_set c s = Some (r, s') →
  same_core s s' ∧ same_config s s'
  ∧ conflicts s' = conflicts s ∧ saved_phases s' = saved_phases s
  ∧ ∃ s0, learned_clauses s0 = learned_clauses s
      ∧ clause_deletion_threshold s0 = clause_deletion_threshold s
      ∧ (learned_clauses s' = learned_clauses s0
         ∨ learned_clauses s' = learned_clauses (clean_learned_clauses s0)).
Proof.
  unfold analyze_conflict. generalize max_iterations. intros n.
  destruct (initial_scan _ _) as [st0|] eqn:Hscan; [|done]. simpl.
  destruct (resolution_loop n st0) as [[remaining st1]|] eqn:Hloop; [|done].
  simpl.
  apply initial_scan_only in Hscan. apply resolution_loop_only in Hloop.
  simpl in Hscan.
  set (s1 := decay_variable_activity (solver st1)).
  assert (only_activity s s1) as (Hc & Hg & Hl & Hn & Hp).
  { eapply only_activity_trans; [exact Hscan|].
    eapply only_activity_trans; [exact Hloop|].
    apply decay_variable_activity_only. }
  set (s2 := if _ <=? _ then _ else _).
  intros [= _ <-]. subst s2.
  destruct (clean_learned_clauses_frame s1) as (Hc' & Hg' & Hn' & Hp').
  destruct (_ <=? _).
  - split; [by eapply same_core_trans|].
    split; [by eapply same_config_trans|].
    split; [congruence|]. split; [congruence|].
    exists s1. split; [done|]. split; [apply Hg|]. by right.
  - split; [done|]. split; [done|]. split; [done|]. split; [done|].
    exists s1. split; [done|]. split; [apply Hg|]. by left.
Qed.

Lemma make_decision_frame s decided s' :
  make_decision s = (decided, s') →
  same_config s s' ∧ learned_clauses s' = learned_clauses s
  ∧ conflicts s' = conflicts s ∧ saved_phases s' = saved_phases s
  ∧ antecedent s' = antecedent s ∧ activity s' = activity s.
Proof.
  unfold make_decision. destruct (filter _ _); intros [= <- <-];
    by repeat split.
Qed.

Lemma backtrack_pop_frame lvl rt s kept s' :
  backtrack_pop lvl rt s = Some (kept, s') →
  same_config s s' ∧ learned_clauses s' = learned_clauses s
  ∧ conflicts s' = conflicts s ∧ saved_phases s' = saved_phases s
  ∧ activity s' = activity s ∧ clause_activity s' = clause_activity s
  ∧ bump_value s' = bump_value s.
Proof.
  revert s. induction rt as [|var rest IH]; intros s; cbn [backtrack_pop].
  - intros [= <- <-]. by repeat split.
  - destruct (level s !! var) as [l|]; [|done]. simpl.
    destruct (lvl <? l); [|intros [= <- <-]; by repeat split].
    destruct (assignment s !! var); [|done]. simpl.
    intros H. by apply IH in H.
Qed.

Lemma backtrack_rest_frame lvl s s' :
  backtrack lvl s = Some s' →
  same_config s s' ∧ learned_clauses s' = learned_clauses s
  ∧ conflicts s' = conflicts s
  ∧ saved_phases s' = assignment s ∪ saved_phases s
  ∧ activity s' = activity s ∧ clause_activity s' = clause_activity s
  ∧ bump_value s' = bump_value s.
Proof.
  unfold backtrack.
  destruct (backtrack_pop _ _ _) as [[rt s2]|] eqn:Hpop; [|done]. simpl.
  intros [= <-]. apply backtrack_pop_frame in Hpop. simpl in *. done.
Qed.

(** ** More on unit propagation *)

Lemma sweep_unit_others a i clauses lit c :
  sweep a i clauses = SweepUnit lit c →
  ∀ l, l ∈ c → l = lit ∨ lit_false a l.
Proof.
  revert i. induction clauses as [|c0 rest IH]; intros i; simpl; [done|].
  destruct (scan_clause a c0) as [[|l1 [|l2 u]]|] eqn:Hscan; try done;
    try (by apply IH).
  intros [= <- <-] l Hl.
  destruct (scan_clause_Some _ _ _ Hscan) as [Hu Hall].
  rewrite Forall_forall in Hall. destruct (Hall l Hl) as [?|Hun]; [by right|].
  left. assert (l ∈ filter (lit_unassigned a) c0) as Hin
    by (by apply list_elem_of_filter).
  rewrite <- Hu in Hin. by apply list_elem_of_singleton in Hin.
Qed.

(** The entries of the variables that are assigned when the loop starts are
    not touched, and the trail only grows at its end. *)
Lemma unit_propagate_loop_extends fuel clauses s r s' :
  unit_propagate_loop fuel clauses s = Some (r, s') →
  (∀ v, is_Some (assignment s !! v) →
        assignment s' !! v = assignment s !! v
        ∧ level s' !! v = level s !! v
        ∧ antecedent s' !! v = antecedent s !! v)
  ∧ trail s `prefix_of` trail s'
  ∧ decision_level s' = decision_level s
  ∧ learned_clauses s' = learned_clauses s
  ∧ same_config s s'.
Proof.
  revert s. induction fuel as [|fuel IH]; intros s; simpl;
    destruct (sweep (assignment s) 0 clauses) as [idx c|lit c|] eqn:Hsweep;
    try done.
  1,3: intros [= <- <-];
       destruct (conflict_found_frame (len clauses) idx c s)
         as ((-> & -> & -> & -> & ->) & Hg & Hl & _);
       (split; [by intros|]); (split; [done|]); (split; [done|]);
       by split.
  1,3: intros [= <- <-]; (split; [by intros|]); (split; [done|]);
       (split; [done|]); (split; [done|]); apply same_config_refl.
  intros Hrun. apply IH in Hrun as (Hkeep & Hpre & Hdl & Hl & Hg).
  apply sweep_unit in Hsweep as (_ & _ & Hun).
  destruct (assign_unit_fields lit c s) as (Ha & Hlev & Hant & Ht & Hd).
  destruct (assign_unit_frame lit c s) as (Hg1 & Hl1 & _).
  split; [|split; [|split; [|split]]].
  - intros v Hv.
    assert (Z.abs lit ≠ v) as Hne.
    { intros <-. unfold lit_unassigned in Hun. rewrite Hun in Hv.
      by destruct Hv. }
    destruct (Hkeep v) as (Hk1 & Hk2 & Hk3).
    { rewrite Ha, lookup_insert_ne by done. done. }
    rewrite Hk1, Hk2, Hk3, Ha, Hlev, Hant.
    by rewrite !lookup_insert_ne by done.
  - etrans; [|exact Hpre]. rewrite Ht. by apply prefix_app_r.
  - congruence.
  - congruence.
  - by eapply same_config_trans.
Qed.

Lemma lit_false_extends (a a' : gmap Z bool) lit :
  (∀ v, is_Some (a !! v) → a' !! v = a !! v) →
  lit_false a lit → lit_false a' lit.
Proof.
  intros Hext (val & Hval & Hh). exists val. split; [|done].
  rewrite Hext; [done|]. rewrite Hval. eauto.
Qed.

(** Every variable assigned by the loop has a clause of the input as its
    antecedent: the clause holds a literal of that variable, the variable has
    the value of the sign of that literal, and all the other literals of the
    clause are false at the end. *)
Lemma unit_propagate_loop_justified fuel clauses s r s' :
  unit_propagate_loop fuel clauses s = Some (r, s') →
  ∀ v, assignment s !! v = None → is_Some (assignment s' !! v) →
    ∃ c lit, c ∈ clauses ∧ lit ∈ c ∧ Z.abs lit = v
      ∧ antecedent s' !! v = Some c
      ∧ level s' !! v = Some (decision_level s)
      ∧ assignment s' !! v = Some (0 <? lit)
      ∧ ∀ l, l ∈ c → l = lit ∨ lit_false (assignment s') l.
Proof.
  revert s. induction fuel as [|fuel IH]; intros s; simpl;
    destruct (sweep (assignment s) 0 clauses) as [idx c|lit c|] eqn:Hsweep;
    try done.
  1,3: intros [= <- <-] v Hnone Hsome;
       destruct (conflict_found_core (len clauses) idx c s) as (Ha & _);
       rewrite Ha, Hnone in Hsome; by destruct Hsome.
  1,3: intros [= <- <-] v Hnone Hsome; rewrite Hnone in Hsome;
       by destruct Hsome.
  intros Hrun v Hnone Hsome.
  pose proof (sweep_unit_others _ _ _ _ _ Hsweep) as Hothers.
  apply sweep_unit in Hsweep as (Hc & Hlit & Hun).
  destruct (assign_unit_fields lit c s) as (Ha & Hlev & Hant & Ht & Hd).
  destruct (decide (Z.abs lit = v)) as [<-|Hne].
  - apply unit_propagate_loop_extends in Hrun as (Hkeep & _).
    destruct (Hkeep (Z.abs lit)) as (Hk1 & Hk2 & Hk3).
    { rewrite Ha, lookup_insert_eq. eauto. }
    exists c, lit. split; [done|]. split; [done|]. split; [done|].
    rewrite Hk1, Hk2, Hk3, Ha, Hlev, Hant, !lookup_insert_eq.
    repeat split; try done.
    intros l Hl. destruct (Hothers l Hl) as [?|Hf]; [by left | right].
    eapply lit_false_extends; [|exact Hf].
    intros w Hw.
    assert (Z.abs lit ≠ w) as Hw'.
    { intros <-. unfold lit_unassigned in Hun. rewrite Hun in Hw.
      by destruct Hw. }
    destruct (Hkeep w) as (Hkw & _).
    { rewrite Ha, lookup_insert_ne by done. done. }
    rewrite Hkw, Ha. by rewrite lookup_insert_ne.
  - destruct (IH _ Hrun v) as (c' & lit' & H); [|done|].
    { rewrite Ha, lookup_insert_ne by done. done. }
    exists c', lit'. by rewrite <- Hd.
Qed.

Lemma unit_propagate_loop_conflicts fuel clauses s r s' :
  unit_propagate_loop fuel clauses s = Some (r, s') →
  conflicts s' = conflicts s + match r with Some _ => 1 | None => 0 end.
Proof.
  revert s. induction fuel as [|fuel IH]; intros s; simpl;
    destruct (sweep (assignment s) 0 clauses) as [idx c|lit c|] eqn:Hsweep;
    try done.
  1,3: intros [= <- <-];
       by destruct (conflict_found_frame (len clauses) idx c s)
         as (_ & _ & _ & _ & ->).
  1,3: intros [= <- <-]; lia.
  intros Hrun. apply IH in Hrun. rewrite Hrun.
  by destruct (assign_unit_frame lit c s) as (_ & _ & -> & _).
Qed.

Lemma unit_propagate_loop_done fuel clauses s s' :
  unit_propagate_loop fuel clauses s = Some (None, s') →
  sweep (assignment s') 0 clauses = SweepDone.
Proof.
  revert s. induction fuel as [|fuel IH]; intros s; simpl;
    destruct (sweep (assignment s) 0 clauses) as [idx c|lit c|] eqn:Hsweep;
    try done.
  1,3: by intros [= <-].
  apply IH.
Qed.

(** X1. [unit_propagate] only adds to the state: it returns, the entries of
    [assignment], [level] and [antecedent] of the variables assigned before
    the call are the same after it, the old trail is a prefix of the new
    one, and the decision level and the learned clauses are unchanged. *)
Theorem unit_propagate_extends clauses s :
  ∃ r s', unit_propagate clauses s = Some (r, s')
    ∧ (∀ v, is_Some (assignment s !! v) →
            assignment s' !! v = assignment s !! v
            ∧ level s' !! v = level s !! v
            ∧ antecedent s' !! v = antecedent s !! v)
    ∧ trail s `prefix_of` trail s'
    ∧ decision_level s' = decision_level s
    ∧ learned_clauses s' = learned_clauses s.
Proof.
  destruct (unit_propagate_total clauses s) as [[r s'] Hrun].
  exists r, s'. split; [done|].
  apply unit_propagate_loop_extends in Hrun as (? & ? & ? & ? & _). done.
Qed.

(** X2. Every variable that [unit_propagate] assigns gets the current
    decision level and, as antecedent, a clause of the input that contains a
    literal of the variable; the variable receives the value of the sign of
    that literal and every other literal of the clause is false under the
    assignment at return. *)
Theorem unit_propagate_justified clauses s :
  ∃ r s', unit_propagate clauses s = Some (r, s')
    ∧ ∀ v, assignment s !! v = None → is_Some (assignment s' !! v) →
        ∃ c lit, c ∈ clauses ∧ lit ∈ c ∧ Z.abs lit = v
          ∧ antecedent s' !! v = Some c
          ∧ level s' !! v = Some (decision_level s)
          ∧ assignment s' !! v = Some (0 <? lit)
          ∧ ∀ l, l ∈ c → l = lit ∨ lit_false (assignment s') l.
Proof.
  destruct (unit_propagate_total clauses s) as [[r s'] Hrun].
  exists r, s'. split; [done|].
  by eapply unit_propagate_loop_justified.
Qed.

(** X3. [unit_propagate] counts a conflict exactly when it returns one:
    [conflicts] grows by one with a returned clause and stays as it is with
    [None]. *)
Theorem unit_propagate_counts_conflict clauses s :
  ∃ r s', unit_propagate clauses s = Some (r, s')
    ∧ conflicts s' = conflicts s + match r with Some _ => 1 | None => 0 end.
Proof.
  destruct (unit_propagate_total clauses s) as [[r s'] Hrun].
  exists r, s'. split; [done|].
  by eapply unit_propagate_loop_conflicts.
Qed.

(** X4. A state in which [unit_propagate] found no conflict is a fixed
    point: a second call on the same clauses returns [None] again and leaves
    the state as it is. *)
Theorem unit_propagate_idempotent clauses s s' :
  unit_propagate clauses s = Some (None, s') →
  unit_propagate clauses s' = Some (None, s').
Proof.
  intros Hrun. apply unit_propagate_loop_done in Hrun.
  unfold unit_propagate. destruct (length (concat clauses)); simpl;
    by rewrite Hrun.
Qed.

(** ** Decisions *)

Lemma filter_none {A} (P : A → Prop) `{∀ x, Decision (P x)} (l : list A) :
  Forall (λ x, ¬ P x) l → filter P l = [].
Proof.
  induction 1 as [|x l Hx _ IH]; [done|]. by rewrite filter_cons_False.
Qed.

Lemma filter_all {A} (P : A → Prop) `{∀ x, Decision (P x)} (l : list A) :
  Forall P l → filter P l = l.
Proof.
  induction 1 as [|x l Hx _ IH]; [done|].
  rewrite filter_cons_True by done. by rewrite IH.
Qed.

Lemma unassigned_vars_nil s :
  unassigned_vars s = [] ↔ all_vars_assigned s = true.
Proof.
  unfold unassigned_vars, all_vars_assigned.
  rewrite forallb_forall. split.
  - intros Hnil v Hv. apply bool_decide_eq_true.
    destruct (assignment s !! v) eqn:Hv'; [eauto|].
    assert (v ∈ filter (λ var, assignment s !! var = None)
                  (seqZ 1 (max_var s))) as Hin
      by (apply list_elem_of_filter; split; [done | by apply list_elem_of_In]).
    rewrite Hnil in Hin. by apply elem_of_nil in Hin.
  - intros Hall. apply filter_none. apply Forall_forall.
    intros v Hv Hnone. apply list_elem_of_In, Hall in Hv.
    apply bool_decide_eq_true in Hv. rewrite Hnone in Hv. by destruct Hv.
Qed.

(** X5. [make_decision] returns [False] exactly when [all_vars_assigned]
    holds, and it then leaves the state as it is. *)
Theorem make_decision_refuses_iff_all_assigned s :
  (make_decision s).1 = negb (all_vars_assigned s)
  ∧ (all_vars_assigned s = true → make_decision s = (false, s)).
Proof.
  unfold make_decision. fold (unassigned_vars s).
  destruct (unassigned_vars s) as [|v vs] eqn:Hu.
  - assert (all_vars_assigned s = true) as Ha
      by (by apply unassigned_vars_nil).
    rewrite Ha. done.
  - assert (all_vars_assigned s = false) as Ha.
    { destruct (all_vars_assigned s) eqn:E; [|done].
      apply unassigned_vars_nil in E. congruence. }
    rewrite Ha. done.
Qed.

(** The attributes written by a decision that takes place. *)
Lemma make_decision_decides_fields s s' :
  make_decision s = (true, s') →
  ∃ v, assignment s !! v = None
    ∧ trail s' = trail s ++ [v]
    ∧ decision_level s' = decision_level s + 1
    ∧ level s' = <[v := decision_level s + 1]> (level s)
    ∧ assignment s'
      = <[v := default true (saved_phases s !! v)]> (assignment s).
Proof.
  unfold make_decision. fold (unassigned_vars s).
  destruct (unassigned_vars s) as [|v vs] eqn:Hu; [done|].
  intros [= <-].
  set (best := py_max_by _ v vs).
  pose proof (py_max_by_elem
    (λ v0, default 0%float (activity s !! v0)) v vs) as Hin.
  fold best in Hin. rewrite <- Hu in Hin.
  apply list_elem_of_filter in Hin as [Hnone _].
  exists best. by repeat split.
Qed.

(** X6. When [make_decision] returns [True], it has opened a new decision
    level and put on the trail one variable between 1 and [max_var] that was
    unassigned, with that level and with its saved phase ([True] when none
    is saved); the entries of all other variables and the antecedents are
    unchanged. *)
Theorem make_decision_decides s s' :
  make_decision s = (true, s') →
  ∃ v, 1 ≤ v ≤ max_var s ∧ assignment s !! v = None
    ∧ trail s' = trail s ++ [v]
    ∧ decision_level s' = decision_level s + 1
    ∧ level s' = <[v := decision_level s + 1]> (level s)
    ∧ assignment s'
      = <[v := default true (saved_phases s !! v)]> (assignment s)
    ∧ antecedent s' = antecedent s.
Proof.
  unfold make_decision. fold (unassigned_vars s).
  destruct (unassigned_vars s) as [|v vs] eqn:Hu; [done|].
  intros [= <-].
  set (best := py_max_by _ v vs).
  pose proof (py_max_by_elem
    (λ v0, default 0%float (activity s !! v0)) v vs) as Hin.
  fold best in Hin. rewrite <- Hu in Hin.
  apply list_elem_of_filter in Hin as [Hnone Hrange].
  apply elem_of_seqZ in Hrange.
  exists best. repeat split; try done; lia.
Qed.

Lemma initialize_activity_lookup s v :
  1 ≤ v ≤ max_var s →
  activity (initialize_activity s) !! v = Some 0%float
  ∧ saved_phases (initialize_activity s) !! v = Some false.
Proof.
  intros Hv. unfold initialize_activity. simpl.
  assert (v ∈ seqZ 1 (max_var s)) as Hin by (apply elem_of_seqZ; lia).
  revert Hin. generalize (seqZ 1 (max_var s)). intros vars Hin.
  assert (∀ {A} (x : A) (m : gmap Z A),
            v ∈ vars ∨ m !! v = Some x →
            foldl (λ m var, <[var := x]> m) m vars !! v = Some x) as Hfold.
  { intros A x. clear Hin. induction vars as [|w vars IH]; intros m; simpl.
    - intros [Hin|?]; [by apply elem_of_nil in Hin | done].
    - intros [Hin|Hm]; apply IH.
      + apply elem_of_cons in Hin as [->|Hin]; [right | by left].
        by rewrite lookup_insert_eq.
      + right. destruct (decide (w = v)) as [->|Hne].
        * by rewrite lookup_insert_eq.
        * by rewrite lookup_insert_ne. }
  split; apply Hfold; by left.
Qed.

Lemma py_max_by_first key x l :
  (∀ y, y ∈ l → PrimFloat.ltb (key x) (key y) = false) →
  py_max_by key x l = x.
Proof.
  unfold py_max_by. induction l as [|y l IH]; intros Hall; simpl; [done|].
  rewrite (Hall y) by apply list_elem_of_here.
  apply IH. intros z Hz. apply Hall. by apply list_elem_of_further.
Qed.

(** X7. On a fresh solver initialised for at least one variable, the first
    decision takes variable 1, the lowest index among equal activities, and
    gives it the value [False], the phase that [initialize_activity] saves. *)
Theorem first_decision n :
  1 ≤ n →
  ∃ s', make_decision (initialize_activity (set_max_var n CDCLSolver_init))
        = (true, s')
    ∧ trail s' = [1] ∧ assignment s' = {[1 := false]}
    ∧ level s' = {[1 := 1]} ∧ decision_level s' = 1.
Proof.
  intros Hn.
  set (s := initialize_activity (set_max_var n CDCLSolver_init)).
  assert (max_var s = n) as Hmax by done.
  assert (assignment s = ∅) as Hempty by done.
  assert (unassigned_vars s = 1 :: seqZ 2 (n - 1)) as Hu.
  { unfold unassigned_vars. rewrite Hmax, Hempty.
    rewrite filter_all by (apply Forall_forall; intros; apply lookup_empty).
    rewrite seqZ_cons by lia. f_equal. }
  assert (∀ y, 1 ≤ y ≤ n →
            activity s !! y = Some 0%float
            ∧ saved_phases s !! y = Some false) as Hlook.
  { intros y Hy. apply initialize_activity_lookup. simpl. lia. }
  unfold make_decision. fold (unassigned_vars s). rewrite Hu.
  rewrite py_max_by_first.
  2:{ intros y Hy. apply elem_of_seqZ in Hy.
      destruct (Hlook 1) as [-> _]; [lia|].
      destruct (Hlook y) as [-> _]; [lia|]. done. }
  destruct (Hlook 1) as [_ ->]; [lia|]. simpl.
  eexists. split; [reflexivity|]. simpl. by repeat split.
Qed.

(** ** More on backtracking and restarts *)

(** After [backtrack lvl] every variable on the trail has a level up to
    [lvl]. *)
Lemma backtrack_levels lvl s s' :
  solver_inv s → backtrack lvl s = Some s' →
  Forall (λ v, ∃ l, level s' !! v = Some l ∧ l ≤ lvl) (trail s')
  ∧ decision_level s' = lvl
  ∧ trail s' `prefix_of` trail s.
Proof.
  intros Hinv Hrun.
  destruct (backtrack_spec lvl s Hinv)
    as (kept & popped & s'' & Htrail & Hrun' & Ht & Hd & Ha & Hl & Hant
        & Hpop & Hkept).
  assert (s'' = s') as -> by congruence.
  destruct Hinv as (Hm & _).
  apply mutual_domain_alt in Hm as (_ & _ & _ & Hnd).
  rewrite Htrail in Hnd. apply NoDup_app in Hnd as (_ & Hdisj & _).
  split; [|split; [done|]].
  - rewrite Ht. apply Forall_forall. intros v Hv.
    rewrite Forall_forall in Hkept.
    rewrite Hl, decide_False by (by apply Hdisj). by apply Hkept.
  - rewrite Ht, Htrail. by apply prefix_app_r.
Qed.

Lemma backtrack_pop_stops lvl rt s :
  Forall (λ v, ∃ l, level s !! v = Some l ∧ l ≤ lvl) rt →
  backtrack_pop lvl rt s = Some (rt, s).
Proof.
  destruct rt as [|v rt]; [done|].
  intros Hall. apply Forall_cons in Hall as [(l & Hl & Hle) _].
  cbn [backtrack_pop]. rewrite Hl. simpl.
  by rewrite (proj2 (Z.ltb_ge lvl l)).
Qed.

(** X8. [backtrack] is idempotent: on a state that satisfies the solver
    invariant, a second [backtrack] to the same level changes nothing. *)
Theorem backtrack_idempotent lvl s s' :
  solver_inv s → backtrack lvl s = Some s' → backtrack lvl s' = Some s'.
Proof.
  intros Hinv Hrun.
  destruct (backtrack_levels lvl s s' Hinv Hrun) as (Hlev & Hdl & _).
  destruct (backtrack_rest_frame lvl s s' Hrun)
    as (_ & _ & _ & Hsaved & _).
  assert (assignment s' ⊆ assignment s) as Hsub.
  { destruct (backtrack_spec lvl s Hinv)
      as (kept & popped & s'' & _ & Hrun' & _ & _ & Ha & _).
    assert (s'' = s') as -> by congruence.
    apply map_subseteq_spec. intros v val. rewrite Ha.
    by destruct (decide (v ∈ popped)). }
  assert (assignment s' ∪ saved_phases s' = saved_phases s') as Hunion.
  { apply map_subseteq_union. rewrite Hsaved.
    etrans; [exact Hsub | apply map_union_subseteq_l]. }
  unfold backtrack. rewrite Hunion.
  rewrite backtrack_pop_stops.
  2:{ apply Forall_reverse. simpl. exact Hlev. }
  simpl. rewrite reverse_involutive. f_equal.
  destruct s'. simpl in *. by subst.
Qed.

(** X9. Phase saving: [backtrack] records the value of every assigned
    variable in [saved_phases], so when the next decision takes a variable
    that the backtrack has unassigned, the variable gets the value it had
    before the backtrack. *)
Theorem phase_saving lvl s s1 s2 v val :
  backtrack lvl s = Some s1 →
  make_decision s1 = (true, s2) →
  assignment s !! v = Some val →
  assignment s1 !! v = None →
  is_Some (assignment s2 !! v) →
  saved_phases s1 !! v = Some val ∧ assignment s2 !! v = Some val.
Proof.
  intros Hback Hdec Hval Hnone Hsome.
  destruct (backtrack_rest_frame lvl s s1 Hback)
    as (_ & _ & _ & Hsaved & _).
  assert (saved_phases s1 !! v = Some val) as Hphase.
  { rewrite Hsaved. by apply lookup_union_Some_l. }
  split; [done|].
  revert Hdec Hsome. unfold make_decision.
  destruct (filter _ _) as [|w ws]; [done|]. intros [= <-]. simpl.
  set (best := py_max_by _ w ws).
  destruct (decide (best = v)) as [->|Hne].
  - intros _. by rewrite lookup_insert_eq, Hphase.
  - rewrite lookup_insert_ne, Hnone by done. by intros [? ?].
Qed.

Lemma py_index_last {A} (l : list A) x : py_index (l ++ [x]) (-1) = Some x.
Proof.
  unfold py_index, len. rewrite length_app. simpl.
  replace (0 <=? Z.of_nat (length l + 1) + -1) with true
    by (symmetry; apply Z.leb_le; lia).
  replace (Z.to_nat (Z.of_nat (length l + 1) + -1)) with (length l) by lia.
  by rewrite lookup_app_r, Nat.sub_diag by lia.
Qed.

Lemma next_luby_seq_appends luby luby' :
  next_luby_seq luby = Some luby' → ∃ x, luby' = luby ++ [x].
Proof.
  unfold next_luby_seq. destruct (_ =? 0); [intros [= <-]; eauto|].
  destruct (py_index _ _) as [x|]; [|done]. simpl. intros [= <-]. eauto.
Qed.

Lemma perform_restart_spec s :
  solver_inv s →
  ∃ s1 x, backtrack 0 s = Some s1
    ∧ next_luby_seq (luby_sequence s) = Some (luby_sequence s ++ [x])
    ∧ perform_restart s
      = Some (set_conflicts 0
                (set_luby_sequence (luby_sequence s ++ [x])
                   (set_restarts (restarts s1 + 1) s1))).
Proof.
  intros Hinv.
  destruct (backtrack_spec 0 s Hinv) as (_ & _ & s1 & _ & Hb & _).
  destruct (backtrack_rest_frame 0 s s1 Hb) as ((_ & Hluby & _) & _).
  destruct (next_luby_seq_total (luby_sequence s)) as [luby' Hnext].
  destruct (next_luby_seq_appends _ _ Hnext) as [x ->].
  exists s1, x. split; [done|]. split; [done|].
  unfold perform_restart. rewrite Hb. simpl.
  unfold next_luby. simpl. rewrite Hluby, Hnext. simpl.
  by rewrite py_index_last.
Qed.

(** X10. On a state that satisfies the solver invariant, [perform_restart]
    returns: the decision level and the conflict counter are 0, [restarts]
    has grown by one and [luby_sequence] by one element, only entries of
    level 0 remain on the trail, and the learned clauses and the variable
    activities are the ones before the restart. *)
Theorem perform_restart_effect s :
  solver_inv s →
  ∃ s' x, perform_restart s = Some s'
    ∧ decision_level s' = 0 ∧ conflicts s' = 0
    ∧ restarts s' = restarts s + 1
    ∧ luby_sequence s' = luby_sequence s ++ [x]
    ∧ trail s' `prefix_of` trail s
    ∧ Forall (λ v, ∃ l, level s' !! v = Some l ∧ l ≤ 0) (trail s')
    ∧ learned_clauses s' = learned_clauses s
    ∧ activity s' = activity s.
Proof.
  intros Hinv.
  destruct (perform_restart_spec s Hinv) as (s1 & x & Hb & _ & Hrun).
  destruct (backtrack_levels 0 s s1 Hinv Hb) as (Hlev & Hdl & Hpre).
  destruct (backtrack_rest_frame 0 s s1 Hb)
    as ((_ & _ & _ & Hr & _) & Hl & _ & _ & Ha & _).
  eexists _, x. split; [exact Hrun|]. simpl.
  rewrite Hr, Hl, Ha. by repeat split.
Qed.

(** The Luby list holds only ones, and [luby_base] is 100, in every
    reachable state. *)
Lemma step_luby s s' :
  step s s' →
  Forall (λ x, x = 1) (luby_sequence s) ∧ luby_sequence s ≠ []
  ∧ luby_base s = 100 →
  Forall (λ x, x = 1) (luby_sequence s') ∧ luby_sequence s' ≠ []
  ∧ luby_base s' = 100.
Proof.
  intros Hstep (Hones & Hne & Hbase). destruct Hstep.
  - apply unit_propagate_loop_extends in H as (_ & _ & _ & _ & Hg).
    destruct Hg as (_ & -> & -> & _). done.
  - apply make_decision_frame in H as ((_ & -> & -> & _) & _). done.
  - apply backtrack_rest_frame in H as ((_ & -> & -> & _) & _). done.
  - revert H. unfold perform_restart.
    destruct (backtrack 0 s) as [s1|] eqn:Hb; [|done]. simpl.
    apply backtrack_rest_frame in Hb as ((_ & Hl & Hlb & _) & _).
    unfold next_luby. simpl. rewrite Hl.
    destruct (next_luby_seq _) as [luby|] eqn:Hnext; [|done]. simpl.
    destruct (py_index luby (-1)); [|done]. simpl. intros [= <-]. simpl.
    destruct (next_luby_seq_ones _ _ Hones Hnext) as [Hones' Hlen].
    split; [done|]. split; [|congruence].
    intros ->. simpl in Hlen. lia.
  - apply analyze_conflict_frame in H as (_ & (_ & -> & -> & _) & _). done.
  - done.
  - done.
  - done.
Qed.

Lemma reachable_luby s :
  reachable s →
  Forall (λ x, x = 1) (luby_sequence s) ∧ luby_sequence s ≠ []
  ∧ luby_base s = 100.
Proof.
  unfold reachable.
  assert (∀ s0, rtc step s0 s →
            Forall (λ x, x = 1) (luby_sequence s0) ∧ luby_sequence s0 ≠ []
            ∧ luby_base s0 = 100 →
            Forall (λ x, x = 1) (luby_sequence s) ∧ luby_sequence s ≠ []
            ∧ luby_base s = 100) as Hrtc.
  { induction 1 as [|s1 s2 s3 Hstep _ IH]; [done|].
    intros H. apply IH. by eapply step_luby. }
  intros H. apply (Hrtc _ H). simpl. repeat split; [|done].
  by constructor.
Qed.

(** X11. In every reachable state the restart test is [conflicts >= 100]:
    the factor taken from [luby_sequence] is always 1, so the solver
    restarts after every 100 conflicts. *)
Theorem restart_interval_constant s :
  reachable s → should_restart s = Some (100 <=? conflicts s).
Proof.
  intros Hreach. destruct (reachable_luby s Hreach) as (Hones & Hne & Hbase).
  unfold should_restart. rewrite Hbase.
  destruct (luby_sequence s) as [|x l _] using rev_ind; [done|].
  rewrite py_index_last. simpl.
  apply Forall_app in Hones as [_ Hx]. apply Forall_singleton in Hx as ->.
  done.
Qed.

(** ** The clean-up of the learned clauses *)

Lemma insert_desc_perm {A} (key : A → float) x (l : list A) :
  insert_desc key x l ≡ₚ x :: l.
Proof.
  induction l as [|y l IH]; simpl; [done|].
  destruct (PrimFloat.ltb _ _); [done|].
  rewrite IH. apply Permutation_swap.
Qed.

Lemma sorted_desc_perm {A} (key : A → float) (l : list A) :
  sorted_desc key l ≡ₚ l.
Proof.
  unfold sorted_desc.
  assert (∀ acc, foldl (λ acc x, insert_desc key x acc) acc l ≡ₚ acc ++ l)
    as H.
  { induction l as [|x l IH]; intros acc; simpl.
    - by rewrite app_nil_r.
    - rewrite IH, insert_desc_perm. simpl. apply Permutation_middle. }
  apply H.
Qed.

Lemma indexed_snd (l : list clause) :
  (imap (λ i c, (Z.of_nat i, c)) l).*2 = l.
Proof.
  rewrite fmap_imap.
  rewrite (imap_ext _ (const id)) by done.
  rewrite imap_const. apply list_fmap_id.
Qed.

(** X12. [clean_learned_clauses] does nothing while the number of learned
    clauses is within the threshold. Above it, it keeps
    [max(len // 3, 50)] of them (all of them when there are fewer): each
    kept clause is one of the clauses before, as often at most as it
    occurred, and the clause activities are renumbered from 0 to the number
    of kept clauses. *)
Theorem clean_learned_clauses_keeps s :
  (len (learned_clauses s) ≤ clause_deletion_threshold s →
   clean_learned_clauses s = s)
  ∧ (clause_deletion_threshold s < len (learned_clauses s) →
     learned_clauses (clean_learned_clauses s) ⊆+ learned_clauses s
     ∧ len (learned_clauses (clean_learned_clauses s))
       = Z.min (Z.max (len (learned_clauses s) `div` 3) 50)
               (len (learned_clauses s))
     ∧ ∀ i, is_Some (clause_activity (clean_learned_clauses s) !! i)
            ↔ 0 ≤ i < len (learned_clauses (clean_learned_clauses s))).
Proof.
  unfold clean_learned_clauses. split.
  - intros Hle. by rewrite (proj2 (Z.leb_le _ _) Hle).
  - intros Hgt. rewrite (proj2 (Z.leb_gt _ _) Hgt). simpl.
    set (indexed := imap (λ i c, (Z.of_nat i, c)) (learned_clauses s)).
    set (sorted := sorted_desc _ indexed).
    set (k := Z.to_nat _).
    assert (length sorted = length (learned_clauses s)) as Hlen.
    { unfold sorted. rewrite sorted_desc_perm. unfold indexed.
      by rewrite length_imap. }
    split; [|split].
    + etrans; [apply fmap_submseteq, submseteq_take|].
      unfold sorted. rewrite sorted_desc_perm. unfold indexed.
      by rewrite indexed_snd.
    + unfold len. rewrite length_fmap, length_take, Hlen.
      unfold k, len. lia.
    + intros i. unfold len. rewrite length_fmap.
      rewrite <- not_eq_None_Some. rewrite <- not_elem_of_list_to_map.
      rewrite fmap_imap.
      rewrite (imap_ext _ (λ j _, Z.of_nat j)) by done.
      rewrite imap_seq_0. split.
      * intros Hin. destruct (decide (0 ≤ i < Z.of_nat (length (take k sorted))))
          as [|Hout]; [done|].
        exfalso. apply Hin. intros Hel.
        apply list_elem_of_fmap in Hel as (j & -> & Hj).
        apply elem_of_seq in Hj. lia.
      * intros Hi Hnot. apply Hnot.
        apply list_elem_of_fmap. exists (Z.to_nat i).
        split; [lia|]. apply elem_of_seq. lia.
Qed.

(** ** More on the reader *)






Lemma parse_line_None acc raw :
  parse_line acc raw = None ↔ bad_problem_line raw.
Proof.
  unfold parse_line, bad_problem_line.
  set (line := strip _).
  destruct (startswith "p cnf" line).
  - destruct (4 <=? len (split line)) eqn:Hlen.
    + apply Z.leb_le in Hlen.
      destruct (split line !! 2%nat) as [tok|]; simpl.
      * destruct (py_int tok); simpl.
        -- split; [done|]. by intros (_ & _ & ?).
        -- by split.
      * by split.
    + apply Z.leb_gt in Hlen. split; [done|]. intros (_ & ? & _). lia.
  - split; [|by intros [? _]].
    destruct (is_clause_line line); [|done].
    by destruct (mapM py_int _) as [[|? ?]|].
Qed.

Lemma parse_lines_None acc lines :
  parse_lines acc lines = None ↔ Exists bad_problem_line lines.
Proof.
  revert acc. induction lines as [|raw rest IH]; intros acc; simpl.
  - split; [done|]. intros H. by apply Exists_nil in H.
  - rewrite Exists_cons.
    destruct (parse_line acc raw) as [acc'|] eqn:Hline; simpl.
    + rewrite IH. split; [by right|]. intros [Hbad|?]; [|done].
      apply (parse_line_None acc) in Hbad. congruence.
    + split; [|done]. intros _. left. by eapply parse_line_None.
Qed.

(** X14. [parse_cnf_file] raises exactly when some line is a problem line
    ([p cnf ...]) with at least four fields whose variable count is not an
    integer; no other content of a file makes it raise. *)
Theorem parse_cnf_file_raises_iff lines :
  parse_cnf_file lines = None ↔ Exists bad_problem_line lines.
Proof. apply parse_lines_None. Qed.

Lemma parse_line_comment_or_blank acc raw :
  comment_or_blank raw → parse_line acc raw = Some acc.
Proof.
  unfold comment_or_blank, parse_line, is_clause_line, startswith.
  set (line := strip _). intros [Hc| ->]; [|done].
  apply bool_decide_eq_true in Hc.
  destruct line as [|ch rest]; [by apply prefix_nil_not in Hc|].
  apply prefix_cons_inv_1 in Hc as <-.
  rewrite bool_decide_eq_false_2.
  2:{ intros Hp. by apply prefix_cons_inv_1 in Hp. }
  rewrite (bool_decide_eq_true_2 (_ `prefix_of` _)); [done|].
  apply prefix_cons, prefix_nil.
Qed.

(** X15. Comment lines (the stripped line starts with [c]) and blank lines
    are passed over: the file reads as the file without such a line. *)
Theorem parse_cnf_file_skips_comments l1 raw l2 :
  comment_or_blank raw →
  parse_cnf_file (l1 ++ raw :: l2) = parse_cnf_file (l1 ++ l2).
Proof.
  intros Hraw. unfold parse_cnf_file. rewrite !parse_lines_app.
  destruct (parse_lines _ l1) as [acc|]; [|done]. simpl.
  by rewrite parse_line_comment_or_blank.
Qed.


Lemma parse_line_one_clause acc raw acc' :
  parse_line acc raw = Some acc' →
  (length acc'.1 ≤ length acc.1 + 1)%nat.
Proof.
  unfold parse_line.
  destruct (startswith "p cnf" _).
  - destruct (4 <=? _); [|intros [= <-]; lia].
    destruct (_ !! _) as [tok|]; [|done]. simpl.
    destruct (py_int tok); [|done]. simpl. intros [= <-]. simpl. lia.
  - destruct (is_clause_line _); [|intros [= <-]; lia].
    destruct (mapM py_int _) as [[|lit c]|]; intros [= <-]; simpl;
      rewrite ?length_app; simpl; lia.
Qed.

Lemma parse_lines_one_clause lines acc acc' :
  parse_lines acc lines = Some acc' →
  (length acc'.1 ≤ length acc.1 + length lines)%nat.
Proof.
  revert acc. induction lines as [|raw rest IH]; intros acc; simpl.
  - intros [= <-]. lia.
  - destruct (parse_line acc raw) as [acc1|] eqn:Hline; [|done]. simpl.
    intros Hrest. apply IH in Hrest. apply parse_line_one_clause in Hline.
    lia.
Qed.

(** X22. A line gives at most one clause: the reader never returns more
    clauses than the file has lines (a [0] inside a line does not end a
    clause, and a clause does not run over several lines). *)
Theorem parse_cnf_file_one_clause_per_line lines clauses num_vars :
  parse_cnf_file lines = Some (clauses, num_vars) →
  (length clauses ≤ length lines)%nat.
Proof.
  intros H. apply parse_lines_one_clause in H. simpl in H. lia.
Qed.
(** ** The driver: one round at a time *)

Lemma solve_loop_round list_set deadline clauses s :
  solve_loop list_set (S deadline) clauses s
  = (r ← round list_set clauses s;
     match r with
     | RoundExit e s' => Some (e, s')
     | RoundNext s' => solve_loop list_set deadline clauses s'
     end).
Proof.
  cbn [solve_loop]. unfold round.
  destruct (should_restart s) as [restart|]; [|done]. simpl.
  destruct (if restart then perform_restart s else Some s) as [s1|]; [|done].
  simpl.
  destruct (unit_propagate _ s1) as [[conflict s2]|]; [|done]. simpl.
  assert ((if all_satisfied (assignment s2) clauses
           then Some (ExitSatisfied, s2)
           else let '(decided, s3) := make_decision s2 in
                if decided then solve_loop list_set deadline clauses s3
                else Some (ExitNoDecision, s3))
          = (r ← (if all_satisfied (assignment s2) clauses
                  then Some (RoundExit ExitSatisfied s2)
                  else let '(decided, s3) := make_decision s2 in
                       if decided then Some (RoundNext s3)
                       else Some (RoundExit ExitNoDecision s3));
             match r with
             | RoundExit e s' => Some (e, s')
             | RoundNext s' => solve_loop list_set deadline clauses s'
             end)) as Helse.
  { destruct (all_satisfied _ _); [done|].
    by destruct (make_decision s2) as [[] s3]. }
  destruct conflict as [[|lit c]|]; [exact Helse | | exact Helse].
  destruct (decision_level s2 =? 0); [done|].
  destruct (analyze_conflict _ _ _) as [[[lvl lc] s3]|]; [|done]. simpl.
  unfold learn_clause.
  destruct (backtrack lvl s3) as [s4|]; done.
Qed.

(** *** The invariant of the driver *)

Lemma same_core_driver_inv s s' :
  same_core s s' → luby_sequence s' = luby_sequence s →
  driver_inv s → driver_inv s'.
Proof.
  intros Hcore Hluby (Hinv & Hant & Hnn & Hne).
  split; [by eapply same_core_inv|].
  destruct Hcore as (Ha & Hl & Han & Ht & Hd).
  unfold antecedents_assigned, levels_nonneg.
  rewrite Hl, Han, Hd, Hluby. done.
Qed.

Lemma driver_inv_init : driver_inv CDCLSolver_init.
Proof.
  split; [apply solver_inv_init|]. repeat split; try done.
Qed.

Lemma solve_start_driver_inv clauses : driver_inv (solve_start clauses CDCLSolver_init).
Proof.
  eapply same_core_driver_inv; [| |apply driver_inv_init]; by repeat split.
Qed.

(** A false literal names a variable with a level between 0 and the
    decision level. *)
Lemma lit_false_level s lit :
  driver_inv s → lit_false (assignment s) lit →
  ∃ l, level s !! Z.abs lit = Some l ∧ 0 ≤ l ≤ decision_level s.
Proof.
  intros ((Hm & _ & Hb) & _ & (_ & Hnn) & _) (val & Hval & _).
  apply mutual_domain_alt in Hm as (_ & Hml & _).
  destruct (proj2 (Hml (Z.abs lit))) as [l Hl]; [eauto|].
  exists l. split; [done|]. split; [by eapply Hnn | by eapply Hb].
Qed.

Lemma assign_unit_driver_inv lit c s :
  driver_inv s → lit_unassigned (assignment s) lit →
  (∀ l, l ∈ c → l = lit ∨ lit_false (assignment s) l) →
  driver_inv (assign_unit lit c s).
Proof.
  intros Hdrv Hun Hothers.
  pose proof Hdrv as (Hinv & Hant & (Hdl0 & Hnn) & Hne).
  destruct (assign_unit_fields lit c s) as (Ha & Hl & Han & Ht & Hd).
  destruct (assign_unit_frame lit c s) as ((_ & Hluby & _) & _).
  assert (level s !! Z.abs lit = None) as Hlnone.
  { destruct Hinv as (Hm & _). apply mutual_domain_alt in Hm as (_ & Hml & _).
    apply eq_None_not_Some. intros H. apply Hml in H.
    unfold lit_unassigned in Hun. rewrite Hun in H. by destruct H. }
  split; [by apply assign_unit_inv|]. split; [|split].
  - intros w cw l. rewrite Han, Hl.
    destruct (decide (Z.abs lit = w)) as [<-|Hne'].
    + rewrite lookup_insert_eq. intros [= <-] Hin.
      destruct (Hothers l Hin) as [->|Hf].
      * exists (decision_level s), (decision_level s).
        rewrite lookup_insert_eq. repeat split; lia.
      * destruct (lit_false_level s l Hdrv Hf) as (ll & Hll & Hrange).
        exists ll, (decision_level s). rewrite lookup_insert_eq.
        rewrite lookup_insert_ne by (intros Heq; congruence).
        repeat split; [done|lia].
    + rewrite lookup_insert_ne by done. intros Hw Hin.
      destruct (Hant w cw l Hw Hin) as (ll & lw & Hll & Hlw & Hle).
      exists ll, lw.
      rewrite !lookup_insert_ne by (intros Heq; congruence). done.
  - split; [by rewrite Hd|]. intros v l. rewrite Hl.
    destruct (decide (Z.abs lit = v)) as [<-|Hne'].
    + rewrite lookup_insert_eq. by intros [= <-].
    + rewrite lookup_insert_ne by done. apply Hnn.
  - by rewrite Hluby.
Qed.

Lemma unit_propagate_loop_driver_inv fuel clauses s r s' :
  driver_inv s → unit_propagate_loop fuel clauses s = Some (r, s') →
  driver_inv s'.
Proof.
  revert s. induction fuel as [|fuel IH]; intros s Hdrv; simpl;
    destruct (sweep (assignment s) 0 clauses) as [idx c|lit c|] eqn:Hsweep;
    try done.
  1,3: intros [= <- <-];
       destruct (conflict_found_frame (len clauses) idx c s)
         as (Hc & (_ & Hluby & _) & _);
       by eapply same_core_driver_inv.
  1,3: by intros [= <- <-].
  apply IH.
  pose proof (sweep_unit_others _ _ _ _ _ Hsweep) as Hothers.
  apply sweep_unit in Hsweep as (_ & _ & Hun).
  by apply assign_unit_driver_inv.
Qed.

Lemma make_decision_driver_inv s decided s' :
  driver_inv s → make_decision s = (decided, s') → driver_inv s'.
Proof.
  intros (Hinv & Hant & (Hdl0 & Hnn) & Hne) Hdec.
  split; [by eapply make_decision_inv|].
  pose proof (make_decision_frame _ _ _ Hdec)
    as ((_ & Hluby & _) & _ & _ & _ & Han & _).
  destruct decided.
  - destruct (make_decision_decides_fields s s' Hdec)
      as (v & Hnone & Ht & Hd & Hl & Ha).
    destruct Hinv as (Hm & _ & _).
    apply mutual_domain_alt in Hm as (_ & Hml & _).
    assert (level s !! v = None) as Hlnone.
    { apply eq_None_not_Some. intros H. apply Hml in H.
      rewrite Hnone in H. by destruct H. }
    split; [|split].
    + intros w cw l. rewrite Han, Hl. intros Hw Hin.
      destruct (Hant w cw l Hw Hin) as (ll & lw & Hll & Hlw & Hle).
      exists ll, lw.
      rewrite !lookup_insert_ne by (intros Heq; congruence). done.
    + split; [lia|]. intros w l. rewrite Hl.
      destruct (decide (v = w)) as [<-|Hne'].
      * rewrite lookup_insert_eq. intros [= <-]. lia.
      * rewrite lookup_insert_ne by done. apply Hnn.
    + by rewrite Hluby.
  - revert Hdec. unfold make_decision.
    destruct (filter _ _); [|done]. by intros [= <-].
Qed.

Lemma backtrack_driver_inv lvl s s' :
  0 ≤ lvl → driver_inv s → backtrack lvl s = Some s' → driver_inv s'.
Proof.
  intros Hlvl (Hinv & Hant & (Hdl0 & Hnn) & Hne) Hrun.
  split; [by eapply backtrack_inv|].
  destruct (backtrack_spec lvl s Hinv)
    as (kept & popped & s'' & Htrail & Hrun' & Ht & Hd & Ha & Hl & Han
        & Hpop & Hkept).
  assert (s'' = s') as -> by congruence.
  destruct (backtrack_rest_frame lvl s s' Hrun) as ((_ & Hluby & _) & _).
  pose proof Hinv as (Hm & _ & _).
  apply mutual_domain_alt in Hm as (Hmt & Hml & Hma & Hnd).
  split; [|split].
  - intros w cw l. rewrite Han.
    destruct (decide (w ∈ popped)) as [|Hw]; [done|]. intros Hcw Hin.
    destruct (Hant w cw l Hcw Hin) as (ll & lw & Hll & Hlw & Hle).
    assert (lw ≤ lvl) as Hlw'.
    { assert (w ∈ trail s) as Hwt by (apply Hmt, Hma; eauto).
      rewrite Htrail in Hwt. apply elem_of_app in Hwt as [Hk|?]; [|done].
      rewrite Forall_forall in Hkept.
      destruct (Hkept w Hk) as (lw' & Hlw'' & ?). congruence. }
    exists ll, lw. rewrite !Hl, (decide_False (P := w ∈ popped)) by done.
    rewrite decide_False; [done|].
    intros Hp. rewrite Forall_forall in Hpop.
    destruct (Hpop _ Hp) as (l' & Hl' & Hgt). assert (l' = ll) by congruence.
    lia.
  - split; [by rewrite Hd|]. intros v l. rewrite Hl.
    destruct (decide (v ∈ popped)); [done | apply Hnn].
  - by rewrite Hluby.
Qed.

Lemma perform_restart_driver_inv s :
  driver_inv s → ∃ s', perform_restart s = Some s' ∧ driver_inv s'.
Proof.
  intros Hdrv. pose proof Hdrv as (Hinv & _).
  destruct (perform_restart_spec s Hinv) as (s1 & x & Hb & _ & ->).
  eexists. split; [done|].
  pose proof (backtrack_driver_inv 0 s s1 (Z.le_refl 0) Hdrv Hb)
    as (Hinv1 & Hant1 & Hnn1 & _).
  split; [|split; [|split]].
  - eapply same_core_inv; [|exact Hinv1]. by repeat split.
  - exact Hant1.
  - exact Hnn1.
  - simpl. by destruct (luby_sequence s).
Qed.

(** *** Conflict analysis raises no [KeyError] *)

Lemma levels_known_core s s' : same_core s s' → levels_known s → levels_known s'.
Proof.
  intros (Ha & Hl & _) H. unfold levels_known. by rewrite Ha, Hl.
Qed.

Lemma initial_scan_total lits st :
  levels_known (solver st) → is_Some (initial_scan lits st).
Proof.
  revert st. induction lits as [|lit rest IH]; intros st Hk;
    cbn [initial_scan]; [eauto|].
  destruct (assignment (solver st) !! Z.abs lit) eqn:Ha; [|by apply IH].
  destruct (Hk (Z.abs lit)) as [l Hl]; [eauto|]. rewrite Hl. simpl.
  destruct (l =? _); apply IH; simpl; [|done].
  eapply levels_known_core; [apply bump_variable_activity_core | done].
Qed.

Lemma resolve_antecedent_total var ante st :
  Forall (λ lit, is_Some (level (solver st) !! Z.abs lit)) ante →
  is_Some (resolve_antecedent var ante st).
Proof.
  revert st. induction ante as [|ant_lit rest IH]; intros st Hall;
    cbn [resolve_antecedent]; [eauto|].
  apply Forall_cons in Hall as [[l Hl] Hrest].
  destruct (decide _); [|by apply IH].
  destruct (bump_variable_activity_core (Z.abs ant_lit) (solver st))
    as (_ & Hlev & _).
  rewrite Hlev, Hl. simpl.
  destruct (l =? _); [|destruct (0 <? l)]; apply IH; simpl; by rewrite Hlev.
Qed.

Lemma resolution_loop_total remaining st :
  antecedents_assigned (solver st) →
  is_Some (resolution_loop remaining st).
Proof.
  revert st. induction remaining as [|n IH]; intros st Hant;
    cbn [resolution_loop]; [eauto|].
  destruct (1 <? len (current_level_literals st)) eqn:Hlen; [|eauto].
  assert (is_Some (match find_recent (trail (solver st))
                           (current_level_literals st) with
                   | Some recent_var => Some recent_var
                   | None => py_index (current_level_literals st) (-1)
                   end)) as [lit ->].
  { destruct (find_recent _ _); [eauto|].
    destruct (current_level_literals st) as [|x l _] using rev_ind;
      [done|].
    rewrite py_index_last. eauto. }
  simpl.
  destruct (antecedent (solver st) !! Z.abs lit) as [ante|] eqn:Hante.
  - destruct (resolve_antecedent_total (Z.abs lit) ante
                (mkAnalysis (seen st)
                   (list_remove_first lit (current_level_literals st))
                   (learned st) (solver st))) as [st2 Hres].
    { apply Forall_forall. intros l Hl. simpl.
      destruct (Hant _ _ _ Hante Hl) as (ll & _ & Hll & _). eauto. }
    rewrite Hres. simpl. apply IH.
    apply resolve_antecedent_core in Hres as (_ & Hl & Han & _).
    simpl in *. unfold antecedents_assigned. by rewrite Hl, Han.
  - simpl. by apply IH.
Qed.

Lemma analyze_conflict_total list_set c s :
  driver_inv s → is_Some (analyze_conflict list_set c s).
Proof.
  intros ((Hm & _) & Hant & _).
  apply mutual_domain_alt in Hm as (_ & Hml & _).
  unfold analyze_conflict. generalize max_iterations. intros n.
  destruct (initial_scan_total c (mkAnalysis ∅ [] c s)) as [st0 Hscan].
  { intros v Hv. by apply Hml. }
  rewrite Hscan. simpl.
  destruct (resolution_loop_total n st0) as [[remaining st1] Hloop].
  { apply initial_scan_core in Hscan as (_ & Hl & Han & _).
    simpl in *. unfold antecedents_assigned. by rewrite Hl, Han. }
  rewrite Hloop. simpl. eauto.
Qed.

Lemma analyze_conflict_level_nonneg list_set c s bl final s' :
  analyze_conflict list_set c s = Some ((bl, final), s') → 0 ≤ bl.
Proof.
  intros H. apply analyze_conflict_shape in H as (_ & learned1 & -> & _).
  rewrite compute_back_level_max. apply max_level_below_nonneg.
Qed.

Lemma learn_clause_driver_inv lvl c s :
  0 ≤ lvl → driver_inv s →
  ∃ s', learn_clause lvl c s = Some s' ∧ driver_inv s'.
Proof.
  intros Hlvl Hdrv. pose proof Hdrv as (Hinv & _).
  destruct (backtrack_spec lvl s Hinv) as (_ & _ & s1 & _ & Hb & _).
  unfold learn_clause. rewrite Hb. simpl. eexists. split; [done|].
  eapply same_core_driver_inv; [| |by eapply backtrack_driver_inv];
    by repeat split.
Qed.

(** One round does not raise, and it keeps the invariant. *)
Lemma round_driver_inv list_set clauses s :
  driver_inv s →
  ∃ r, round list_set clauses s = Some r
    ∧ match r with
      | RoundExit _ s' | RoundNext s' => driver_inv s'
      end.
Proof.
  intros Hdrv. unfold round.
  assert (is_Some (should_restart s)) as [restart ->].
  { unfold should_restart. destruct Hdrv as (_ & _ & _ & Hne).
    destruct (luby_sequence s) as [|x l _] using rev_ind; [done|].
    rewrite py_index_last. simpl. eauto. }
  simpl.
  assert (∃ s1, (if restart then perform_restart s else Some s) = Some s1
                ∧ driver_inv s1) as (s1 & -> & Hdrv1).
  { destruct restart; [by apply perform_restart_driver_inv | eauto]. }
  simpl.
  destruct (unit_propagate_total (clauses ++ learned_clauses s1) s1)
    as [[conflict s2] Hup].
  rewrite Hup. simpl.
  pose proof (unit_propagate_loop_driver_inv _ _ _ _ _ Hdrv1 Hup) as Hdrv2.
  assert (∃ r, (if all_satisfied (assignment s2) clauses
                then Some (RoundExit ExitSatisfied s2)
                else let '(decided, s3) := make_decision s2 in
                     if decided then Some (RoundNext s3)
                     else Some (RoundExit ExitNoDecision s3)) = Some r
               ∧ match r with
                 | RoundExit _ s' | RoundNext s' => driver_inv s'
                 end) as Helse.
  { destruct (all_satisfied _ _); [eauto|].
    destruct (make_decision s2) as [decided s3] eqn:Hdec.
    pose proof (make_decision_driver_inv _ _ _ Hdrv2 Hdec).
    destruct decided; eauto. }
  destruct conflict as [[|lit c]|]; [exact Helse | | exact Helse].
  destruct (decision_level s2 =? 0); [eauto|].
  destruct (analyze_conflict_total list_set (lit :: c) s2 Hdrv2)
    as [[[lvl lc] s3] Han].
  rewrite Han. simpl.
  pose proof (analyze_conflict_level_nonneg _ _ _ _ _ _ Han) as Hlvl.
  assert (driver_inv s3) as Hdrv3.
  { destruct (analyze_conflict_frame _ _ _ _ _ Han)
      as (Hcore & (_ & Hluby & _) & _).
    by eapply same_core_driver_inv. }
  destruct (learn_clause_driver_inv lvl lc s3 Hlvl Hdrv3) as (s4 & -> & Hdrv4).
  simpl. eauto.
Qed.

Lemma solve_loop_total list_set deadline clauses s :
  driver_inv s →
  ∃ e s', solve_loop list_set deadline clauses s = Some (e, s')
    ∧ driver_inv s'.
Proof.
  revert s. induction deadline as [|d IH]; intros s Hdrv.
  - simpl. eauto.
  - rewrite solve_loop_round.
    destruct (round_driver_inv list_set clauses s Hdrv) as (r & -> & Hr).
    simpl. destruct r as [e s'|s']; [eauto | by apply IH].
Qed.

(** X16. Started on a fresh solver, [solve] raises no exception: whatever
    the clauses, the deadline and the order of [list(set(...))], no lookup
    [self.level[...]], [del self.assignment[...]] or list index fails, and a
    value is returned. *)
Theorem solve_never_raises list_set deadline clauses :
  ∃ e s', solve list_set deadline clauses CDCLSolver_init = Some (e, s').
Proof.
  unfold solve. fold (solve_start clauses CDCLSolver_init).
  destruct (existsb _ _); [eauto|].
  destruct (solve_loop_total list_set deadline clauses
              (solve_start clauses CDCLSolver_init)
              (solve_start_driver_inv clauses)) as (e & s' & H & _).
  eauto.
Qed.

(** *** Soundness of the answers *)

Lemma lit_holds_sign lit val : lit_holds lit val = true → val = (0 <? lit).
Proof.
  unfold lit_holds.
  destruct (0 <? lit) eqn:Hpos, (lit <? 0) eqn:Hneg, val; simpl; try done.
  apply Z.ltb_lt in Hpos, Hneg. lia.
Qed.

Lemma subclause_satisfied M c0 c :
  subclause c0 c → model_satisfies M c0 → model_satisfies M c.
Proof.
  unfold model_satisfies. rewrite !Exists_exists.
  intros Hsub (lit & Hin & Hh). exists lit. split; [by apply Hsub | done].
Qed.

Lemma all_clauses_implied clauses s c :
  learned_subsumed clauses s → c ∈ clauses ++ learned_clauses s →
  implied_by clauses c.
Proof.
  intros Hsub Hin M HM. rewrite Forall_forall in HM.
  apply elem_of_app in Hin as [Hin|Hin]; [by apply HM|].
  destruct (Hsub c Hin) as (c0 & Hc0 & Hsc).
  eapply subclause_satisfied; [exact Hsc | by apply HM].
Qed.

Lemma unit_propagate_result clauses s r s' :
  unit_propagate clauses s = Some (r, s') →
  match r with
  | Some c => c ∈ clauses ∧ Forall (lit_false (assignment s')) c
  | None => propagation_fixed_point (assignment s') clauses
  end.
Proof.
  intros Hrun.
  destruct (unit_propagate_loop_spec (length (concat clauses)) clauses s)
    as (r0 & s0 & Hrun0 & Hpost); [apply open_literals_bound|].
  unfold unit_propagate in Hrun. rewrite Hrun in Hrun0.
  by injection Hrun0 as <- <-.
Qed.

Lemma assign_unit_level0 clauses lit c s :
  driver_inv s → level0_forced clauses s → implied_by clauses c →
  lit_unassigned (assignment s) lit →
  (∀ l, l ∈ c → l = lit ∨ lit_false (assignment s) l) →
  level0_forced clauses (assign_unit lit c s).
Proof.
  intros Hdrv H0 Himp Hun Hothers M HM v.
  destruct (assign_unit_fields lit c s) as (Ha & Hl & _).
  rewrite Ha, Hl.
  destruct (decide (Z.abs lit = v)) as [<-|Hne].
  2:{ rewrite !lookup_insert_ne by done. by apply H0. }
  rewrite !lookup_insert_eq. intros [= Hdl]. f_equal.
  specialize (Himp M HM). unfold model_satisfies in Himp.
  apply Exists_exists in Himp as (l & Hin & Hh).
  destruct (Hothers l Hin) as [->|Hf]; [symmetry; by apply lit_holds_sign|].
  exfalso.
  destruct (lit_false_level s l Hdrv Hf) as (ll & Hll & Hrange).
  destruct Hf as (val & Hval & Hfalse).
  assert (ll = 0) as -> by lia.
  rewrite (H0 M HM _ Hll) in Hval. injection Hval as <-. congruence.
Qed.

Lemma unit_propagate_loop_level0 cls fuel clauses s r s' :
  (∀ c, c ∈ clauses → implied_by cls c) →
  driver_inv s → level0_forced cls s →
  unit_propagate_loop fuel clauses s = Some (r, s') →
  level0_forced cls s'.
Proof.
  intros Himp. revert s. induction fuel as [|fuel IH]; intros s Hdrv H0; simpl;
    destruct (sweep (assignment s) 0 clauses) as [idx c|lit c|] eqn:Hsweep;
    try done.
  1,3: intros [= <- <-];
       destruct (conflict_found_core (len clauses) idx c s) as (Ha & Hl & _);
       unfold level0_forced; by rewrite Ha, Hl.
  1,3: by intros [= <- <-].
  pose proof (sweep_unit_others _ _ _ _ _ Hsweep) as Hothers.
  apply sweep_unit in Hsweep as (Hc & _ & Hun).
  apply IH.
  - by apply assign_unit_driver_inv.
  - apply assign_unit_level0; auto.
Qed.

Lemma make_decision_level0 cls s decided s' :
  driver_inv s → level0_forced cls s →
  make_decision s = (decided, s') → level0_forced cls s'.
Proof.
  intros (_ & _ & (Hdl0 & _) & _) H0 Hdec. destruct decided.
  - destruct (make_decision_decides_fields s s' Hdec)
      as (v & Hnone & _ & _ & Hl & Ha).
    intros M HM w. rewrite Ha, Hl.
    destruct (decide (v = w)) as [<-|Hne].
    + rewrite lookup_insert_eq. intros [= ?]. lia.
    + rewrite !lookup_insert_ne by done. by apply H0.
  - revert Hdec. unfold make_decision.
    destruct (filter _ _); [|done]. by intros [= <-].
Qed.

Lemma backtrack_level0 cls lvl s s' :
  driver_inv s → level0_forced cls s →
  backtrack lvl s = Some s' → level0_forced cls s'.
Proof.
  intros (Hinv & _) H0 Hrun.
  destruct (backtrack_spec lvl s Hinv)
    as (kept & popped & s'' & _ & Hrun' & _ & _ & Ha & Hl & _).
  assert (s'' = s') as -> by congruence.
  intros M HM v. rewrite Ha, Hl.
  destruct (decide (v ∈ popped)); [done | by apply H0].
Qed.

Lemma same_core_level0 cls s s' :
  same_core s s' → level0_forced cls s → level0_forced cls s'.
Proof.
  intros (Ha & Hl & _) H0. unfold level0_forced. by rewrite Ha, Hl.
Qed.

(** The clean-up keeps learned clauses, it makes none. *)
Lemma clean_learned_clauses_sub s c :
  c ∈ learned_clauses (clean_learned_clauses s) → c ∈ learned_clauses s.
Proof.
  unfold clean_learned_clauses. destruct (_ <=? _); [done|]. simpl.
  intros Hin. apply list_elem_of_fmap in Hin as ([i c'] & -> & Hin).
  apply elem_of_take in Hin as (j & Hj & _).
  apply list_elem_of_lookup_2 in Hj.
  rewrite sorted_desc_perm in Hj.
  apply elem_of_lookup_imap_1 in Hj as (k & c'' & [= -> ->] & Hk).
  simpl. by eapply list_elem_of_lookup_2.
Qed.

(** The list [learned] only grows during the analysis. *)
Lemma initial_scan_learned lits st st' :
  initial_scan lits st = Some st' → learned st' = learned st.
Proof.
  revert st. induction lits as [|lit rest IH]; intros st; cbn [initial_scan].
  - by intros [= <-].
  - destruct (assignment (solver st) !! Z.abs lit); [|apply IH].
    destruct (level (solver st) !! Z.abs lit) as [l|]; [|done]. simpl.
    destruct (l =? decision_level (solver st)); intros H; by apply IH in H.
Qed.

Lemma resolve_antecedent_learned var ante st st' :
  resolve_antecedent var ante st = Some st' →
  subclause (learned st) (learned st').
Proof.
  revert st. induction ante as [|ant_lit rest IH]; intros st;
    cbn [resolve_antecedent].
  - by intros [= <-] lit.
  - destruct (decide _); [|apply IH].
    destruct (level (bump_variable_activity _ _) !! _) as [l|]; [|done]. simpl.
    destruct (l =? _); [|destruct (0 <? l)]; intros H; apply IH in H;
      simpl in H; intros lit Hlit; apply H; try done.
    apply elem_of_app. by left.
Qed.

Lemma resolution_loop_learned remaining st r st' :
  resolution_loop remaining st = Some (r, st') →
  subclause (learned st) (learned st').
Proof.
  revert st. induction remaining as [|n IH]; intros st;
    cbn [resolution_loop].
  - by intros [= <- <-] lit.
  - destruct (1 <? len (current_level_literals st)).
    2:{ by intros [= <- <-] lit. }
    destruct (match find_recent _ _ with Some _ => _ | None => _ end)
      as [lit|]; [|done]. simpl.
    destruct (antecedent (solver st) !! Z.abs lit) as [ante|]; simpl.
    + destruct (resolve_antecedent _ _ _) as [st2|] eqn:Hres; [|done]. simpl.
      intros H. apply IH in H. apply resolve_antecedent_learned in Hres.
      simpl in Hres. intros l Hl. by apply H, Hres.
    + intros H. apply IH in H. done.
Qed.

(** With levels bounded by the decision level, the clause returned by the
    analysis contains every literal of the conflict clause. *)
Lemma analyze_conflict_keeps_conflict list_set c s bl final s' :
  (∀ l x, x ∈ list_set l ↔ x ∈ l) →
  levels_bounded s →
  analyze_conflict list_set c s = Some ((bl, final), s') →
  subclause c final.
Proof.
  intros Hset Hb Hrun.
  pose proof (analyze_conflict_shape _ _ _ _ _ _ Hrun)
    as ((_ & Hl & _ & _ & Hd) & _).
  revert Hrun. unfold analyze_conflict. generalize max_iterations. intros n.
  destruct (initial_scan _ _) as [st0|] eqn:Hscan; [|done]. simpl.
  destruct (resolution_loop n st0) as [[remaining st1]|] eqn:Hloop; [|done].
  simpl.
  apply initial_scan_learned in Hscan. apply resolution_loop_learned in Hloop.
  simpl in Hscan. rewrite Hscan in Hloop.
  set (s2 := if _ <=? _ then _ else _).
  set (learned1 := match _ with [] => _ | _ :: _ => _ end).
  assert (subclause c learned1) as Hsub.
  { intros lit Hlit. apply Hloop in Hlit. subst learned1.
    destruct (if _ && _ then _ else _); [done|].
    apply elem_of_app. by left. }
  intros [= <- Hfinal <-] lit Hlit.
  assert (lit ∈ list_set
            (filter (λ lit, keep_literal (level s2) (decision_level s2)
                              (compute_back_level (level s2)
                                 (decision_level s2) learned1) lit = true)
               learned1)) as Hin.
  { apply Hset, list_elem_of_filter. split; [|by apply Hsub].
    unfold keep_literal.
    destruct (level s2 !! Z.abs lit) as [l|] eqn:Hlev; [|done].
    apply orb_true_iff.
    destruct (decide (l = decision_level s2)) as [->|Hne];
      [right; apply Z.eqb_refl|].
    left. apply Z.leb_le. rewrite compute_back_level_max.
    eapply max_level_below_upper; [by apply Hsub | exact Hlev|].
    rewrite Hl in Hlev. apply Hb in Hlev. rewrite Hd. lia. }
  rewrite <- Hfinal. destruct (20 <? _); [|done].
  by rewrite minimize_clause_id.
Qed.


Lemma perform_restart_sound cls s s' :
  sound_inv cls s → perform_restart s = Some s' → sound_inv cls s'.
Proof.
  intros (Hdrv & Hsub & H0 & Hmax) Hrun.
  destruct (perform_restart_driver_inv s Hdrv) as (s'' & Hrun' & Hdrv').
  assert (s'' = s') as -> by congruence.
  pose proof Hdrv as (Hinv & _).
  destruct (perform_restart_spec s Hinv) as (s1 & x & Hb & _ & Hrun'').
  rewrite Hrun in Hrun''. injection Hrun'' as ->.
  destruct (backtrack_rest_frame 0 s s1 Hb) as ((Hmv & _) & Hl & _).
  pose proof (backtrack_level0 cls 0 s s1 Hdrv H0 Hb) as H01.
  split; [done|]. split; [|split].
  - unfold learned_subsumed. simpl. by rewrite Hl.
  - eapply same_core_level0; [|exact H01]. by repeat split.
  - simpl. by rewrite Hmv.
Qed.

Lemma unit_propagate_sound cls s r s' :
  sound_inv cls s →
  unit_propagate (cls ++ learned_clauses s) s = Some (r, s') →
  sound_inv cls s' ∧ learned_clauses s' = learned_clauses s.
Proof.
  intros (Hdrv & Hsub & H0 & Hmax) Hrun.
  pose proof (unit_propagate_loop_extends _ _ _ _ _ Hrun)
    as (_ & _ & _ & Hl & (Hmv & _)).
  split; [|done]. split; [by eapply unit_propagate_loop_driver_inv|].
  split; [|split].
  - unfold learned_subsumed. by rewrite Hl.
  - eapply unit_propagate_loop_level0; [|exact Hdrv|exact H0|exact Hrun].
    intros c Hc. by eapply all_clauses_implied.
  - by rewrite Hmv.
Qed.

Lemma nonempty_learned cls s :
  Forall (λ c, c ≠ []) cls → learned_subsumed cls s →
  [] ∉ cls ++ learned_clauses s.
Proof.
  intros Hne Hsub Hin. rewrite Forall_forall in Hne.
  apply elem_of_app in Hin as [Hin|Hin]; [by apply (Hne [])|].
  destruct (Hsub [] Hin) as (c0 & Hc0 & Hsc).
  destruct c0 as [|lit c0]; [by apply (Hne [])|].
  specialize (Hsc lit (list_elem_of_here _ _)). by apply elem_of_nil in Hsc.
Qed.

(** A conflict at level 0 refutes the given clauses. *)
Lemma level0_conflict_unsat cls s c :
  sound_inv cls s → decision_level s = 0 →
  c ∈ cls ++ learned_clauses s → Forall (lit_false (assignment s)) c →
  ¬ satisfiable cls.
Proof.
  intros (Hdrv & Hsub & H0 & _) Hdl Hc Hfalse (M & HM).
  pose proof (all_clauses_implied cls s c Hsub Hc M HM) as Hsat.
  apply Exists_exists in Hsat as (l & Hin & Hh).
  rewrite Forall_forall in Hfalse. specialize (Hfalse l Hin).
  destruct (lit_false_level s l Hdrv Hfalse) as (ll & Hll & Hrange).
  destruct Hfalse as (val & Hval & Hf).
  assert (ll = 0) as -> by lia.
  rewrite (H0 M HM _ Hll) in Hval. injection Hval as <-. congruence.
Qed.

(** At a fixed point where clauses without literal 0 are not all satisfied,
    a variable is left to decide. *)
Lemma fixed_point_decides cls s :
  zero_free cls →
  (∀ c lit, c ∈ cls → lit ∈ c → Z.abs lit ≤ max_var s) →
  propagation_fixed_point (assignment s) cls →
  all_satisfied (assignment s) cls = false →
  unassigned_vars s ≠ [].
Proof.
  intros Hzero Hmax Hfix Hnot Hnil.
  apply unassigned_vars_nil in Hnil. unfold all_vars_assigned in Hnil.
  rewrite forallb_forall in Hnil.
  assert (all_satisfied (assignment s) cls = true) as Hall; [|congruence].
  apply all_satisfied_true. apply Forall_forall. intros c Hc.
  unfold propagation_fixed_point in Hfix. rewrite Forall_forall in Hfix.
  destruct (Hfix c Hc) as [?|Htwo]; [done|]. exfalso.
  unfold unassigned_count in Htwo. rewrite filter_none in Htwo;
    [simpl in Htwo; lia|].
  apply Forall_forall. intros lit Hlit Hun.
  unfold zero_free in Hzero. rewrite Forall_forall in Hzero.
  pose proof (Hzero c Hc) as Hz. rewrite Forall_forall in Hz.
  specialize (Hz lit Hlit). specialize (Hmax c lit Hc Hlit).
  assert (In (Z.abs lit) (seqZ 1 (max_var s))) as Hin.
  { apply list_elem_of_In, elem_of_seqZ. lia. }
  apply Hnil, bool_decide_eq_true in Hin.
  unfold lit_unassigned in Hun. rewrite Hun in Hin. by destruct Hin.
Qed.

(** What one round establishes. *)
Lemma round_sound list_set cls s r :
  (∀ l x, x ∈ list_set l ↔ x ∈ l) →
  Forall (λ c, c ≠ []) cls →
  sound_inv cls s → round list_set cls s = Some r →
  match r with
  | RoundNext s' => sound_inv cls s'
  | RoundExit e s' =>
      sound_inv cls s'
      ∧ match e with
        | ExitConflictLevel0 => ¬ satisfiable cls
        | ExitNoDecision => ¬ zero_free cls
        | ExitSatisfied => True
        | ExitEmptyClause | ExitTimeLimit => False
        end
  end.
Proof.
  intros Hset Hne Hsound. unfold round.
  destruct (should_restart s) as [restart|]; [|done]. simpl.
  destruct (if restart then perform_restart s else Some s) as [s1|] eqn:Hr;
    [|done]. simpl.
  assert (sound_inv cls s1) as Hsound1.
  { destruct restart; [by eapply perform_restart_sound|].
    by injection Hr as <-. }
  destruct (unit_propagate _ s1) as [[conflict s2]|] eqn:Hup; [|done].
  simpl.
  destruct (unit_propagate_sound cls s1 conflict s2 Hsound1 Hup)
    as (Hsound2 & Hl2).
  pose proof (unit_propagate_result _ _ _ _ Hup) as Hres.
  assert (conflict = None ∨ (∃ lit c, conflict = Some (lit :: c))) as Hcases.
  { destruct conflict as [[|lit c]|]; [|eauto|eauto]. exfalso.
    destruct Hres as [Hin _].
    destruct Hsound1 as (_ & Hsub1 & _).
    by apply (nonempty_learned cls s1 Hne Hsub1). }
  destruct Hcases as [->|(lit & c & ->)].
  - destruct (all_satisfied (assignment s2) cls) eqn:Hsat.
    { intros [= <-]. done. }
    destruct (make_decision s2) as [decided s3] eqn:Hdec.
    pose proof Hsound2 as (Hdrv2 & Hsub2 & H02 & Hmax2).
    assert (sound_inv cls s3) as Hsound3.
    { pose proof (make_decision_frame _ _ _ Hdec) as ((Hmv & _) & Hl & _).
      split; [by eapply make_decision_driver_inv|]. split; [|split].
      - unfold learned_subsumed. by rewrite Hl.
      - by eapply make_decision_level0.
      - by rewrite Hmv. }
    destruct decided; intros [= <-]; [done|]. split; [done|].
    intros Hzero.
    apply (fixed_point_decides cls s2 Hzero Hmax2); [|done|].
    + unfold propagation_fixed_point in *.
      by apply Forall_app in Hres as [? _].
    + revert Hdec. unfold make_decision. fold (unassigned_vars s2).
      by destruct (unassigned_vars s2).
  - destruct Hres as [Hin Hfalse]. rewrite <- Hl2 in Hin.
    destruct (decision_level s2 =? 0) eqn:Hdl.
    { intros [= <-]. split; [done|]. apply Z.eqb_eq in Hdl.
      by eapply level0_conflict_unsat. }
    destruct (analyze_conflict _ _ _) as [[[lvl lc] s3]|] eqn:Han; [|done].
    simpl.
    destruct (learn_clause lvl lc s3) as [s4|] eqn:Hlearn; [|done]. simpl.
    intros [= <-].
    pose proof Hsound2 as (Hdrv2 & Hsub2 & H02 & Hmax2).
    pose proof (analyze_conflict_level_nonneg _ _ _ _ _ _ Han) as Hlvl.
    destruct (analyze_conflict_frame _ _ _ _ _ Han)
      as (Hcore & Hg & _ & _ & (s0 & Hs0 & _ & Hl3)).
    assert (driver_inv s3) as Hdrv3.
    { destruct Hg as (_ & Hluby & _). by eapply same_core_driver_inv. }
    assert (∀ c', c' ∈ learned_clauses s3 → c' ∈ learned_clauses s2) as Hsub3.
    { intros c'. destruct Hl3 as [-> | ->]; rewrite <- Hs0; [done|].
      apply clean_learned_clauses_sub. }
    assert (subclause (lit :: c) lc) as Hkeep.
    { eapply analyze_conflict_keeps_conflict; [exact Hset| |exact Han].
      by destruct Hdrv2 as ((_ & _ & ?) & _). }
    destruct (learn_clause_driver_inv lvl lc s3 Hlvl Hdrv3)
      as (s4' & Hlearn' & Hdrv4).
    assert (s4' = s4) as -> by congruence.
    revert Hlearn. unfold learn_clause.
    destruct (backtrack lvl s3) as [sb|] eqn:Hb; [|done]. simpl.
    intros [= <-].
    destruct (backtrack_rest_frame lvl s3 sb Hb) as ((Hmv & _) & Hlb & _).
    split; [done|]. split; [|split].
    + intros c'. simpl. rewrite Hlb. intros Hc'.
      apply elem_of_app in Hc' as [Hc'|Hc'].
      * apply Hsub2. by apply Hsub3.
      * apply list_elem_of_singleton in Hc' as ->.
        apply elem_of_app in Hin as [Hin|Hin].
        -- exists (lit :: c). by split.
        -- destruct (Hsub2 _ Hin) as (c0 & Hc0 & Hsc).
           exists c0. split; [done|]. intros l Hlit. by apply Hkeep, Hsc.
    + eapply same_core_level0; [|eapply backtrack_level0; [exact Hdrv3| |exact Hb]].
      * by repeat split.
      * by eapply same_core_level0.
    + simpl. rewrite Hmv. destruct Hg as (-> & _). done.
Qed.

Lemma solve_loop_sound list_set deadline cls s e s' :
  (∀ l x, x ∈ list_set l ↔ x ∈ l) →
  Forall (λ c, c ≠ []) cls →
  sound_inv cls s →
  solve_loop list_set deadline cls s = Some (e, s') →
  sound_inv cls s'
  ∧ match e with
    | ExitConflictLevel0 => ¬ satisfiable cls
    | ExitNoDecision => ¬ zero_free cls
    | ExitSatisfied | ExitTimeLimit => True
    | ExitEmptyClause => False
    end.
Proof.
  intros Hset Hne. revert s. induction deadline as [|d IH]; intros s Hsound.
  - simpl. by intros [= <- <-].
  - rewrite solve_loop_round.
    destruct (round list_set cls s) as [r|] eqn:Hround; [|done]. simpl.
    pose proof (round_sound _ _ _ _ Hset Hne Hsound Hround) as Hr.
    destruct r as [e0 s0|s0].
    + intros [= <- <-]. destruct Hr as [? He]. split; [done|].
      by destruct e0.
    + by apply IH.
Qed.

Lemma foldl_max_ge (l : list Z) x : x ≤ foldl Z.max x l.
Proof.
  revert x. induction l as [|z l IH]; intros x; simpl; [lia|].
  etrans; [|apply IH]. lia.
Qed.

Lemma foldl_max_bound (l : list Z) x y :
  y = x ∨ y ∈ l → y ≤ foldl Z.max x l.
Proof.
  intros [->|Hin]; [apply foldl_max_ge|].
  revert x. induction l as [|z l IH]; intros x; simpl;
    [by apply elem_of_nil in Hin|].
  apply elem_of_cons in Hin as [->|Hin]; [|by apply IH].
  etrans; [|apply foldl_max_ge]. lia.
Qed.

Lemma solve_start_sound cls :
  sound_inv cls (solve_start cls CDCLSolver_init).
Proof.
  split; [apply solve_start_driver_inv|]. split; [|split].
  - intros c Hc. by apply elem_of_nil in Hc.
  - intros M _ v Hv. done.
  - intros c lit Hc Hlit. unfold solve_start. simpl.
    assert (Z.abs lit ∈ Z.abs <$> concat cls) as Hin.
    { apply list_elem_of_fmap. exists lit. split; [done|].
      apply list_elem_of_In, in_concat. exists c.
      split; by apply list_elem_of_In. }
    destruct (Z.abs <$> concat cls) as [|v vs]; [by apply elem_of_nil in Hin|].
    apply foldl_max_bound. apply elem_of_cons in Hin as [?|?]; auto.
Qed.

Lemma has_empty_clause_unsat (cls : list clause) :
  existsb (λ c, len c =? 0) cls = true → ¬ satisfiable cls.
Proof.
  intros Hex (M & HM). apply existsb_exists in Hex as (c & Hc & Hlen).
  rewrite Forall_forall in HM. apply list_elem_of_In, HM in Hc.
  destruct c; [by apply Exists_nil in Hc | done].
Qed.

Lemma no_empty_clause_inv (cls : list clause) :
  existsb (λ c, len c =? 0) cls = false → Forall (λ c, c ≠ []) cls.
Proof.
  intros Hex. apply Forall_forall. intros c Hc ->.
  assert (existsb (λ c, len c =? 0) cls = true); [|congruence].
  apply existsb_exists. exists []. split; [by apply list_elem_of_In | done].
Qed.

(** The three facts about a run of [solve] on a fresh solver. *)
Lemma solve_sound list_set deadline cls e s' :
  (∀ l x, x ∈ list_set l ↔ x ∈ l) →
  solve list_set deadline cls CDCLSolver_init = Some (e, s') →
  learned_subsumed cls s'
  ∧ (e = ExitConflictLevel0 ∨ e = ExitEmptyClause → ¬ satisfiable cls)
  ∧ (e = ExitNoDecision → ¬ zero_free cls).
Proof.
  intros Hset. unfold solve. fold (solve_start cls CDCLSolver_init).
  destruct (existsb _ _) eqn:Hex.
  - intros [= <- <-]. split; [|split].
    + intros c Hc. by apply elem_of_nil in Hc.
    + intros _. by apply has_empty_clause_unsat.
    + done.
  - intros Hrun.
    apply (solve_loop_sound _ _ _ _ _ _ Hset (no_empty_clause_inv _ Hex)
             (solve_start_sound cls)) in Hrun as ((_ & Hsub & _) & He).
    split; [done|]. split.
    + intros [-> | ->]; done.
    + by intros ->.
Qed.

(** X17. With [list_set] enumerating the elements of its argument, every
    clause that [solve] has learned by the time it returns contains all the
    literals of one of the clauses it was given: a learned clause is
    subsumed by an input clause, and it holds in every model of the input. *)
Theorem learned_clauses_subsumed list_set deadline cls e s' :
  (∀ l x, x ∈ list_set l ↔ x ∈ l) →
  solve list_set deadline cls CDCLSolver_init = Some (e, s') →
  ∀ c, c ∈ learned_clauses s' →
    (∃ c0, c0 ∈ cls ∧ subclause c0 c) ∧ implied_by cls c.
Proof.
  intros Hset Hrun c Hc.
  destruct (solve_sound _ _ _ _ _ Hset Hrun) as (Hsub & _).
  split; [by apply Hsub|].
  eapply all_clauses_implied; [exact Hsub|]. apply elem_of_app. by right.
Qed.

(** X18. With [list_set] enumerating the elements of its argument, when
    [solve], started on a fresh solver, returns [False] because a clause is
    empty or because a conflict arose at decision level 0, the clauses have
    no satisfying assignment. *)
Theorem solve_unsat_sound list_set deadline cls e s' :
  (∀ l x, x ∈ list_set l ↔ x ∈ l) →
  solve list_set deadline cls CDCLSolver_init = Some (e, s') →
  e = ExitConflictLevel0 ∨ e = ExitEmptyClause →
  ¬ satisfiable cls.
Proof.
  intros Hset Hrun He.
  destruct (solve_sound _ _ _ _ _ Hset Hrun) as (_ & Hunsat & _). auto.
Qed.

(** X19. With [list_set] enumerating the elements of its argument and
    clauses in which no literal is 0, [solve], started on a fresh solver,
    never leaves through [UNSAT: No valid decisions left]: when the clauses
    are not all satisfied after propagation, a variable is left to decide. *)
Theorem solve_no_decision_unreachable list_set deadline cls e s' :
  (∀ l x, x ∈ list_set l ↔ x ∈ l) →
  zero_free cls →
  solve list_set deadline cls CDCLSolver_init = Some (e, s') →
  e ≠ ExitNoDecision.
Proof.
  intros Hset Hzero Hrun He.
  destruct (solve_sound _ _ _ _ _ Hset Hrun) as (_ & _ & Hnd). by apply Hnd.
Qed.

(** *** More on conflict analysis *)

(** X20. [analyze_conflict] changes neither the assignment nor the trail,
    the levels or the decision level, and the level it returns is not
    negative and, at a positive decision level, strictly below the decision
    level: the backtrack that follows undoes at least the current level. *)
Theorem analyze_conflict_jumps_back list_set c s bl final s' :
  analyze_conflict list_set c s = Some ((bl, final), s') →
  0 ≤ bl ∧ (0 < decision_level s → bl < decision_level s)
  ∧ assignment s' = assignment s ∧ trail s' = trail s
  ∧ level s' = level s ∧ decision_level s' = decision_level s.
Proof.
  intros Hrun.
  apply analyze_conflict_shape in Hrun
    as ((Ha & Hl & _ & Ht & Hd) & learned1 & Hbl & _).
  rewrite compute_back_level_max in Hbl.
  split; [rewrite Hbl; apply max_level_below_nonneg|].
  split; [|done].
  intros Hpos.
  destruct (max_level_below_attained (level s') (decision_level s') learned1)
    as [H0|(_ & _ & _ & Hlt)]; lia.
Qed.

Lemma find_recent_elem tr cur lit : find_recent tr cur = Some lit → lit ∈ cur.
Proof.
  unfold find_recent.
  assert (∀ acc, (foldl (recent_step tr) acc cur).1 = Some lit →
                 acc.1 = Some lit ∨ lit ∈ cur) as H.
  { induction cur as [|x cur IH]; intros acc; simpl; [by left|].
    intros Hf. apply IH in Hf as [Hf|Hf]; [|right; by apply list_elem_of_further].
    unfold recent_step in Hf.
    destruct (rindex tr (Z.abs x)); [|by left].
    destruct (acc.2 <? _); [|by left].
    simpl in Hf. injection Hf as ->. right. apply list_elem_of_here. }
  intros Hf. by apply H in Hf as [?|?].
Qed.

Lemma list_remove_first_sub x (l : list Z) y :
  y ∈ list_remove_first x l → y ∈ l.
Proof.
  induction l as [|z l IH]; simpl; [done|].
  destruct (decide (z = x)).
  - by apply list_elem_of_further.
  - intros Hy. apply elem_of_cons in Hy as [->|Hy];
      [apply list_elem_of_here | by apply list_elem_of_further, IH].
Qed.

Lemma initial_scan_sourced s c lits st st' :
  (∀ lit, lit ∈ lits → lit ∈ c) →
  analysis_sourced s c st → initial_scan lits st = Some st' →
  analysis_sourced s c st'.
Proof.
  revert st. induction lits as [|lit rest IH]; intros st Hsub Hsrc;
    cbn [initial_scan].
  - by intros [= <-].
  - assert (∀ l, l ∈ rest → l ∈ c) as Hrest
      by (intros l Hl; by apply Hsub, list_elem_of_further).
    destruct (assignment (solver st) !! Z.abs lit); [|by apply IH].
    destruct (level (solver st) !! Z.abs lit) as [l|]; [|done]. simpl.
    destruct (l =? decision_level (solver st)); apply IH; try done.
    destruct Hsrc as [Hl Hc]. split; [done|]. simpl.
    intros x Hx. apply elem_of_app in Hx as [Hx|Hx]; [by apply Hc|].
    apply list_elem_of_singleton in Hx as ->. left.
    apply Hsub, list_elem_of_here.
Qed.

Lemma resolve_antecedent_sourced s c var rest st st' :
  (∀ lit, lit ∈ rest → from_conflict_or_antecedent s c lit) →
  analysis_sourced s c st → resolve_antecedent var rest st = Some st' →
  analysis_sourced s c st'.
Proof.
  revert st. induction rest as [|ant_lit rest IH];
    intros st Hfrom Hsrc; cbn [resolve_antecedent].
  - by intros [= <-].
  - assert (∀ l, l ∈ rest → from_conflict_or_antecedent s c l) as Hrest
      by (intros l Hl; by apply Hfrom, list_elem_of_further).
    pose proof (Hfrom ant_lit (list_elem_of_here _ _)) as Hhead.
    destruct (decide _); [|by apply IH].
    destruct (level (bump_variable_activity _ _) !! _) as [l|]; [|done]. simpl.
    destruct Hsrc as [Hl Hc].
    destruct (l =? _); [|destruct (0 <? l)]; apply IH; try done;
      (split; [|]); simpl; try done; intros x Hx;
      apply elem_of_app in Hx as [Hx|Hx]; auto;
      by apply list_elem_of_singleton in Hx as ->.
Qed.

Lemma resolution_loop_sourced s c remaining st r st' :
  antecedent (solver st) = antecedent s →
  analysis_sourced s c st → resolution_loop remaining st = Some (r, st') →
  analysis_sourced s c st'.
Proof.
  revert st. induction remaining as [|n IH]; intros st Hant Hsrc;
    cbn [resolution_loop].
  - by intros [= <- <-].
  - destruct (1 <? len (current_level_literals st)).
    2:{ by intros [= <- <-]. }
    destruct (match find_recent _ _ with Some _ => _ | None => _ end)
      as [lit|]; [|done]. simpl.
    destruct Hsrc as [Hl Hc].
    assert (analysis_sourced s c
              (mkAnalysis (seen st)
                 (list_remove_first lit (current_level_literals st))
                 (learned st) (solver st))) as Hsrc1.
    { split; [done|]. simpl. intros x Hx.
      by apply Hc, (list_remove_first_sub lit). }
    destruct (antecedent (solver st) !! Z.abs lit) as [ante|] eqn:Hante;
      simpl.
    + destruct (resolve_antecedent _ _ _) as [st2|] eqn:Hres; [|done]. simpl.
      apply IH.
      * apply resolve_antecedent_core in Hres as (_ & _ & -> & _). done.
      * eapply (resolve_antecedent_sourced s c); [|exact Hsrc1|exact Hres].
        intros l Hlit. right. exists (Z.abs lit), ante.
        split; [by rewrite <- Hant | done].
    + by apply IH.
Qed.

(** X21. On a state whose levels are bounded by the decision level and with
    [list_set] enumerating the elements of its argument, the clause returned
    by [analyze_conflict] contains every literal of the conflict clause, and
    each of its literals comes from the conflict clause or from the
    antecedent of a variable. *)
Theorem analyze_conflict_clause_sources list_set c s bl final s' :
  (∀ l x, x ∈ list_set l ↔ x ∈ l) →
  levels_bounded s →
  analyze_conflict list_set c s = Some ((bl, final), s') →
  subclause c final
  ∧ ∀ lit, lit ∈ final → from_conflict_or_antecedent s c lit.
Proof.
  intros Hset Hb Hrun.
  split; [by eapply analyze_conflict_keeps_conflict|].
  revert Hrun. unfold analyze_conflict. generalize max_iterations. intros n.
  destruct (initial_scan _ _) as [st0|] eqn:Hscan; [|done]. simpl.
  destruct (resolution_loop n st0) as [[remaining st1]|] eqn:Hloop; [|done].
  simpl.
  assert (analysis_sourced s c st0) as Hsrc0.
  { eapply initial_scan_sourced; [|
      |exact Hscan]; [done|].
    split; simpl; [by left | intros lit Hlit; by apply elem_of_nil in Hlit]. }
  assert (analysis_sourced s c st1) as [Hl1 Hc1].
  { eapply resolution_loop_sourced; [|exact Hsrc0|exact Hloop].
    apply initial_scan_core in Hscan as (_ & _ & -> & _). done. }
  set (s2 := if _ <=? _ then _ else _).
  set (cur' := if _ && _ then _ else _).
  assert (∀ lit, lit ∈ cur' → from_conflict_or_antecedent s c lit) as Hcur.
  { subst cur'. destruct (_ && _); [|done].
    destruct (find_recent _ _) as [recent|] eqn:Hrec; [|done].
    intros lit Hlit. apply list_elem_of_singleton in Hlit as ->.
    by apply Hc1, (find_recent_elem _ _ _ Hrec). }
  set (learned1 := match cur' with [] => _ | _ :: _ => _ end).
  assert (∀ lit, lit ∈ learned1 → from_conflict_or_antecedent s c lit) as Hl.
  { subst learned1. destruct cur' as [|x cur'']; [done|].
    intros lit Hlit. apply elem_of_app in Hlit as [?|Hx]; [by apply Hl1|].
    apply list_elem_of_singleton in Hx as ->. apply Hcur, list_elem_of_here. }
  intros [= _ Hfinal _] lit Hlit. apply Hl.
  rewrite <- Hfinal in Hlit.
  assert (lit ∈ list_set
            (filter (λ lit, keep_literal (level s2) (decision_level s2)
                              (compute_back_level (level s2)
                                 (decision_level s2) learned1) lit = true)
               learned1)) as Hin.
  { destruct (20 <? _); [|done]. by rewrite minimize_clause_id in Hlit. }
  apply Hset, list_elem_of_filter in Hin as [_ ?]. done.
Qed.

(** *** The debugging driver *)

Lemma unit_propagate_loop_new_assigned fuel clauses s r s' :
  unit_propagate_loop fuel clauses s = Some (r, s') →
  ∃ new, trail s' = trail s ++ new
    ∧ Forall (λ v, is_Some (assignment s' !! v)) new.
Proof.
  revert s. induction fuel as [|fuel IH]; intros s; simpl;
    destruct (sweep (assignment s) 0 clauses) as [idx c|lit c|] eqn:Hsweep;
    try done.
  1,3: intros [= <- <-]; exists [];
       destruct (conflict_found_core (len clauses) idx c s)
         as (_ & _ & _ & -> & _);
       by rewrite app_nil_r.
  1,3: intros [= <- <-]; exists []; by rewrite app_nil_r.
  intros Hrun.
  destruct (IH _ Hrun) as (new & Ht & Hall).
  apply unit_propagate_loop_extends in Hrun as (Hkeep & _).
  destruct (assign_unit_fields lit c s) as (Ha & _ & _ & Ht1 & _).
  exists (Z.abs lit :: new). split.
  - rewrite Ht, Ht1, <- app_assoc. done.
  - constructor; [|done].
    destruct (Hkeep (Z.abs lit)) as (-> & _).
    + rewrite Ha, lookup_insert_eq. eauto.
    + rewrite Ha, lookup_insert_eq. eauto.
Qed.

Lemma solve_with_debug_loop_agrees list_set rounds clauses s e s' :
  solve_loop list_set rounds clauses s = Some (e, s') →
  solve_with_debug_loop list_set rounds clauses s
  = Some (match e with
          | ExitTimeLimit => None
          | _ => Some (returned_value e)
          end, s').
Proof.
  revert s. induction rounds as [|d IH]; intros s;
    cbn [solve_loop solve_with_debug_loop].
  - by intros [= <- <-].
  - destruct (should_restart s) as [restart|]; [|done]. simpl.
    destruct (if restart then perform_restart s else Some s) as [s1|]; [|done].
    simpl.
    destruct (unit_propagate _ s1) as [[conflict s2]|] eqn:Hup; [|done].
    simpl.
    destruct (unit_propagate_loop_new_assigned _ _ _ _ _ Hup)
      as (new & Ht & Hall).
    assert (is_Some (mapM (λ var, assignment s2 !! var)
                       (drop (length (trail s1)) (trail s2)))) as [vals ->].
    { apply mapM_is_Some. rewrite Ht, drop_app_length. exact Hall. }
    simpl.
    assert ((if all_satisfied (assignment s2) clauses
             then Some (ExitSatisfied, s2)
             else let '(decided, s3) := make_decision s2 in
                  if decided then solve_loop list_set d clauses s3
                  else Some (ExitNoDecision, s3)) = Some (e, s') →
            (if all_satisfied (assignment s2) clauses
             then Some (Some true, s2)
             else let '(decided, s3) := make_decision s2 in
                  if decided then
                    var ← py_index (trail s3) (-1);
                    _ ← assignment s3 !! var;
                    solve_with_debug_loop list_set d clauses s3
                  else Some (Some false, s3))
            = Some (match e with
                    | ExitTimeLimit => None
                    | _ => Some (returned_value e)
                    end, s')) as Helse.
    { destruct (all_satisfied (assignment s2) clauses);
        [by intros [= <- <-]|].
      destruct (make_decision s2) as [decided s3] eqn:Hdec.
      destruct decided; [|by intros [= <- <-]].
      destruct (make_decision_decides_fields s2 s3 Hdec)
        as (v & _ & Ht3 & _ & _ & Ha3).
      rewrite Ht3, py_index_last. simpl.
      rewrite Ha3, lookup_insert_eq. simpl. apply IH. }
    destruct conflict as [[|lit c]|]; [exact Helse | | exact Helse].
    destruct (decision_level s2 =? 0); [by intros [= <- <-]|].
    destruct (analyze_conflict _ _ _) as [[[lvl lc] s3]|]; [|done]. simpl.
    destruct (backtrack lvl s3) as [s4|]; [|done]. simpl.
    apply IH.
Qed.

(** X23. [solve_with_debug] follows [solve]: on the same clauses and start
    state, whenever [solve] returns before its time limit,
    [solve_with_debug] returns the same value in the same final state and
    none of the lookups made for its messages raises; and when [solve] runs
    out of time after some rounds, [solve_with_debug] is, after as many
    rounds, in the state in which [solve] stopped. *)
Theorem solve_with_debug_agrees list_set rounds clauses s e s' :
  solve list_set rounds clauses s = Some (e, s') →
  (e ≠ ExitTimeLimit →
   solve_with_debug list_set rounds clauses s
   = Some (Some (returned_value e), s'))
  ∧ (e = ExitTimeLimit →
     solve_with_debug list_set rounds clauses s = Some (None, s')).
Proof.
  unfold solve, solve_with_debug. fold (solve_start clauses s).
  destruct (existsb _ _).
  - intros [= <- <-]. by split.
  - intros Hrun. apply solve_with_debug_loop_agrees in Hrun. rewrite Hrun.
    split; [by destruct e | by intros ->].
Qed.

(** * Concrete runs *)

(** The driver meets [first_conflict] on its second round: with a deadline
    of two rounds it analyses that conflict, learns the clause and stops. *)
Lemma solve_meets_first_conflict :
  solve remove_dups 2 two_clauses CDCLSolver_init
  = ('(lvl, c, s) ← first_analysis;
     s' ← learn_clause lvl c s;
     Some (ExitTimeLimit, s')).
Proof. vm_compute. reflexivity. Qed.

(** C2, as the code behaves. On the first conflict of the run on
    [[1, 2], [1, -2]] the decision level is 1 and the learned clause is
    [1, -2] (up to order): both of its literals are assigned at level 1. *)
Theorem analyze_conflict_two_current_level :
  (λ r, (decision_level r.2, r.1.2,
         at_level (level r.2) (decision_level r.2) r.1.2)) <$> first_analysis
  = Some (1, [1; -2], [1; -2]).
Proof. vm_compute. reflexivity. Qed.

(** C5, the claim as stated fails. On the same conflict the backjump level
    is 0, while the largest level among the literals of the learned clause
    other than the one kept as the UIP is 1, whichever of the two literals is
    taken for the UIP. *)
Lemma backjump_level_not_max_except_uip :
  (λ r, (r.1.1, r.1.2,
         max_level_except (level r.2) (-2) r.1.2,
         max_level_except (level r.2) 1 r.1.2)) <$> first_analysis
  = Some (0, [1; -2], 1, 1).
Proof. vm_compute. reflexivity. Qed.

(** The driver meets [second_level_conflict] on its third round and
    [repeated_literal_conflict] on its second: with that many rounds before
    the deadline it analyses the conflict, learns the clause and stops. *)
Lemma solve_meets_second_level_conflict :
  solve remove_dups 3 three_clauses CDCLSolver_init
  = ('(lvl, c, s) ← second_level_analysis;
     s' ← learn_clause lvl c s;
     Some (ExitTimeLimit, s')).
Proof. vm_compute. reflexivity. Qed.

Lemma solve_meets_repeated_literal_conflict :
  solve remove_dups 2 repeated_literal CDCLSolver_init
  = ('(lvl, c, s) ← repeated_literal_analysis;
     s' ← learn_clause lvl c s;
     Some (ExitTimeLimit, s')).
Proof. vm_compute. reflexivity. Qed.

(** The amended backjump claim on two runs. On [[1, 2, 3], [1, 2, -3]]
    the conflict arises at decision level 2, the returned clause is
    [1, 2, -3] with variable 1 at level 1 and variables 2 and 3 at level 2,
    and the backjump level is 1, the largest level below 2. On [[1, 1]] the
    returned clause is the unit clause [1] whose literal is at the decision
    level 1, and the backjump level is 0. *)
Lemma backjump_level_is_max_below_witness :
  (∃ bl final s',
     second_level_analysis = Some ((bl, final), s')
     ∧ final = [1; 2; -3] ∧ decision_level s' = 2
     ∧ level s' !! 1 = Some 1 ∧ level s' !! 2 = Some 2
     ∧ level s' !! 3 = Some 2
     ∧ max_level_below (level s') (decision_level s') final = 1
     ∧ bl = max_level_below (level s') (decision_level s') final)
  ∧ (∃ bl final s',
       repeated_literal_analysis = Some ((bl, final), s')
       ∧ final = [1] ∧ level s' !! Z.abs 1 = Some (decision_level s')
       ∧ bl = 0).
Proof.
  split.
  - assert ((λ r, (r.1.2, decision_level r.2, level r.2 !! 1, level r.2 !! 2,
                   level r.2 !! 3,
                   max_level_below (level r.2) (decision_level r.2) r.1.2))
              <$> second_level_analysis
            = Some ([1; 2; -3], 2, Some 1, Some 2, Some 2, 1)) as Hv
      by (vm_compute; reflexivity).
    unfold second_level_analysis in *.
    destruct second_level_conflict as [[c s]|]; [|discriminate].
    cbn [mbind option_bind] in *.
    destruct (analyze_conflict remove_dups c s) as [[[bl final] s']|] eqn:Ha;
      [|discriminate].
    cbn [fmap option_fmap option_map fst snd] in Hv.
    injection Hv as Hf Hd H1 H2 H3 Hm.
    exists bl, final, s'.
    split; [reflexivity|]. split; [exact Hf|]. split; [exact Hd|].
    split; [exact H1|]. split; [exact H2|]. split; [exact H3|].
    split; [exact Hm|].
    exact (proj1 (backjump_level_is_max_below remove_dups c s bl final s'
                    (λ l x, elem_of_remove_dups l x) Ha)).
  - assert ((λ r, (r.1.2, decision_level r.2, level r.2 !! Z.abs 1))
              <$> repeated_literal_analysis
            = Some ([1], 1, Some 1)) as Hv by (vm_compute; reflexivity).
    unfold repeated_literal_analysis in *.
    destruct repeated_literal_conflict as [[c s]|]; [|discriminate].
    cbn [mbind option_bind] in *.
    destruct (analyze_conflict remove_dups c s) as [[[bl final] s']|] eqn:Ha;
      [|discriminate].
    cbn [fmap option_fmap option_map fst snd] in Hv.
    injection Hv as Hf Hd Hl.
    assert (level s' !! Z.abs 1 = Some (decision_level s')) as Hlevel
      by (rewrite Hd; exact Hl).
    exists bl, final, s'.
    split; [reflexivity|]. split; [exact Hf|]. split; [exact Hlevel|].
    exact (proj2 (backjump_level_is_max_below remove_dups c s bl final s'
                    (λ l x, elem_of_remove_dups l x) Ha) 1 Hf Hlevel).
Defined.

(** C3, the claim as stated fails. On the clauses [[1], [-1]] the run that
    is out of time and the run that finds the conflict at level 0 return the
    same value. *)
Lemma timeout_indistinguishable_from_unsat :
  fst <$> solve remove_dups 0 [[1]; [-1]] CDCLSolver_init = Some ExitTimeLimit
  ∧ fst <$> solve remove_dups 1 [[1]; [-1]] CDCLSolver_init
    = Some ExitConflictLevel0
  ∧ solve_value remove_dups 0 [[1]; [-1]] CDCLSolver_init
    = solve_value remove_dups 1 [[1]; [-1]] CDCLSolver_init.
Proof. repeat split; vm_compute; reflexivity. Qed.

Lemma solve_time_limit_returns_false_witness :
  ∃ s', solve remove_dups 0 [[1]; [-1]] CDCLSolver_init
        = Some (ExitTimeLimit, s')
    ∧ solve_value remove_dups 0 [[1]; [-1]] CDCLSolver_init = Some false.
Proof.
  destruct (solve_deadline_over remove_dups [[1]; [-1]] CDCLSolver_init)
    as [s' Hrun]; [reflexivity|].
  exists s'. split; [exact Hrun|].
  exact (proj1 (solve_time_limit_returns_false remove_dups 0 [[1]; [-1]]
                  CDCLSolver_init s' Hrun)).
Defined.

Lemma solve_sat_model_witness :
  ∃ s', solve remove_dups 20 [[1; 2]; [-1; 2]; [-2; 3]] CDCLSolver_init
        = Some (ExitSatisfied, s')
    ∧ Forall (clause_satisfied (assignment s')) [[1; 2]; [-1; 2]; [-2; 3]].
Proof.
  assert (fst <$> solve remove_dups 20 [[1; 2]; [-1; 2]; [-2; 3]]
                    CDCLSolver_init = Some ExitSatisfied) as He
    by (vm_compute; reflexivity).
  destruct (solve remove_dups 20 [[1; 2]; [-1; 2]; [-2; 3]] CDCLSolver_init)
    as [[e s']|] eqn:Hrun; [|discriminate].
  simpl in He. injection He as ->.
  exists s'. split; [reflexivity|].
  exact (solve_sat_model remove_dups 20 _ CDCLSolver_init ExitSatisfied s'
           Hrun eq_refl).
Defined.

(** C8, the claim as stated fails. The line [1 x 0] is malformed, yet the
    file is parsed without error, to the clause of its other line, and
    solved. *)
Lemma malformed_line_not_surfaced :
  malformed_clause_line "1 x 0"
  ∧ parse_cnf_file ["1 x 0"; "1 0"]%string = Some ([[1]], 0)
  ∧ solve_file remove_dups 10 ["1 x 0"; "1 0"]%string = FileSolved true.
Proof. repeat split; vm_compute; reflexivity. Qed.

Lemma parse_cnf_file_skips_malformed_witness :
  malformed_clause_line "1 x 0"
  ∧ parse_cnf_file (["2 0"%string] ++ "1 x 0"%string :: ["1 0"%string])
    = parse_cnf_file (["2 0"%string] ++ ["1 0"%string]).
Proof.
  assert (malformed_clause_line "1 x 0") as Hbad
    by (split; vm_compute; reflexivity).
  split; [exact Hbad|].
  exact (proj1 (parse_cnf_file_skips_malformed remove_dups 0
                  ["2 0"]%string "1 x 0"%string ["1 0"]%string Hbad)).
Defined.

Lemma parse_cnf_file_no_empty_clause_witness :
  parse_cnf_file ["p cnf 2 2"; "1 -2 0"; "0"; "2 0"]%string
  = Some ([[1; -2]; [2]], 2)
  ∧ Forall (λ c : clause, c ≠ []) [[1; -2]; [2]].
Proof.
  assert (parse_cnf_file ["p cnf 2 2"; "1 -2 0"; "0"; "2 0"]%string
          = Some ([[1; -2]; [2]], 2)) as Hparse by (vm_compute; reflexivity).
  split; [exact Hparse|].
  exact (proj1 (parse_cnf_file_no_empty_clause _ _ _ Hparse)).
Defined.

Lemma one_decision_reachable : reachable one_decision.
Proof.
  unfold reachable, one_decision.
  eapply rtc_l; [apply (step_set_max_var 2)|].
  eapply rtc_l; [apply step_initialize_activity|].
  eapply rtc_once, step_make_decision. apply surjective_pairing.
Qed.

Lemma reachable_mutual_domain_witness :
  reachable one_decision ∧ mutual_domain one_decision.
Proof.
  split; [exact one_decision_reachable|].
  exact (reachable_mutual_domain one_decision one_decision_reachable).
Defined.

Lemma backtrack_frame_witness :
  ∃ s', backtrack 0 one_decision = Some s'
    ∧ trail one_decision = [1] ∧ trail s' = [] ∧ decision_level s' = 0.
Proof.
  destruct (backtrack_frame one_decision 0
              (reachable_solver_inv _ one_decision_reachable) (Z.le_refl 0))
    as (s' & Hrun & Hlev & Hdl & Hpop & Hkeep).
  exists s'. split; [exact Hrun|]. split; [reflexivity|]. split; [|exact Hdl].
  assert (trail <$> backtrack 0 one_decision = Some []) as Ht
    by (vm_compute; reflexivity).
  rewrite Hrun in Ht. by injection Ht.
Defined.

(** ** Runs for the further properties *)

Lemma unit_propagate_idempotent_witness :
  ∃ s', unit_propagate [[1]; [-1; 2]] CDCLSolver_init = Some (None, s')
    ∧ unit_propagate [[1]; [-1; 2]] s' = Some (None, s').
Proof.
  assert (fst <$> unit_propagate [[1]; [-1; 2]] CDCLSolver_init = Some None)
    as He by (vm_compute; reflexivity).
  destruct (unit_propagate [[1]; [-1; 2]] CDCLSolver_init) as [[r s']|] eqn:Hrun;
    [|discriminate].
  simpl in He. injection He as ->.
  exists s'. split; [reflexivity|].
  exact (unit_propagate_idempotent _ _ _ Hrun).
Defined.

Lemma make_decision_decides_witness :
  ∃ s' v,
    make_decision (initialize_activity (set_max_var 2 CDCLSolver_init))
    = (true, s')
    ∧ 1 ≤ v ≤ 2 ∧ trail s' = [v].
Proof.
  assert ((make_decision
             (initialize_activity (set_max_var 2 CDCLSolver_init))).1 = true)
    as He by (vm_compute; reflexivity).
  destruct (make_decision (initialize_activity (set_max_var 2 CDCLSolver_init)))
    as [decided s'] eqn:Hdec.
  simpl in He. subst decided.
  destruct (make_decision_decides _ _ Hdec)
    as (v & Hrange & _ & Htrail & _).
  exists s', v. split; [reflexivity|]. split; [exact Hrange | exact Htrail].
Defined.

Lemma first_decision_witness :
  ∃ s', make_decision (initialize_activity (set_max_var 3 CDCLSolver_init))
        = (true, s')
    ∧ trail s' = [1] ∧ assignment s' = {[1 := false]}.
Proof.
  destruct (first_decision 3 ltac:(lia)) as (s' & Hdec & Ht & Ha & _).
  exists s'. split; [exact Hdec|]. split; [exact Ht | exact Ha].
Defined.

Lemma backtrack_idempotent_witness :
  ∃ s', backtrack 0 one_decision = Some s' ∧ backtrack 0 s' = Some s'.
Proof.
  destruct (backtrack 0 one_decision) as [s'|] eqn:Hrun;
    [|vm_compute in Hrun; discriminate].
  exists s'. split; [reflexivity|].
  exact (backtrack_idempotent 0 one_decision s'
           (reachable_solver_inv _ one_decision_reachable) Hrun).
Defined.

Lemma phase_saving_witness :
  ∃ s1 s2, backtrack 0 one_decision = Some s1
    ∧ make_decision s1 = (true, s2)
    ∧ assignment one_decision !! 1 = Some false
    ∧ assignment s2 !! 1 = Some false.
Proof.
  assert ((λ s1, (assignment s1 !! 1, (make_decision s1).1,
                  assignment (make_decision s1).2 !! 1))
            <$> backtrack 0 one_decision
          = Some (None, true, Some false)) as He by (vm_compute; reflexivity).
  destruct (backtrack 0 one_decision) as [s1|] eqn:Hback; [|discriminate].
  simpl in He. injection He as Hnone Hdecided Hsome.
  destruct (make_decision s1) as [decided s2] eqn:Hdec.
  simpl in Hdecided, Hsome. subst decided.
  exists s1, s2. split; [reflexivity|]. split; [exact Hdec|].
  split; [reflexivity|].
  exact (proj2 (phase_saving 0 one_decision s1 s2 1 false Hback Hdec
                  eq_refl Hnone (ex_intro _ false Hsome))).
Defined.

Lemma perform_restart_effect_witness :
  ∃ s', perform_restart one_decision = Some s'
    ∧ decision_level s' = 0 ∧ conflicts s' = 0.
Proof.
  destruct (perform_restart_effect one_decision
              (reachable_solver_inv _ one_decision_reachable))
    as (s' & x & Hrun & Hdl & Hc & _).
  exists s'. split; [exact Hrun|]. split; [exact Hdl | exact Hc].
Defined.

Lemma restart_interval_constant_witness :
  reachable one_decision
  ∧ should_restart one_decision = Some (100 <=? conflicts one_decision).
Proof.
  split; [exact one_decision_reachable|].
  exact (restart_interval_constant one_decision one_decision_reachable).
Defined.


Lemma parse_cnf_file_skips_comments_witness :
  comment_or_blank "c a comment"
  ∧ parse_cnf_file (["1 0"%string] ++ "c a comment"%string :: ["2 0"%string])
    = parse_cnf_file (["1 0"%string] ++ ["2 0"%string]).
Proof.
  assert (comment_or_blank "c a comment") as Hc
    by (left; vm_compute; reflexivity).
  split; [exact Hc|].
  exact (parse_cnf_file_skips_comments ["1 0"%string] "c a comment"%string
           ["2 0"%string] Hc).
Defined.

Lemma learned_clauses_subsumed_witness :
  ∃ e s', solve remove_dups 2 two_clauses CDCLSolver_init = Some (e, s')
    ∧ learned_clauses s' = [[1; -2]]
    ∧ ∀ c, c ∈ learned_clauses s' →
        (∃ c0, c0 ∈ two_clauses ∧ subclause c0 c) ∧ implied_by two_clauses c.
Proof.
  assert (learned_clauses ∘ snd
            <$> solve remove_dups 2 two_clauses CDCLSolver_init
          = Some [[1; -2]]) as Hl by (vm_compute; reflexivity).
  destruct (solve remove_dups 2 two_clauses CDCLSolver_init)
    as [[e s']|] eqn:Hrun; [|discriminate].
  simpl in Hl. injection Hl as Hl.
  exists e, s'. split; [reflexivity|]. split; [exact Hl|].
  exact (learned_clauses_subsumed remove_dups 2 two_clauses e s'
           (λ l x, elem_of_remove_dups l x) Hrun).
Defined.

Lemma solve_unsat_sound_witness :
  ∃ s', solve remove_dups 1 [[1]; [-1]] CDCLSolver_init
        = Some (ExitConflictLevel0, s')
    ∧ (satisfiable [[1]; [-1]] → False).
Proof.
  assert (fst <$> solve remove_dups 1 [[1]; [-1]] CDCLSolver_init
          = Some ExitConflictLevel0) as He by (vm_compute; reflexivity).
  destruct (solve remove_dups 1 [[1]; [-1]] CDCLSolver_init)
    as [[e s']|] eqn:Hrun; [|discriminate].
  simpl in He. injection He as ->.
  exists s'. split; [reflexivity|].
  exact (solve_unsat_sound remove_dups 1 [[1]; [-1]] ExitConflictLevel0 s'
           (λ l x, elem_of_remove_dups l x) Hrun (or_introl eq_refl)).
Defined.

Lemma solve_no_decision_unreachable_witness :
  ∃ e s', zero_free two_clauses
    ∧ solve remove_dups 5 two_clauses CDCLSolver_init = Some (e, s')
    ∧ (e = ExitNoDecision → False).
Proof.
  assert (zero_free two_clauses) as Hz.
  { repeat constructor; discriminate. }
  destruct (solve remove_dups 5 two_clauses CDCLSolver_init)
    as [[e s']|] eqn:Hrun; [|vm_compute in Hrun; discriminate].
  exists e, s'. split; [exact Hz|]. split; [reflexivity|].
  exact (solve_no_decision_unreachable remove_dups 5 two_clauses e s'
           (λ l x, elem_of_remove_dups l x) Hz Hrun).
Defined.

Lemma first_conflict_reachable c s : first_conflict = Some (c, s) → reachable s.
Proof.
  unfold first_conflict, reachable.
  set (s0 := initialize_activity (set_max_var 2 CDCLSolver_init)).
  assert (rtc step CDCLSolver_init s0) as H0.
  { eapply rtc_l; [apply (step_set_max_var 2)|].
    apply rtc_once, step_initialize_activity. }
  destruct (unit_propagate _ s0) as [[r1 s1]|] eqn:H1; [|done]. simpl.
  destruct (make_decision s1) as [d s2] eqn:H2.
  destruct (unit_propagate _ s2) as [[r3 s3]|] eqn:H3; [|done]. simpl.
  destruct r3 as [c3|]; [|done]. simpl. intros [= _ <-].
  eapply rtc_r; [|by eapply step_unit_propagate].
  eapply rtc_r; [|by eapply step_make_decision].
  eapply rtc_r; [exact H0 | by eapply step_unit_propagate].
Qed.

Lemma analyze_conflict_jumps_back_witness :
  ∃ c s bl final s',
    first_conflict = Some (c, s)
    ∧ analyze_conflict remove_dups c s = Some ((bl, final), s')
    ∧ 0 ≤ bl ∧ trail s' = trail s.
Proof.
  destruct first_conflict as [[c s]|] eqn:Hc; [|vm_compute in Hc; discriminate].
  destruct (analyze_conflict remove_dups c s) as [[[bl final] s']|] eqn:Ha.
  - exists c, s, bl, final, s'. split; [reflexivity|]. split; [exact Ha|].
    destruct (analyze_conflict_jumps_back remove_dups c s bl final s' Ha)
      as (Hbl & _ & _ & Ht & _).
    split; [exact Hbl | exact Ht].
  - exfalso.
    assert (first_analysis ≠ None) as Hn by (vm_compute; discriminate).
    apply Hn. unfold first_analysis. rewrite Hc. simpl. exact Ha.
Defined.

Lemma analyze_conflict_clause_sources_witness :
  ∃ c s bl final s',
    first_conflict = Some (c, s)
    ∧ analyze_conflict remove_dups c s = Some ((bl, final), s')
    ∧ subclause c final.
Proof.
  destruct first_conflict as [[c s]|] eqn:Hc; [|vm_compute in Hc; discriminate].
  destruct (analyze_conflict remove_dups c s) as [[[bl final] s']|] eqn:Ha.
  - exists c, s, bl, final, s'. split; [reflexivity|]. split; [exact Ha|].
    pose proof (reachable_solver_inv s (first_conflict_reachable c s Hc))
      as (_ & _ & Hb).
    exact (proj1 (analyze_conflict_clause_sources remove_dups c s bl final s'
                    (λ l x, elem_of_remove_dups l x) Hb Ha)).
  - exfalso.
    assert (first_analysis ≠ None) as Hn by (vm_compute; discriminate).
    apply Hn. unfold first_analysis. rewrite Hc. simpl. exact Ha.
Defined.

Lemma parse_cnf_file_one_clause_per_line_witness :
  parse_cnf_file ["c two clauses"; "1 0 2 0"; "-1 0"]%string
  = Some ([[1; 0; 2]; [-1]], 0)
  ∧ (length ([[1; 0; 2]; [-1]]%Z : list clause) ≤ 3)%nat.
Proof.
  assert (parse_cnf_file ["c two clauses"; "1 0 2 0"; "-1 0"]%string
          = Some ([[1; 0; 2]; [-1]], 0)) as H by (vm_compute; reflexivity).
  split; [exact H|].
  exact (parse_cnf_file_one_clause_per_line _ _ _ H).
Defined.

Lemma solve_with_debug_agrees_witness :
  ∃ s', solve remove_dups 20 [[1; 2]; [-1; 2]; [-2; 3]] CDCLSolver_init
        = Some (ExitSatisfied, s')
    ∧ solve_with_debug remove_dups 20 [[1; 2]; [-1; 2]; [-2; 3]]
        CDCLSolver_init
      = Some (Some true, s').
Proof.
  assert (fst <$> solve remove_dups 20 [[1; 2]; [-1; 2]; [-2; 3]]
                    CDCLSolver_init = Some ExitSatisfied) as He
    by (vm_compute; reflexivity).
  destruct (solve remove_dups 20 [[1; 2]; [-1; 2]; [-2; 3]] CDCLSolver_init)
    as [[e s']|] eqn:Hrun; [|discriminate].
  simpl in He. injection He as ->.
  exists s'. split; [reflexivity|].
  exact (proj1 (solve_with_debug_agrees remove_dups 20 _ CDCLSolver_init
                  ExitSatisfied s' Hrun) ltac:(discriminate)).
Defined.

